(** * Periksa Kata proxy: suggestion reconciliation, admission limiter, gateway

    A shallow embedding of the endpoint [api/check.js], in its revision
    with the Upstash delegator, the offset repairs and the strict retry,
    and the properties of its reconciliation loop, its in-memory rate
    limiter, its parse and retry path, and of the handler with the
    functions it calls before the model: the client identifier, the
    delegating limiter, the origin test and the validation of the body.

    Conventions.
    - A JavaScript string is its sequence of UTF-16 code units
      ([jsstring]); [length], [slice] and [indexOf] count code units, as
      the host does.
    - Values are the values [JSON.parse] can build.  Numbers are modelled
      by [Z]: offsets, lengths, clock readings and counters are integral;
      non-integral and overflowing number literals are outside the model.
    - [String.prototype.toLowerCase], [JSON.parse], the conversion of a
      string to a number, SHA-256, the clock and the network are inputs
      of the definitions that use them.  What is written to the console
      is left out. *)

From Stdlib Require Import ZArith NArith List String Ascii Decimal DecimalString QArith.
From Stdlib Require DecimalZ DecimalPos.
From stdpp Require Import base gmap list option sorting.

Set Warnings "-register-all".
Local Open Scope Z_scope.

(** ** JavaScript values and primitives *)

Module JS.

Definition jsstring := list N.

(** An ASCII literal as code units. *)
Definition lit (s : string) : jsstring :=
  map N_of_ascii (list_ascii_of_string s).

Inductive value :=
| JNull
| JBool (b : bool)
| JNum (n : Z)
| JStr (s : jsstring)
| JArr (l : list value)
| JObj (o : gmap jsstring value).

(** What running a piece of the program can end in: a value, a thrown
    exception, or a loop that never exits (and grows an array until the
    process runs out of memory). *)
Inductive outcome (A : Type) :=
| Ok (a : A)
| Throws
| Hangs.
Arguments Ok {A} a.
Arguments Throws {A}.
Arguments Hangs {A}.

#[export] Instance outcome_ret : MRet outcome := @Ok.

#[export] Instance outcome_bind : MBind outcome := λ A B k m,
  match m with
  | Ok a => k a
  | Throws => Throws
  | Hangs => Hangs
  end.

Definition len (s : jsstring) : Z := Z.of_nat (length s).

(** ToBoolean; [None] stands for [undefined]. *)
Definition truthy (v : option value) : bool :=
  match v with
  | None | Some JNull | Some (JBool false) | Some (JNum 0) | Some (JStr []) => false
  | Some _ => true
  end.

(** Number::toString on integers. *)
Definition numberToString (n : Z) : jsstring :=
  lit (NilZero.string_of_int (Z.to_int n)).

Definition comma : N := 44%N.

Definition join_comma (parts : list jsstring) : jsstring :=
  match parts with
  | [] => []
  | p :: ps => p ++ flat_map (fun q => comma :: q) ps
  end.

Definition object_Object : jsstring := Eval cbv in lit "[object Object]".
Definition k_toString : jsstring := Eval cbv in lit "toString".
Definition k_length : jsstring := Eval cbv in lit "length".

Definition sequence {A} (l : list (option A)) : option (list A) :=
  foldr (fun x acc => match x, acc with
                      | Some a, Some r => Some (a :: r)
                      | _, _ => None
                      end) (Some []) l.

(** ToString on a parsed JSON value; [None] is a TypeError.  An array is
    joined with commas, [null] elements giving the empty string.  A plain
    object prints as [[object Object]]; one that carries an own [toString]
    entry has a non-callable [toString] and an inherited [valueOf] that
    returns an object, so the conversion throws. *)
Fixpoint ToString (v : value) : option jsstring :=
  match v with
  | JNull => Some (lit "null")
  | JBool true => Some (lit "true")
  | JBool false => Some (lit "false")
  | JNum n => Some (numberToString n)
  | JStr s => Some s
  | JArr l =>
      join_comma <$>
        sequence (map (fun e => match e with
                                | JNull => Some []
                                | _ => ToString e
                                end) l)
  | JObj o =>
      match o !! k_toString with
      | Some _ => None
      | None => Some object_Object
      end
  end.

Definition String_ (v : value) : outcome jsstring :=
  match ToString v with
  | Some s => Ok s
  | None => Throws
  end.

(** [v.length] for a truthy [v]. *)
Definition get_length (v : value) : option value :=
  match v with
  | JStr s => Some (JNum (len s))
  | JArr l => Some (JNum (Z.of_nat (length l)))
  | JObj o => o !! k_length
  | _ => None
  end.

Definition is_zero (v : option value) : bool :=
  match v with Some (JNum 0) => true | _ => false end.

(** String.prototype.slice with integer arguments. *)
Definition rel_index (n k : Z) : Z :=
  if k <? 0 then Z.max (n + k) 0 else Z.min k n.

Definition slice (s : jsstring) (a b : Z) : jsstring :=
  let from := rel_index (len s) a in
  let to := rel_index (len s) b in
  take (Z.to_nat (to - from)) (drop (Z.to_nat from) s).

Fixpoint starts_with (n h : jsstring) : bool :=
  match n, h with
  | [], _ => true
  | _ :: _, [] => false
  | x :: n', y :: h' => bool_decide (x = y) && starts_with n' h'
  end.

(** First position at or after [k] where [n] starts, [h] being the part of
    the haystack from [k] on. *)
Fixpoint index_from (h n : jsstring) (k : nat) : option nat :=
  if starts_with n h then Some k
  else match h with
       | [] => None
       | _ :: h' => index_from h' n (S k)
       end.

(** String.prototype.indexOf(searchString, position). *)
Definition indexOf (h n : jsstring) (pos : Z) : Z :=
  let start := Z.to_nat (Z.min (Z.max pos 0) (len h)) in
  match index_from (drop start h) n start with
  | Some k => Z.of_nat k
  | None => -1
  end.

End JS.
Import JS.

(** ** The nearest-occurrence search *)

(** The [while (true)] loop that collects every index at which [needle]
    occurs.  [fuel] bounds the number of iterations; [None] means the
    bound was reached with the loop still running. *)
Fixpoint collect (fuel : nat) (haystack needle : jsstring) (from : Z)
    (occurrences : list Z) : option (list Z) :=
  match fuel with
  | O => None
  | S fuel' =>
      let idx := indexOf haystack needle from in
      if idx =? -1 then Some occurrences
      else collect fuel' haystack needle (idx + 1) (occurrences ++ [idx])
  end.

(** The [for] loop that keeps the occurrence closest to [approxIndex];
    a later occurrence replaces the best one only when strictly closer. *)
Fixpoint closest (occurrences : list Z) (approxIndex best bestDist : Z) : Z :=
  match occurrences with
  | [] => best
  | o :: rest =>
      let d := Z.abs (o - approxIndex) in
      if d <? bestDist then closest rest approxIndex o d
      else closest rest approxIndex best bestDist
  end.

(** The part shared by both searches, from the collecting loop on.  A
    loop that is still running after every position of the haystack has
    been tried never exits (see [collect_empty_needle]). *)
Definition nearest_of (haystack needle : jsstring) (approxIndex : option Z)
    : outcome Z :=
  match collect (length haystack + 2) haystack needle 0 [] with
  | None => Hangs
  | Some [] => Ok (-1)
  | Some (o :: rest) =>
      match approxIndex with
      | None => Ok o
      | Some a => Ok (closest rest a o (Z.abs (o - a)))
      end
  end.

(** [findNearestIndex(haystack, needle, approxIndex)].  The needle is
    whatever the candidate carries in [before]; [indexOf] converts it to
    a string. *)
Definition findNearestIndex (haystack : jsstring) (needle : option value)
    (approxIndex : option Z) : outcome Z :=
  match needle with
  | None => Ok (-1)
  | Some v =>
      if negb (truthy needle) || is_zero (get_length v) then Ok (-1)
      else n ← String_ v; nearest_of haystack n approxIndex
  end.

(** ** Sanitising strings *)

(** The class [[\u0000-\u0008\u000B\u000C\u000E-\u001F\u007F]]. *)
Definition is_control (c : N) : bool :=
  ((c <=? 8) || (c =? 11) || (c =? 12) || ((14 <=? c) && (c <=? 31))
   || (c =? 127))%N.

(** The class [\s], which is also what [trim] removes. *)
Definition is_space (c : N) : bool :=
  (((9 <=? c) && (c <=? 13)) || (c =? 32) || (c =? 160) || (c =? 5760)
   || ((8192 <=? c) && (c <=? 8202)) || (c =? 8232) || (c =? 8233)
   || (c =? 8239) || (c =? 8287) || (c =? 12288) || (c =? 65279))%N.

Definition space : N := 32%N.

(** [s.replace(/\s+/g, ' ')]; [in_run] tells that the previous unit was
    white space already. *)
Fixpoint collapse (in_run : bool) (s : jsstring) : jsstring :=
  match s with
  | [] => []
  | c :: s' =>
      if is_space c
      then (if in_run then collapse true s' else space :: collapse true s')
      else c :: collapse false s'
  end.

Fixpoint trim_start (s : jsstring) : jsstring :=
  match s with
  | [] => []
  | c :: s' => if is_space c then trim_start s' else s
  end.

Definition trim (s : jsstring) : jsstring :=
  reverse (trim_start (reverse (trim_start s))).

(** [sanitizeString(input, maxLen)] on a string and a number. *)
Definition sanitizeString (input : jsstring) (maxLen : Z) : jsstring :=
  let s := map (fun c => if is_control c then space else c) input in
  let s := trim (collapse false s) in
  if (0 <? maxLen) && (maxLen <? len s) then slice s 0 maxLen else s.

(** ** The reconciliation loop *)

Definition k_category : jsstring := Eval cbv in lit "category".
Definition k_severity : jsstring := Eval cbv in lit "severity".
Definition k_message : jsstring := Eval cbv in lit "message".
Definition k_before : jsstring := Eval cbv in lit "before".
Definition k_after : jsstring := Eval cbv in lit "after".
Definition k_start : jsstring := Eval cbv in lit "start".
Definition k_end : jsstring := Eval cbv in lit "end".
Definition k_id : jsstring := Eval cbv in lit "id".
Definition k_confidence : jsstring := Eval cbv in lit "confidence".

Definition requiredFields : list jsstring :=
  [k_category; k_message; k_before; k_after; k_start; k_end].

Definition categories : list jsstring :=
  Eval cbv in [lit "typo"; lit "baku"; lit "eyd"; lit "konteks"].

Definition severities : list jsstring :=
  Eval cbv in [lit "low"; lit "medium"; lit "high"].

(** [Array.prototype.includes] on an array of strings. *)
Definition includes (l : list jsstring) (v : option value) : bool :=
  match v with
  | Some (JStr s) => bool_decide (s ∈ l)
  | _ => false
  end.

(** [basicSuggestionShapeValid(suggestion)]: an array has none of the
    required keys. *)
Definition basicSuggestionShapeValid (suggestion : value) : bool :=
  match suggestion with
  | JObj o => forallb (fun field => bool_decide (is_Some (o !! field))) requiredFields
  | _ => false
  end.

(** [String(before || '')]. *)
Definition String_or_empty (v : option value) : outcome jsstring :=
  match v with
  | Some w => if truthy v then String_ w else Ok []
  | None => Ok []
  end.

(** [actualText !== before] is false only for a string equal to it. *)
Definition same_string (s : jsstring) (v : option value) : bool :=
  match v with
  | Some (JStr b) => bool_decide (s = b)
  | _ => false
  end.

(** A suggestion under construction is an object; the loop keeps the
    accepted objects and their ranges side by side. *)
Record state := State {
  processedSuggestions : list (gmap jsstring value);
  takenRanges : list (Z * Z)
}.

Definition overlaps (takenRanges : list (Z * Z)) (s e : Z) : bool :=
  existsb (fun '(ts, te) => negb ((e <=? ts) || (s >=? te))) takenRanges.

Definition len_list {A} (l : list A) : Z := Z.of_nat (length l).

(** How one pass through the loop body ends. *)
Inductive flow :=
| Continue (st : state)
| Break (st : state).

Section Engine.

(** [String.prototype.toLowerCase] of the host. *)
Variable toLowerCase : jsstring → jsstring.

(** [findNearestIndexCI(haystack, needle, approxIndex)].  Calling
    [toLowerCase] on a truthy value that is not a string throws. *)
Definition findNearestIndexCI (haystack : jsstring) (needle : option value)
    (approxIndex : option Z) : outcome Z :=
  let hayLower := toLowerCase haystack in
  needLower ← (if truthy needle
               then match needle with
                    | Some (JStr s) => Ok (toLowerCase s)
                    | _ => Throws
                    end
               else Ok (toLowerCase []));
  match needLower with
  | [] => Ok (-1)
  | _ => nearest_of hayLower needLower approxIndex
  end.

(** [Date.now()] as read in pass [i] of the loop. *)
Variable now : nat → Z.

(** "Jaga batas": [start] and [end] replaced when they are not numbers,
    then clamped into the text.  [start || 0] is [start] itself. *)
Definition clamp (text : jsstring) (o : gmap jsstring value) : outcome (Z * Z) :=
  let before := o !! k_before in
  let start := match o !! k_start with Some (JNum n) => n | _ => 0 end in
  end_ ← match o !! k_end with
         | Some (JNum n) => Ok n
         | _ => b ← String_or_empty before;
                Ok (Z.min (len text) (start + len b))
         end;
  let start := Z.max 0 (Z.min start (len text)) in
  let end_ := Z.max start (Z.min end_ (len text)) in
  Ok (start, end_).

(** The comparison of the slice with [before] and the two repairs.  The
    result is the final [start], [end] and [actualText], or [None] when
    the candidate is skipped. *)
Definition locate (text : jsstring) (o : gmap jsstring value) (start end_ : Z)
    : outcome (option (Z * Z * jsstring)) :=
  let before := o !! k_before in
  let actualText := slice text start end_ in
  if same_string actualText before then Ok (Some (start, end_, actualText))
  else
    idxExact ← findNearestIndex text before (Some start);
    if negb (idxExact =? -1) then
      b ← String_or_empty before;
      let newStart := idxExact in
      let newEnd := idxExact + len b in
      Ok (Some (newStart, newEnd, slice text newStart newEnd))
    else
      idxCI ← findNearestIndexCI text before (Some start);
      if negb (idxCI =? -1) then
        b ← String_or_empty before;
        let newStart := idxCI in
        let newEnd := idxCI + len b in
        let actual := slice text newStart newEnd in
        Ok (Some (newStart, newEnd, actual))
      else Ok None.

Definition sg_ : jsstring := Eval cbv in lit "sg-".
Definition dash : jsstring := Eval cbv in lit "-".

(** The object [fixed]: the candidate spread, five entries overwritten,
    and an [id] added when the candidate has none that is truthy. *)
Definition fix_suggestion (i : nat) (o : gmap jsstring value) (start end_ : Z)
    (actualText : jsstring) : outcome (gmap jsstring value) :=
  m ← match o !! k_message with
      | Some v => String_ v
      | None => Ok (lit "undefined")
      end;
  let sanitizedMessage := sanitizeString m 200 in
  afterVal ← match o !! k_after with
             | Some (JStr a) => Ok a
             | Some JNull | None => Ok []
             | Some v => String_ v
             end;
  let afterVal := sanitizeString afterVal 100 in
  let fixed :=
    <[k_message := JStr sanitizedMessage]>
      (<[k_after := JStr afterVal]>
         (<[k_before := JStr actualText]>
            (<[k_end := JNum end_]>
               (<[k_start := JNum start]> o)))) in
  if truthy (fixed !! k_id) then Ok fixed
  else Ok (<[k_id := JStr (sg_ ++ numberToString (now i) ++ dash
                             ++ numberToString (Z.of_nat i))]> fixed).

(** The first half of the loop body, up to the overlap test: the shape,
    category and severity checks, the clamping and the repairs.  [None]
    is a [continue]; otherwise the candidate object with its final
    [start], [end] and [actualText]. *)
Definition resolve (text : jsstring) (suggestion : value)
    : outcome (option (gmap jsstring value * Z * Z * jsstring)) :=
  if negb (basicSuggestionShapeValid suggestion) then Ok None
  else match suggestion with
  | JObj o =>
      if negb (includes categories (o !! k_category)) then Ok None
      else if truthy (o !! k_severity) && negb (includes severities (o !! k_severity))
      then Ok None
      else
        '(start, end_) ← clamp text o;
        found ← locate text o start end_;
        match found with
        | None => Ok None
        | Some (start, end_, actualText) => Ok (Some (o, start, end_, actualText))
        end
  | _ => Ok None
  end.

(** One pass through the body of the [for] loop, for candidate [i]. *)
Definition iteration (text : jsstring) (i : nat) (suggestion : value) (st : state)
    : outcome flow :=
  r ← resolve text suggestion;
  match r with
  | None => Ok (Continue st)
  | Some (o, start, end_, actualText) =>
      if overlaps (takenRanges st) start end_ then Ok (Continue st)
      else
        fixed ← fix_suggestion i o start end_ actualText;
        let st' := State (processedSuggestions st ++ [fixed])
                         (takenRanges st ++ [(start, end_)]) in
        if 20 <=? len_list (processedSuggestions st')
        then Ok (Break st') else Ok (Continue st')
  end.

(** The [for] loop from index [i] on. *)
Fixpoint loop (text : jsstring) (i : nat) (suggestions : list value) (st : state)
    : outcome state :=
  match suggestions with
  | [] => Ok st
  | suggestion :: rest =>
      f ← iteration text i suggestion st;
      match f with
      | Continue st' => loop text (S i) rest st'
      | Break st' => Ok st'
      end
  end.

(** The reconciliation engine: the part of [checkTextWithOpenAI] below
    "Validate and process suggestions", on the array of candidates. *)
Definition reconcile (text : jsstring) (suggestions : list value)
    : outcome (list (gmap jsstring value)) :=
  st ← loop text 0 suggestions (State [] []);
  Ok (processedSuggestions st).

End Engine.

(** ** The in-memory admission limiter *)

Module Limiter.

Record rate_limit := { maxRequests : Z; windowMs : Z }.

(** [CONFIG.RATE_LIMIT]. *)
Definition RATE_LIMIT : rate_limit := {| maxRequests := 10; windowMs := 60000 |}.

(** [checkRateLimitInMemory(clientId)], with the store and the reading
    of [Date.now()] made explicit; the result is the answer and the store
    afterwards. *)
Definition checkRateLimitInMemory (rateLimitStore : gmap jsstring (list Z))
    (clientId : jsstring) (now : Z) : bool * gmap jsstring (list Z) :=
  let requests := default [] (rateLimitStore !! clientId) in
  let validRequests :=
    filter (λ time, now - time < windowMs RATE_LIMIT) requests in
  if len_list validRequests >=? maxRequests RATE_LIMIT then (false, rateLimitStore)
  else (true, <[clientId := validRequests ++ [now]]> rateLimitStore).

(** The periodic sweep installed with [setInterval]. *)
Definition sweep (rateLimitStore : gmap jsstring (list Z)) (now : Z)
    : gmap jsstring (list Z) :=
  omap (λ requests,
          let validRequests :=
            filter (λ time, now - time < windowMs RATE_LIMIT) requests in
          if bool_decide (length validRequests = 0%nat) then None
          else Some validRequests) rateLimitStore.

(** A sequence of calls by one client, at the given clock readings. *)
Fixpoint calls (rateLimitStore : gmap jsstring (list Z)) (clientId : jsstring)
    (times : list Z) : list bool * gmap jsstring (list Z) :=
  match times with
  | [] => ([], rateLimitStore)
  | now :: rest =>
      let '(ok, store') := checkRateLimitInMemory rateLimitStore clientId now in
      let '(oks, store'') := calls store' clientId rest in
      (ok :: oks, store'')
  end.

End Limiter.

(** ** The model gateway: parsing, repair and the strict retry *)

Module Gateway.

Definition k_choices : jsstring := Eval cbv in lit "choices".
Definition k_content : jsstring := Eval cbv in lit "content".
Definition k_suggestions : jsstring := Eval cbv in lit "suggestions".
Definition k_zero : jsstring := Eval cbv in lit "0".
Definition open_brace : N := 123%N.
Definition close_brace : N := 125%N.

(** [v.name] for a name that is not an index and not a method of the
    prototypes; [None] is [undefined]. *)
Definition member (v : value) (name : jsstring) : option value :=
  match v with
  | JObj o => o !! name
  | JStr _ | JArr _ => if bool_decide (name = k_length) then get_length v else None
  | _ => None
  end.

(** [v[0]]. *)
Definition first (v : value) : option value :=
  match v with
  | JObj o => o !! k_zero
  | JArr l => l !! 0%nat
  | JStr s => (λ c, JStr [c]) <$> s !! 0%nat
  | _ => None
  end.

(** Property access throws on [null] and [undefined]; with [?.] it gives
    [undefined] instead. *)
Definition access (f : value → option value) (v : option value)
    : outcome (option value) :=
  match v with
  | None | Some JNull => Throws
  | Some w => Ok (f w)
  end.

Definition access_opt (f : value → option value) (v : option value) : option value :=
  match v with
  | None | Some JNull => None
  | Some w => f w
  end.

(** The brace-depth scan of [extractJSONBlock] over the units from
    [start] on ([rest] is what is left to read, [i] its index): the index
    at which the depth is back to zero. *)
Fixpoint scan_depth {A} (is_open is_close : A → bool) (rest : list A)
    (i : nat) (depth : Z) : option nat :=
  match rest with
  | [] => None
  | ch :: rest' =>
      if is_open ch then scan_depth is_open is_close rest' (S i) (depth + 1)
      else if is_close ch then
        (if depth - 1 =? 0 then Some i
         else scan_depth is_open is_close rest' (S i) (depth - 1))
      else scan_depth is_open is_close rest' (S i) depth
  end.

(** Position of the first unit accepted by [p]. *)
Fixpoint find_index {A} (p : A → bool) (l : list A) (i : nat) : option nat :=
  match l with
  | [] => None
  | x :: l' => if p x then Some i else find_index p l' (S i)
  end.

Definition block_bounds {A} (is_open is_close : A → bool) (l : list A)
    : option (nat * nat) :=
  match find_index is_open l 0 with
  | None => None
  | Some start =>
      (λ i, (start, i)) <$> scan_depth is_open is_close (drop start l) start 0
  end.

Definition is_str (s : jsstring) (v : value) : bool :=
  match v with JStr t => bool_decide (s = t) | _ => false end.

(** [extractJSONBlock(str)].  A string is scanned unit by unit.  An array
    answers [indexOf], [length], indexing and [slice] as well, on its
    elements; any other truthy value has no [indexOf] to call. *)
Definition extractJSONBlock (str : option value) : outcome (option value) :=
  if negb (truthy str) then Ok None
  else match str with
  | Some (JStr s) =>
      Ok (match block_bounds (N.eqb open_brace) (N.eqb close_brace) s with
          | Some (start, i) => Some (JStr (take (S i - start) (drop start s)))
          | None => None
          end)
  | Some (JArr l) =>
      Ok (match block_bounds (is_str [open_brace]) (is_str [close_brace]) l with
          | Some (start, i) => Some (JArr (take (S i - start) (drop start l)))
          | None => None
          end)
  | _ => Throws
  end.

Definition undefined_ : jsstring := Eval cbv in lit "undefined".

Section Parse.

(** [JSON.parse] on a string; [None] is a SyntaxError. *)
Variable JSON_parse : jsstring → option value.

(** [JSON.parse(x)] on any value: the argument is converted first. *)
Definition parse_any (x : option value) : option value :=
  match x with
  | None => JSON_parse undefined_
  | Some v => s ← ToString v; JSON_parse s
  end.

(** [tryParseJSONWithRepair(content)]; [None] when it throws. *)
Definition tryParseJSONWithRepair (content : option value) : option value :=
  match parse_any content with
  | Some parsed => Some parsed
  | None =>
      match extractJSONBlock content with
      | Ok (Some block) =>
          if truthy (Some block) then parse_any (Some block) else None
      | _ => None
      end
  end.

End Parse.

(** The message bodies sent to the model: the system prompt, the user
    prompt built around the text, and the user prompt of the retry. *)
Inductive content :=
| SYSTEM_PROMPT
| userPrompt (text : jsstring)
| strictPrompt (text : jsstring).

Record request := Request {
  messages : list content;
  temperature : Q;
  max_tokens : Z
}.

(** What [fetch] and the reading of the body give: a rejected promise,
    or a response with its [ok] flag, its status and the value of
    [response.json()] ([None] when the body is not JSON). *)
Inductive fetched :=
| NetworkError
| Response (ok : bool) (status : Z) (json : option value).

(** The requests sent so far, oldest first, next to the state of the
    world that answers them. *)
Record world (W : Type) := World { net : W; sent : list request }.
Arguments World {W} net sent.
Arguments net {W} w.
Arguments sent {W} w.

Section Check.

Variable toLowerCase : jsstring → jsstring.
Variable now : nat → Z.
Variable JSON_parse : jsstring → option value.

(** The network and the model behind it. *)
Variable W : Type.
Variable fetch : request → W → fetched * W.

Definition send (rq : request) (w : world W) : fetched * world W :=
  let '(r, n) := fetch rq (net w) in
  (r, World n (sent w ++ [rq])).

(** [strictRetryJSON(text)]: the content of the retry, or [None] for
    [null]; every failure is caught inside. *)
Definition strictRetryJSON (text : jsstring) (w : world W)
    : option value * world W :=
  let '(r, w) := send (Request [SYSTEM_PROMPT; strictPrompt text] 0 2000) w in
  match r with
  | Response true _ (Some data) =>
      let content :=
        access_opt (λ v, member v k_content)
          (access_opt (λ v, member v k_message)
             (access_opt first
                (access_opt (λ v, member v k_choices) (Some data)))) in
      (if truthy content then content else None, w)
  | _ => (None, w)
  end.

(** [data.choices[0].message.content] after the two guards on
    [data.choices]. *)
Definition first_content (data : value) : outcome (option value) :=
  choices ← access (λ v, member v k_choices) (Some data);
  if negb (truthy choices) then Throws
  else
    n ← access (λ v, member v k_length) choices;
    if is_zero n then Throws
    else
      choice ← access first choices;
      message ← access (λ v, member v k_message) choice;
      access (λ v, member v k_content) message.

(** [Array.isArray(parsed?.suggestions) ? parsed.suggestions : []]. *)
Definition suggestions_of (parsed : value) : list value :=
  match access_opt (λ v, member v k_suggestions) (Some parsed) with
  | Some (JArr l) => l
  | _ => []
  end.

(** [checkTextWithOpenAI(text)]. *)
Definition checkTextWithOpenAI (text : jsstring) (w : world W)
    : outcome (list (gmap jsstring value)) * world W :=
  let '(r, w) := send (Request [SYSTEM_PROMPT; userPrompt text] (1 # 10) 2000) w in
  match r with
  | Response true _ (Some data) =>
      match first_content data with
      | Ok content =>
          match tryParseJSONWithRepair JSON_parse content with
          | Some parsed =>
              (reconcile toLowerCase now text (suggestions_of parsed), w)
          | None =>
              let '(retryRaw, w) := strictRetryJSON text w in
              match retryRaw with
              | None => (Ok [], w)
              | Some _ =>
                  match tryParseJSONWithRepair JSON_parse retryRaw with
                  | Some parsed =>
                      (reconcile toLowerCase now text (suggestions_of parsed), w)
                  | None => (Ok [], w)
                  end
              end
          end
      | Throws => (Throws, w)
      | Hangs => (Hangs, w)
      end
  | _ => (Throws, w)
  end.

End Check.

End Gateway.

(** ** Concrete inputs *)

(** The host's lower-casing on Basic Latin and Latin-1 letters and on
    U+0130, whose lower case takes two units; other units are left as
    they are.  It serves to run the definitions on concrete texts. *)
Definition lower_unit (c : N) : list N :=
  (if (65 <=? c) && (c <=? 90) then [c + 32]
   else if (192 <=? c) && (c <=? 222) && negb (c =? 215) then [c + 32]
   else if c =? 304 then [105; 775]
   else [c])%N.

Definition lower_latin (s : jsstring) : jsstring := flat_map lower_unit s.

(** A candidate with exactly the six required entries. *)
Definition candidate (category message before after : jsstring) (start end_ : Z)
    : gmap jsstring value :=
  <[k_category := JStr category]>
    (<[k_message := JStr message]>
       (<[k_before := JStr before]>
          (<[k_after := JStr after]>
             (<[k_start := JNum start]>
                (<[k_end := JNum end_]> ∅))))).

Definition typo : jsstring := Eval cbv in lit "typo".

Definition clock0 : nat → Z := λ _, 1700000000000.

Definition text_sya : jsstring := Eval cbv in lit "Sya mkn ayam".

(** [{before: "sya", start: 0, end: 3, category: "typo", ...}] and the
    suggestion it becomes. *)
Definition cand_sya : gmap jsstring value :=
  candidate typo (lit "Kata 'sya' seharusnya 'saya'") (lit "sya") (lit "saya") 0 3.

Definition sugg_sya : gmap jsstring value :=
  <[k_id := JStr (lit "sg-1700000000000-0")]>
    (candidate typo (lit "Kata 'sya' seharusnya 'saya'") (lit "Sya") (lit "saya") 0 3).

(** Two candidates on that text whose spans, 0 to 3 and 2 to 6, overlap. *)
Definition cand_Sya : gmap jsstring value :=
  candidate typo (lit "salah ketik") (lit "Sya") (lit "Saya") 0 3.

Definition cand_a_mk : gmap jsstring value :=
  candidate typo (lit "salah ketik") (lit "a mk") (lit "a mak") 2 6.

(** A candidate with the empty string as [before], offered for the
    whole of the text [ab]. *)
Definition text_ab : jsstring := Eval cbv in lit "ab".

Definition cand_empty : gmap jsstring value :=
  candidate typo (lit "hapus") [] (lit "x") 0 2.

(** The text [İA] (U+0130, then [A]) with a candidate for [a]; and the
    text [abc] with a candidate whose [before] is empty and whose
    [start] and [end] are both 1. *)
Definition text_dotted : jsstring := [304%N; 65%N].

Definition cand_a : gmap jsstring value :=
  candidate typo (lit "kapital") (lit "a") (lit "b") 0 1.

Definition text_abc : jsstring := Eval cbv in lit "abc".

Definition cand_nothing : gmap jsstring value :=
  candidate typo (lit "sisip") [] (lit "x") 1 1.

(** Twenty-five candidates, one for each letter of a text of
    twenty-five different letters, with their spans and the suggestions
    they become. *)
Definition letter (k : nat) : N := N.of_nat (97 + k).

Definition text_25 : jsstring := map letter (seq 0 25).

Definition cand_letter (k : nat) : gmap jsstring value :=
  candidate typo (lit "huruf") [letter k] (lit "x") (Z.of_nat k) (Z.of_nat k + 1).

Definition cands_25 : list value := map (λ k, JObj (cand_letter k)) (seq 0 25).

Definition spans_25 : list (Z * Z) :=
  map (λ k, (Z.of_nat k, Z.of_nat k + 1)) (seq 0 25).

Definition fixeds_25 : list (gmap jsstring value) :=
  map (λ k, <[k_id := JStr (sg_ ++ numberToString (clock0 k) ++ dash
                              ++ numberToString (Z.of_nat k))]> (cand_letter k))
      (seq 0 25).

(** A client and the times of ten calls, one per second. *)
Definition client : jsstring := Eval cbv in lit "203.0.113.7".

Definition ten_calls : list Z :=
  [0; 1000; 2000; 3000; 4000; 5000; 6000; 7000; 8000; 9000].

(** The candidate for [Sya] with a [confidence] of 7. *)
Definition cand_confident : gmap jsstring value :=
  <[k_confidence := JNum 7]> cand_Sya.

(** A model that answers every request with prose instead of JSON; the
    world counts the requests.  The parser is [JSON.parse] as far as
    these answers go: it accepts [null] and rejects the prose. *)
Definition reply (content : jsstring) : value :=
  JObj {[ Gateway.k_choices :=
            JArr [JObj {[ k_message := JObj {[ Gateway.k_content := JStr content ]} ]}] ]}.

Definition prose : jsstring := Eval cbv in lit "Maaf, saya tidak bisa.".

Definition fetch_prose (rq : Gateway.request) (n : nat) : Gateway.fetched * nat :=
  (Gateway.Response true 200 (Some (reply prose)), S n).

Definition parse_null (s : jsstring) : option value :=
  if bool_decide (s = lit "null") then Some JNull else None.

(** Candidates whose [before] is not a string: the array holding the
    empty string, and the number 7. *)
Definition cand_array : gmap jsstring value :=
  <[k_before := JArr [JStr []]]> cand_nothing.

Definition cand_seven : gmap jsstring value :=
  <[k_before := JNum 7]> cand_nothing.

(** ** Vocabulary of the statements *)

(** [needle] occurs in [haystack] at index [i]. *)
Definition occurs_at (haystack needle : jsstring) (i : Z) : Prop :=
  0 ≤ i ∧ i + len needle ≤ len haystack
  ∧ slice haystack i (i + len needle) = needle.

(** [needle] starts at position [i] of [haystack]: the same thing, as
    the search tests it. *)
Definition starts_at (h n : jsstring) (i : Z) : Prop :=
  0 ≤ i ∧ starts_with n (drop (Z.to_nat i) h) = true.

(** [i] is, among the indices satisfying [P], the one closest to
    [approx], and the lowest of those at that distance. *)
Definition nearest_to (P : Z → Prop) (approx i : Z) : Prop :=
  P i ∧ ∀ j, P j →
    Z.abs (i - approx) ≤ Z.abs (j - approx)
    ∧ (Z.abs (j - approx) = Z.abs (i - approx) → i ≤ j).

(** The checks of the loop body that come before the clamping. *)
Definition passes_checks (o : gmap jsstring value) : bool :=
  basicSuggestionShapeValid (JObj o)
  && includes categories (o !! k_category)
  && negb (truthy (o !! k_severity)
           && negb (includes severities (o !! k_severity))).

(** The first repair relocates the candidate to the occurrence of
    [before] nearest to the clamped [start], and the candidate, if it
    passed the checks, goes on to the overlap test with that span. *)
Definition repaired_exactly (toLowerCase : jsstring → jsstring)
    (text : jsstring) (o : gmap jsstring value) (b : jsstring)
    (start end_ : Z) : Prop :=
  ∃ i, nearest_to (occurs_at text b) start i
       ∧ locate toLowerCase text o start end_ = Ok (Some (i, i + len b, b))
       ∧ (passes_checks o = true →
          resolve toLowerCase text (JObj o) = Ok (Some (o, i, i + len b, b))).

(** The first request and the strict retry for a text. *)
Definition first_request (text : jsstring) : Gateway.request :=
  Gateway.Request [Gateway.SYSTEM_PROMPT; Gateway.userPrompt text] (1 # 10) 2000.

Definition retry_request (text : jsstring) : Gateway.request :=
  Gateway.Request [Gateway.SYSTEM_PROMPT; Gateway.strictPrompt text] 0 2000.

(** The half-open overlap test of two intervals. *)
Definition interval_overlap (a b : Z * Z) : Prop :=
  a.1 < b.2 ∧ b.1 < a.2.

(** The entries [start], [end] and [before] of a suggestion. *)
Definition span_of (s : gmap jsstring value) : option (Z * Z) :=
  match s !! k_start, s !! k_end with
  | Some (JNum a), Some (JNum b) => Some (a, b)
  | _, _ => None
  end.

(** The invariant of a suggestion: its [before] is the slice of the
    text between its [start] and its [end]. *)
Definition anchored (text : jsstring) (s : gmap jsstring value) : Prop :=
  ∃ a b, s !! k_start = Some (JNum a) ∧ s !! k_end = Some (JNum b)
         ∧ s !! k_before = Some (JStr (slice text a b)).

Definition state_of (f : flow) : state :=
  match f with Continue st | Break st => st end.

(** The entries that the loop computes itself. *)
Definition computed_keys : list jsstring :=
  [k_start; k_end; k_before; k_after; k_message; k_id].

(** No two of the ranges overlap. *)
Definition disjoint_ranges (ranges : list (Z * Z)) : Prop :=
  ∀ i j a b, i ≠ j → ranges !! i = Some a → ranges !! j = Some b →
    ¬ interval_overlap a b.

(** The accepted suggestions and the ranges go side by side. *)
Definition lockstep (st : state) : Prop :=
  Forall2 (λ f r, span_of f = Some r) (processedSuggestions st) (takenRanges st).

(** The loop, telling in addition whether it was left by [break]. *)
Fixpoint loop_flow (toLowerCase : jsstring → jsstring) (now : nat → Z)
    (text : jsstring) (i : nat) (suggestions : list value) (st : state)
    : outcome flow :=
  match suggestions with
  | [] => Ok (Continue st)
  | suggestion :: rest =>
      f ← iteration toLowerCase now text i suggestion st;
      match f with
      | Continue st' => loop_flow toLowerCase now text (S i) rest st'
      | Break st' => Ok (Break st')
      end
  end.

(** The entries that the checks and the repairs read. *)
Definition read_keys : list jsstring := k_severity :: requiredFields.

(** Two suggestions that agree on every entry but [id]. *)
Definition same_up_to_id (a b : gmap jsstring value) : Prop :=
  ∀ k, k ≠ k_id → a !! k = b !! k.

(** Two runs that end the same way, with related results. *)
Definition outcome_rel {A B} (R : A → B → Prop) (m1 : outcome A) (m2 : outcome B)
    : Prop :=
  match m1, m2 with
  | Ok a, Ok b => R a b
  | Throws, Throws | Hangs, Hangs => True
  | _, _ => False
  end.

Definition state_rel (st1 st2 : state) : Prop :=
  Forall2 same_up_to_id (processedSuggestions st1) (processedSuggestions st2)
  ∧ takenRanges st1 = takenRanges st2.

Definition flow_rel (f1 f2 : flow) : Prop :=
  match f1, f2 with
  | Continue st1, Continue st2 | Break st1, Break st2 => state_rel st1 st2
  | _, _ => False
  end.

(** ** The endpoint: client, origin, validation, admission and the handler *)

Module Endpoint.

Definition k_text : jsstring := Eval cbv in lit "text".
Definition k_version : jsstring := Eval cbv in lit "version".
Definition k_result : jsstring := Eval cbv in lit "result".
Definition k_x_forwarded_for : jsstring := Eval cbv in lit "x-forwarded-for".
Definition unknown : jsstring := Eval cbv in lit "unknown".
Definition version_1_0 : jsstring := Eval cbv in lit "1.0".

(** [CONFIG.MAX_TEXT_LENGTH] and [CONFIG.ALLOWED_ORIGINS]. *)
Definition MAX_TEXT_LENGTH : Z := 12000.

Definition ALLOWED_ORIGINS : list jsstring :=
  Eval cbv in [lit "chrome-extension://"; lit "moz-extension://";
               lit "localhost"; lit "127.0.0.1"].

(** What the handler reads of a request.  The header values are
    strings, as the host delivers the headers read here; [connection] is
    [None] where the request has no [connection] object, and holds the
    [remoteAddress], which can be [undefined]. *)
Record req := Req {
  method : jsstring;
  headers : gmap jsstring jsstring;
  connection : option (option jsstring);
  body : option value
}.

(** [forwarded.split(',')[0]]: the units before the first comma. *)
Fixpoint before_comma (s : jsstring) : jsstring :=
  match s with
  | [] => []
  | c :: s' => if (c =? comma)%N then [] else c :: before_comma s'
  end.

(** [getClientId(req)]; reading [remoteAddress] of a missing
    [connection] throws. *)
Definition getClientId (r : req) : outcome jsstring :=
  ip ← match headers r !! k_x_forwarded_for with
       | Some ((_ :: _) as forwarded) => Ok (Some (before_comma forwarded))
       | _ =>
           match connection r with
           | Some remoteAddress => Ok remoteAddress
           | None => Throws
           end
       end;
  Ok (match ip with
      | Some ((_ :: _) as s) => s
      | _ => unknown
      end).

(** [String.prototype.endsWith], [startsWith] and [includes]. *)
Definition endsWith (s suffix : jsstring) : bool :=
  starts_with (reverse suffix) (reverse s).

Definition startsWith (s prefix : jsstring) : bool := starts_with prefix s.

Definition String_includes (s n : jsstring) : bool :=
  negb (indexOf s n 0 =? -1).

Definition scheme_end : jsstring := Eval cbv in lit "://".

(** [isAllowedOrigin(origin)] on a string. *)
Definition isAllowedOrigin (origin : jsstring) : bool :=
  match origin with
  | [] => true
  | _ =>
      existsb (λ allowed,
                 if endsWith allowed scheme_end then startsWith origin allowed
                 else String_includes origin allowed) ALLOWED_ORIGINS
  end.

(** The object returned by [validateRequest]. *)
Inductive validation :=
| Valid
| Invalid (error : jsstring).

Definition text_required : jsstring :=
  Eval cbv in lit "Text field is required and must be a string".

Definition text_empty : jsstring := Eval cbv in lit "Text cannot be empty".

Definition text_too_long : jsstring :=
  lit "Text too long. Maximum " ++ numberToString MAX_TEXT_LENGTH
    ++ lit " characters allowed".

(** [validateRequest(data)].  [data.text] is read of a truthy [data];
    the test [!data.text || typeof data.text !== 'string'] lets through
    non-empty strings only. *)
Definition validateRequest (data : option value) : validation :=
  if negb (truthy data) then Invalid (lit "Request body is required")
  else
    let text := Gateway.access_opt (λ v, Gateway.member v k_text) data in
    match text with
    | Some (JStr t) =>
        if negb (truthy text) then Invalid text_required
        else if len t =? 0 then Invalid text_empty
        else if len t >? MAX_TEXT_LENGTH then Invalid text_too_long
        else
          let version :=
            Gateway.access_opt (λ v, Gateway.member v k_version) data in
          if truthy version && negb (same_string version_1_0 version)
          then Invalid (lit "Unsupported API version")
          else Valid
    | _ => Invalid text_required
    end.

(** The request sent to the Upstash pipeline: its URL, the bearer
    token, and the key and the expiry of the two commands [INCR key] and
    [EXPIRE key ttl NX]. *)
Record kv_request := KvRequest {
  kv_url : jsstring;
  kv_token : jsstring;
  kv_key : jsstring;
  kv_ttl : Z
}.

Definition slash : jsstring := Eval cbv in lit "/".

(** [url.replace(/\/$/, '')]. *)
Definition strip_slash (url : jsstring) : jsstring :=
  if endsWith url slash then take (length url - 1) url else url.

(** [Math.ceil(CONFIG.RATE_LIMIT.windowMs / 1000)]. *)
Definition ttlSec : Z := - ((- Limiter.windowMs Limiter.RATE_LIMIT) / 1000).

(** The environment the configuration is read from; a variable that is
    not set is [None]. *)
Record config := Config {
  OPENAI_API_KEY : option jsstring;
  KV_REST_API_URL : option jsstring;
  KV_REST_API_TOKEN : option jsstring
}.

Definition OPENAI_MODEL : jsstring := Eval cbv in lit "gpt-4o-mini".

(** The body of a response: [{ ok: true }], an error with its message,
    or the result of a check with its [meta] object. *)
Record meta := Meta {
  llmCalled : bool;
  skippedReason : option jsstring;
  modelUsed : jsstring;
  textLength : Z;
  suggestionsCount : Z
}.

Inductive payload :=
| Preflight
| Failure (error message : jsstring)
| Checked (version textFingerprint : jsstring)
    (suggestions : list (gmap jsstring value)) (m : meta).

Record response := Reply { status : Z; json : payload }.

Definition api_error : jsstring := Eval cbv in lit "api_error".

Definition method_not_allowed : response :=
  Reply 405 (Failure (lit "Method not allowed") (lit "Only POST method is supported")).

Definition not_configured : response :=
  Reply 500 (Failure (lit "Service configuration error")
               (lit "API key not configured")).

Definition rate_limited : response :=
  Reply 429 (Failure (lit "Rate limit exceeded")
               (lit "Terlalu banyak permintaan. Silakan coba lagi nanti.")).

Definition internal_error : response :=
  Reply 500 (Failure (lit "Internal server error")
               (lit "Terjadi kesalahan saat memproses permintaan")).

Section Server.

Variable toLowerCase : jsstring → jsstring.
Variable now : nat → Z.
Variable JSON_parse : jsstring → option value.

(** The conversion of a string to a number; [None] is [NaN] or an
    infinity.  A number read off a string need not be integral. *)
Variable StringToNumber : jsstring → option Q.

(** The first sixty-four hexadecimal digits of SHA-256. *)
Variable sha256_hex : jsstring → jsstring.

(** The network, with the model and the Upstash service behind it. *)
Variable W : Type.
Variable fetch : Gateway.request → W → Gateway.fetched * W.
Variable fetch_kv : kv_request → W → Gateway.fetched * W.

(** [createTextFingerprint(text)]. *)
Definition createTextFingerprint (text : jsstring) : jsstring :=
  take 16 (sha256_hex text).

(** [Number(v)]; the outer [None] is a TypeError, the inner one a
    result that is not finite.  An array or an object is converted to a
    string first. *)
Definition Number_ (v : value) : option (option Q) :=
  match v with
  | JNull => Some (Some 0%Q)
  | JBool b => Some (Some (if b then 1%Q else 0%Q))
  | JNum n => Some (Some (inject_Z n))
  | JStr s => Some (StringToNumber s)
  | JArr _ | JObj _ => s ← ToString v; Some (StringToNumber s)
  end.

(** [checkRateLimitUpstash(clientId)]; [None] when it throws. *)
Definition checkRateLimitUpstash (url token clientId : jsstring)
    (w : Gateway.world W) : option bool * Gateway.world W :=
  let rq := KvRequest (strip_slash url ++ lit "/pipeline") token
              (lit "periksakata:rl:" ++ clientId) ttlSec in
  let '(r, n) := fetch_kv rq (Gateway.net w) in
  let w := Gateway.World n (Gateway.sent w) in
  match r with
  | Gateway.Response true _ (Some results) =>
      let result :=
        Gateway.access_opt (λ v, Gateway.member v k_result)
          (Gateway.access_opt Gateway.first (Some results)) in
      let counted :=
        match result with
        | None | Some JNull => JNum 0
        | Some v => v
        end in
      (match Number_ counted with
       | Some (Some incr) =>
           Some (Qle_bool incr (inject_Z (Limiter.maxRequests Limiter.RATE_LIMIT)))
       | _ => None
       end, w)
  | _ => (None, w)
  end.

(** [checkRateLimit(clientId)]: Upstash when both of its variables are
    set, the in-memory limiter otherwise and when Upstash throws.  [t]
    is the reading of the clock in the in-memory limiter. *)
Definition checkRateLimit (cfg : config) (clientId : jsstring) (t : Z)
    (rateLimitStore : gmap jsstring (list Z)) (w : Gateway.world W)
    : bool * gmap jsstring (list Z) * Gateway.world W :=
  match KV_REST_API_URL cfg, KV_REST_API_TOKEN cfg with
  | Some ((_ :: _) as url), Some ((_ :: _) as token) =>
      match checkRateLimitUpstash url token clientId w with
      | (Some allowed, w') => (allowed, rateLimitStore, w')
      | (None, w') =>
          let '(allowed, store') :=
            Limiter.checkRateLimitInMemory rateLimitStore clientId t in
          (allowed, store', w')
      end
  | _, _ =>
      let '(allowed, store') :=
        Limiter.checkRateLimitInMemory rateLimitStore clientId t in
      (allowed, store', w)
  end.

(** [handler(req, res)]: the response sent, next to the store and the
    world afterwards.  What is thrown inside the outer [try] is answered
    with status 500; the result of [isAllowedOrigin] is logged and has no
    part in the response. *)
Definition handler (cfg : config) (t : Z) (r : req)
    (rateLimitStore : gmap jsstring (list Z)) (w : Gateway.world W)
    : outcome response * (gmap jsstring (list Z) * Gateway.world W) :=
  if bool_decide (method r = lit "OPTIONS")
  then (Ok (Reply 200 Preflight), (rateLimitStore, w))
  else if negb (bool_decide (method r = lit "POST"))
  then (Ok method_not_allowed, (rateLimitStore, w))
  else
    match OPENAI_API_KEY cfg with
    | Some (_ :: _) =>
        match getClientId r with
        | Ok clientId =>
            let '(allowed, store, w) :=
              checkRateLimit cfg clientId t rateLimitStore w in
            if negb allowed then (Ok rate_limited, (store, w))
            else
              match validateRequest (body r) with
              | Invalid error =>
                  (Ok (Reply 400 (Failure (lit "Invalid request") error)),
                   (store, w))
              | Valid =>
                  match Gateway.access_opt (λ v, Gateway.member v k_text)
                          (body r) with
                  | Some (JStr text) =>
                      let textFingerprint := createTextFingerprint text in
                      let '(checked, w) :=
                        Gateway.checkTextWithOpenAI toLowerCase now JSON_parse
                          W fetch text w in
                      match checked with
                      | Ok suggestions =>
                          (Ok (Reply 200
                                 (Checked version_1_0 textFingerprint suggestions
                                    (Meta true None OPENAI_MODEL (len text)
                                       (len_list suggestions)))),
                           (store, w))
                      | Throws =>
                          (Ok (Reply 200
                                 (Checked version_1_0 textFingerprint []
                                    (Meta false (Some api_error) OPENAI_MODEL
                                       (len text) 0))),
                           (store, w))
                      | Hangs => (Hangs, (store, w))
                      end
                  | _ => (Ok internal_error, (store, w))
                  end
              end
        | _ => (Ok internal_error, (rateLimitStore, w))
        end
    | _ => (Ok not_configured, (rateLimitStore, w))
    end.

End Server.

End Endpoint.

(** The requests the handler is run on below: a POST with a text and a
    forwarded address, and the configuration with a key and no Upstash. *)
Definition req_sya : Endpoint.req :=
  Endpoint.Req (lit "POST")
    {[ Endpoint.k_x_forwarded_for := lit "203.0.113.7, 10.0.0.1" ]}
    None
    (Some (JObj {[ Endpoint.k_text := JStr text_sya ]})).

Definition cfg_key : Endpoint.config :=
  Endpoint.Config (Some (lit "sk-test")) None None.

Definition no_digest (s : jsstring) : jsstring := [].

Definition no_number (s : jsstring) : option Q := None.

Definition fetch_none (rq : Endpoint.kv_request) (n : nat)
    : Gateway.fetched * nat :=
  (Gateway.NetworkError, n).

(** A configuration with Upstash, and an Upstash that counts the
    requests it gets. *)
Definition cfg_kv : Endpoint.config :=
  Endpoint.Config (Some (lit "sk-test")) (Some (lit "https://kv.example/"))
    (Some (lit "token")).

Definition fetch_counter (rq : Endpoint.kv_request) (n : nat)
    : Gateway.fetched * nat :=
  (Gateway.Response true 200
     (Some (JArr [JObj {[ Endpoint.k_result := JNum (Z.of_nat (S n)) ]};
                  JObj {[ Endpoint.k_result := JNum 1 ]}])),
   S n).

(** A request with a body that has no [text]. *)
Definition req_no_text : Endpoint.req :=
  Endpoint.Req (lit "POST")
    {[ Endpoint.k_x_forwarded_for := lit "203.0.113.7, 10.0.0.1" ]}
    None
    (Some (JObj ∅)).

(** The JSON text of an answer with the candidate for [sya], and a
    model that wraps it in prose.  The parser is [JSON.parse] as far as
    that text and the prose around it go. *)
Definition quoted (s : string) : jsstring := [34%N] ++ lit s ++ [34%N].

Definition json_sya : jsstring :=
  lit "{" ++ quoted "suggestions" ++ lit ":[{"
    ++ quoted "start" ++ lit ":0," ++ quoted "end" ++ lit ":3,"
    ++ quoted "category" ++ lit ":" ++ quoted "typo" ++ lit ","
    ++ quoted "message" ++ lit ":" ++ quoted "Kata 'sya' seharusnya 'saya'"
    ++ lit ","
    ++ quoted "before" ++ lit ":" ++ quoted "sya" ++ lit ","
    ++ quoted "after" ++ lit ":" ++ quoted "saya" ++ lit "}]}".

Definition wrapped_sya : jsstring :=
  lit "Berikut hasilnya: " ++ json_sya ++ lit " Semoga membantu.".

Definition parse_sya (s : jsstring) : option value :=
  if bool_decide (s = json_sya)
  then Some (JObj {[ Gateway.k_suggestions := JArr [JObj cand_sya] ]})
  else None.

Definition fetch_wrapped (rq : Gateway.request) (n : nat) : Gateway.fetched * nat :=
  (Gateway.Response true 200 (Some (reply wrapped_sya)), S n).

(** ** Vocabulary of the further properties *)

(** A tidy string: no unit of the control class, no white space other
    than single U+0020 units, and none right after white space;
    [after_space] tells whether white space comes just before, and it is
    set at the start of a string that must not begin with white space. *)
Fixpoint tidy (after_space : bool) (s : jsstring) : bool :=
  match s with
  | [] => true
  | c :: s' =>
      negb (is_control c)
      && (if is_space c
          then (c =? space)%N && negb after_space && tidy true s'
          else tidy false s')
  end.

(** The string does not end with white space. *)
Definition ends_tidy (s : jsstring) : bool :=
  match last s with
  | Some c => negb (is_space c)
  | None => true
  end.

(** A value that is a tidy string of at most [n] units. *)
Definition tidy_string (n : Z) (v : option value) : Prop :=
  ∃ s, v = Some (JStr s) ∧ tidy true s = true ∧ len s ≤ n.

(** Opening units minus closing units. *)
Fixpoint depth_of {A} (is_open is_close : A → bool) (l : list A) : Z :=
  match l with
  | [] => 0
  | ch :: l' =>
      (if is_open ch then 1 else if is_close ch then -1 else 0)
      + depth_of is_open is_close l'
  end.

Definition brace_depth (s : jsstring) : Z :=
  depth_of (N.eqb Gateway.open_brace) (N.eqb Gateway.close_brace) s.

(** A block of braces closed for the first time at its last unit: it
    starts with an opening brace, its braces balance, and they do not
    balance in any shorter non-empty prefix. *)
Definition first_closed_block (b : jsstring) : Prop :=
  (∃ rest, b = Gateway.open_brace :: rest)
  ∧ brace_depth b = 0
  ∧ ∀ m, (0 < m < length b)%nat → 0 < brace_depth (take m b).

(** A lower-casing that works unit by unit: the letters [A] to [Z]. *)
Definition lower_ascii_unit (c : N) : N :=
  (if (65 <=? c) && (c <=? 90) then c + 32 else c)%N.

(** What happens to the store of the limiter over time: calls for a
    client and runs of the sweep, each at its reading of the clock. *)
Inductive event :=
| Call (clientId : jsstring) (now : Z)
| Sweep (now : Z).

Definition at_time (e : event) : Z :=
  match e with Call _ now | Sweep now => now end.

(** The events in order, from a given store: the calls that were
    allowed, and the store at the end. *)
Fixpoint run (store : gmap jsstring (list Z)) (events : list event)
    : list (jsstring * Z) * gmap jsstring (list Z) :=
  match events with
  | [] => ([], store)
  | Call clientId now :: rest =>
      let '(ok, store') := Limiter.checkRateLimitInMemory store clientId now in
      let '(allowed, store'') := run store' rest in
      ((if ok then [(clientId, now)] else []) ++ allowed, store'')
  | Sweep now :: rest => run (Limiter.sweep store now) rest
  end.

(** The times of the allowed calls of one client. *)
Definition times_of (clientId : jsstring) (allowed : list (jsstring * Z)) : list Z :=
  (filter (λ p, p.1 = clientId) allowed).*2.

(** The events that concern a client: its own calls and the sweeps. *)
Definition concerns (clientId : jsstring) (e : event) : bool :=
  match e with
  | Call c _ => bool_decide (c = clientId)
  | Sweep _ => true
  end.

Definition is_call (e : event) : bool :=
  match e with Call _ _ => true | Sweep _ => false end.

(** The clock does not go back from one event to the next. *)
Definition clock_monotone (events : list event) : Prop :=
  ∀ i j a b, (i ≤ j)%nat → events !! i = Some a → events !! j = Some b →
    at_time a ≤ at_time b.

(** The timestamps that lie in the window of 60000 ms ending at [t]. *)
Definition in_window (t : Z) (times : list Z) : list Z :=
  filter (λ x, t - 60000 < x ∧ x ≤ t) times.

(** ** Properties of the primitives *)

Ltac unbind := unfold mbind, outcome_bind, mret, outcome_ret in *.

Lemma len_nonneg (s : jsstring) : 0 ≤ len s.
Proof. unfold len. lia. Qed.

Lemma slice_in_range (s : jsstring) (a b : Z) :
  0 ≤ a → a ≤ b → b ≤ len s →
  slice s a b = take (Z.to_nat (b - a)) (drop (Z.to_nat a) s).
Proof.
  intros Ha Hab Hb. unfold slice, rel_index.
  destruct (Z.ltb_spec a 0); [lia|]. destruct (Z.ltb_spec b 0); [lia|].
  rewrite !Z.min_l by lia. reflexivity.
Qed.

Lemma starts_with_spec (n h : jsstring) :
  starts_with n h = true ↔ take (length n) h = n.
Proof.
  revert h. induction n as [|x n IH]; intros h; simpl.
  - by rewrite take_0.
  - destruct h as [|y h]; simpl; [split; discriminate|].
    rewrite andb_true_iff, bool_decide_eq_true, IH. split.
    + by intros [-> ->].
    + intros [= -> ->]. done.
Qed.

Lemma index_from_None (h n : jsstring) (k : nat) :
  index_from h n k = None → ∀ d, starts_with n (drop d h) = false.
Proof.
  revert k. induction h as [|y h IH]; intros k; simpl.
  - destruct (starts_with n []) eqn:E; [discriminate|].
    intros _ d. by rewrite drop_nil.
  - destruct (starts_with n (y :: h)) eqn:E; [discriminate|].
    intros H [|d]; [done|]. simpl. by eapply IH.
Qed.

Lemma index_from_Some (h n : jsstring) (k j : nat) :
  index_from h n k = Some j →
  (k ≤ j)%nat ∧ starts_with n (drop (j - k) h) = true
  ∧ ∀ d, (d < j - k)%nat → starts_with n (drop d h) = false.
Proof.
  revert k. induction h as [|y h IH]; intros k; simpl.
  - destruct (starts_with n []) eqn:E; [|discriminate].
    intros [= <-]. rewrite Nat.sub_diag. split_and!; [lia|done|lia].
  - destruct (starts_with n (y :: h)) eqn:E.
    + intros [= <-]. rewrite Nat.sub_diag. split_and!; [lia|done|lia].
    + intros H. destruct (IH _ H) as (Hk & Hs & Hmin).
      replace (j - k)%nat with (S (j - S k)) by lia.
      split_and!; [lia|done|].
      intros [|d] Hd; [done|]. simpl. apply Hmin. lia.
Qed.

Lemma starts_at_bound (h n : jsstring) (i : Z) :
  n ≠ [] → starts_at h n i → i + len n ≤ len h.
Proof.
  intros Hn [Hi Hs]. apply starts_with_spec in Hs.
  assert (length n ≤ length (drop (Z.to_nat i) h))%nat as Hl.
  { rewrite <- Hs at 1. rewrite length_take. lia. }
  rewrite length_drop in Hl. unfold len.
  destruct n; [done|]. simpl in *. lia.
Qed.

Lemma starts_at_occurs (h n : jsstring) (i : Z) :
  n ≠ [] → starts_at h n i ↔ occurs_at h n i.
Proof.
  intros Hn. split.
  - intros H. pose proof (starts_at_bound _ _ _ Hn H) as Hb.
    destruct H as [Hi Hs]. split_and!; [done..|].
    pose proof (len_nonneg n).
    rewrite slice_in_range by lia.
    replace (Z.to_nat (i + len n - i)) with (length n) by (unfold len; lia).
    by apply starts_with_spec.
  - intros (Hi & Hb & Hs). split; [done|].
    pose proof (len_nonneg n).
    rewrite slice_in_range in Hs by lia.
    replace (Z.to_nat (i + len n - i)) with (length n) in Hs by (unfold len; lia).
    by apply starts_with_spec.
Qed.

Lemma indexOf_miss (h n : jsstring) (pos : Z) :
  indexOf h n pos = -1 → ∀ i, pos ≤ i → ¬ starts_at h n i.
Proof.
  unfold indexOf.
  destruct (index_from _ n _) as [k|] eqn:E; [lia|].
  intros _ i Hi [Hi0 Hs].
  pose proof (index_from_None _ _ _ E) as Hnone.
  set (start := Z.to_nat (Z.min (Z.max pos 0) (len h))) in *.
  destruct (decide (Z.to_nat i < start)%nat) as [Hlt|Hge].
  - unfold len in *. lia.
  - specialize (Hnone (Z.to_nat i - start)%nat).
    rewrite drop_drop in Hnone.
    replace (start + (Z.to_nat i - start))%nat with (Z.to_nat i) in Hnone by lia.
    congruence.
Qed.

Lemma indexOf_hit (h n : jsstring) (pos i : Z) :
  indexOf h n pos = i → i ≠ -1 →
  Z.min (Z.max pos 0) (len h) ≤ i ∧ starts_at h n i
  ∧ ∀ j, pos ≤ j → j < i → ¬ starts_at h n j.
Proof.
  unfold indexOf.
  set (start := Z.to_nat (Z.min (Z.max pos 0) (len h))).
  destruct (index_from _ n _) as [k|] eqn:E; [|lia].
  intros <- _. destruct (index_from_Some _ _ _ _ E) as (Hk & Hs & Hmin).
  rewrite drop_drop in Hs.
  replace (start + (k - start))%nat with k in Hs by lia.
  split_and!.
  - unfold len in *. lia.
  - split; [lia|]. by rewrite Nat2Z.id.
  - intros j Hj Hjk [Hj0 Hsj].
    specialize (Hmin (Z.to_nat j - start)%nat).
    rewrite drop_drop in Hmin.
    destruct (decide (start ≤ Z.to_nat j)%nat) as [Hle|Hgt].
    + replace (start + (Z.to_nat j - start))%nat with (Z.to_nat j) in Hmin by lia.
      rewrite Hmin in Hsj by lia. done.
    + unfold len in *. lia.
Qed.

(** On the empty needle the collecting loop never exits: [indexOf]
    always answers, and the next search starts one further or at the end
    of the haystack again. *)
Lemma collect_empty_needle (fuel : nat) (h : jsstring) (from : Z) (occ : list Z) :
  collect fuel h [] from occ = None.
Proof.
  revert from occ. induction fuel as [|fuel IH]; intros from occ; simpl; [done|].
  assert (indexOf h [] from ≠ -1) as Hne.
  { unfold indexOf. destruct (drop _ h); simpl; lia. }
  destruct (Z.eqb_spec (indexOf h [] from) (-1)); [done|]. apply IH.
Qed.

Lemma collect_spec (fuel : nat) (h n : jsstring) (from : Z) (acc occs : list Z) :
  n ≠ [] → 0 ≤ from →
  collect fuel h n from acc = Some occs →
  ∃ new, occs = acc ++ new ∧ StronglySorted Z.lt new
         ∧ ∀ i, i ∈ new ↔ from ≤ i ∧ starts_at h n i.
Proof.
  intros Hn. revert from acc.
  induction fuel as [|fuel IH]; intros from acc Hfrom; simpl; [done|].
  destruct (Z.eqb_spec (indexOf h n from) (-1)) as [Hmiss|Hhit].
  - intros [= <-]. exists []. rewrite app_nil_r. split_and!; [done|constructor|].
    intros i. rewrite elem_of_nil. split; [done|].
    intros [Hi Hs]. by eapply indexOf_miss.
  - intros Hc.
    destruct (indexOf_hit _ _ _ _ eq_refl Hhit) as (Hlo & Hs & Hmin).
    pose proof (starts_at_bound _ _ _ Hn Hs) as Hb.
    assert (0 < len n) as Hlen by (destruct n; [done|unfold len; simpl; lia]).
    assert (from ≤ indexOf h n from) as Hle by lia.
    destruct (IH (indexOf h n from + 1) (acc ++ [indexOf h n from]))
      as (new & -> & Hsorted & Hmem); [lia|done|].
    exists (indexOf h n from :: new). rewrite <- app_assoc. split_and!; [done| |].
    + constructor; [done|]. apply Forall_forall. intros x Hx.
      apply Hmem in Hx. lia.
    + intros i. rewrite elem_of_cons, Hmem. split.
      * intros [->|[? ?]]; split; (done || lia).
      * intros [Hi Hsi].
        destruct (decide (i = indexOf h n from)) as [->|Hne]; [by left|right].
        split; [|done].
        destruct (decide (i < indexOf h n from)); [|lia].
        exfalso. by eapply (Hmin i).
Qed.

Lemma collect_enough (fuel : nat) (h n : jsstring) (from : Z) (acc : list Z) :
  n ≠ [] → 0 ≤ from → (Z.to_nat (len h - from) < fuel)%nat →
  is_Some (collect fuel h n from acc).
Proof.
  intros Hn. revert from acc.
  induction fuel as [|fuel IH]; intros from acc Hfrom Hfuel; simpl; [lia|].
  destruct (Z.eqb_spec (indexOf h n from) (-1)) as [Hmiss|Hhit]; [done|].
  destruct (indexOf_hit _ _ _ _ eq_refl Hhit) as (Hlo & Hs & Hmin).
  pose proof (starts_at_bound _ _ _ Hn Hs) as Hb.
  assert (0 < len n) as Hlen by (destruct n; [done|unfold len; simpl; lia]).
  apply IH; lia.
Qed.

Lemma closest_spec (occs : list Z) (a best : Z) :
  StronglySorted Z.lt (best :: occs) →
  let r := closest occs a best (Z.abs (best - a)) in
  r ∈ best :: occs
  ∧ ∀ x, x ∈ best :: occs →
      Z.abs (r - a) ≤ Z.abs (x - a) ∧ (Z.abs (x - a) = Z.abs (r - a) → r ≤ x).
Proof.
  revert best. induction occs as [|o rest IH]; intros best Hsorted; simpl.
  - split; [by left|]. intros x ->%list_elem_of_singleton. lia.
  - apply StronglySorted_inv in Hsorted as [Hrest Hbest].
    apply Forall_cons in Hbest as [Hbo Hbrest].
    destruct (Z.ltb_spec (Z.abs (o - a)) (Z.abs (best - a))) as [Hlt|Hge].
    + destruct (IH o Hrest) as [Hin Hmin]. split; [by right|].
      intros x [->|Hx]%elem_of_cons; [|by apply Hmin].
      destruct (Hmin o) as [Hle _]; [by left|]. lia.
    + assert (StronglySorted Z.lt (best :: rest)) as Hs'.
      { constructor; [by apply StronglySorted_inv in Hrest as [? ?]|done]. }
      destruct (IH best Hs') as [Hin Hmin]. split.
      { apply elem_of_cons in Hin as [->|?]; [by left|by right; right]. }
      intros x [->|[->|Hx]%elem_of_cons]%elem_of_cons.
      * apply Hmin. by left.
      * destruct (Hmin best) as [Hle Htie]; [by left|]. split; [lia|].
        intros Heq. apply elem_of_cons in Hin as [->|Hin]; [lia|].
        assert (best < closest rest a best (Z.abs (best - a))).
        { by eapply Forall_forall in Hbrest. }
        lia.
      * apply Hmin. by right.
Qed.

(** The search for a non-empty string returns: [-1] when the string
    occurs nowhere, and otherwise the occurrence nearest to the
    approximate index, the lowest one on a tie. *)
Lemma nearest_of_spec (h n : jsstring) (a : Z) :
  n ≠ [] →
  ∃ r, nearest_of h n (Some a) = Ok r
       ∧ ((r = -1 ∧ ∀ i, ¬ starts_at h n i)
          ∨ nearest_to (starts_at h n) a r).
Proof.
  intros Hn. unfold nearest_of.
  destruct (collect_enough (length h + 2) h n 0 [] Hn) as [occs Hc];
    [lia|unfold len; lia|].
  rewrite Hc.
  destruct (collect_spec _ _ _ _ _ _ Hn (Z.le_refl 0) Hc)
    as (new & -> & Hsorted & Hmem).
  simpl. destruct new as [|o rest].
  - eexists; split; [done|]. left. split; [done|].
    intros i Hi. apply (elem_of_nil i), Hmem. by destruct Hi.
  - eexists; split; [done|]. right.
    destruct (closest_spec rest a o Hsorted) as [Hin Hmin].
    split; [by apply Hmem|].
    intros j Hj. apply Hmin, Hmem. by destruct Hj.
Qed.

Lemma nearest_to_not_minus_one (h n : jsstring) (a r : Z) :
  nearest_to (starts_at h n) a r → r ≠ -1.
Proof. intros [[? ?] _]. lia. Qed.

Lemma findNearestIndex_string (h b : jsstring) (a : option Z) :
  b ≠ [] → findNearestIndex h (Some (JStr b)) a = nearest_of h b a.
Proof.
  intros Hb. unfold findNearestIndex. destruct b as [|c b]; [done|].
  reflexivity.
Qed.

Lemma findNearestIndex_empty (h : jsstring) (a : option Z) :
  findNearestIndex h (Some (JStr [])) a = Ok (-1).
Proof. reflexivity. Qed.

Lemma nearest_to_ext (P Q : Z → Prop) (a i : Z) :
  (∀ j, P j ↔ Q j) → nearest_to P a i → nearest_to Q a i.
Proof.
  intros HPQ [Hi Hmin]. split; [by apply HPQ|].
  intros j Hj. by apply Hmin, HPQ.
Qed.

(** A nearest index is unique. *)
Lemma nearest_to_unique (P : Z → Prop) (a i j : Z) :
  nearest_to P a i → nearest_to P a j → i = j.
Proof.
  intros [Hi Hmi] [Hj Hmj].
  destruct (Hmi j Hj) as [H1 T1]. destruct (Hmj i Hi) as [H2 T2]. lia.
Qed.

(** ** Properties of the loop body *)

Section EngineFacts.

Variable toLowerCase : jsstring → jsstring.
Variable now : nat → Z.

Lemma locate_slice (text : jsstring) (o : gmap jsstring value)
    (start end_ s e : Z) (a : jsstring) :
  locate toLowerCase text o start end_ = Ok (Some (s, e, a)) →
  a = slice text s e.
Proof.
  unfold locate. destruct (same_string _ _); [by intros [= <- <- <-]|].
  unbind.
  destruct (findNearestIndex _ _ _) as [idx| |]; [|done..].
  destruct (idx =? -1); simpl.
  - destruct (findNearestIndexCI _ _ _ _) as [idx'| |]; [|done..].
    destruct (idx' =? -1); simpl; [done|].
    destruct (String_or_empty _); [|done..]. by intros [= <- <- <-].
  - destruct (String_or_empty _); [|done..]. by intros [= <- <- <-].
Qed.

Lemma spread_entries (o : gmap jsstring value) (vs ve vb va vm : value) :
  let fixed :=
    <[k_message := vm]>
      (<[k_after := va]>
         (<[k_before := vb]> (<[k_end := ve]> (<[k_start := vs]> o)))) in
  fixed !! k_start = Some vs ∧ fixed !! k_end = Some ve
  ∧ fixed !! k_before = Some vb ∧ fixed !! k_after = Some va
  ∧ fixed !! k_message = Some vm ∧ fixed !! k_id = o !! k_id
  ∧ ∀ k, k ∉ computed_keys → fixed !! k = o !! k.
Proof.
  intros fixed. unfold fixed. split_and!.
  - rewrite !lookup_insert_ne by done. by rewrite lookup_insert_eq.
  - rewrite !lookup_insert_ne by done. by rewrite lookup_insert_eq.
  - rewrite !lookup_insert_ne by done. by rewrite lookup_insert_eq.
  - rewrite !lookup_insert_ne by done. by rewrite lookup_insert_eq.
  - by rewrite lookup_insert_eq.
  - by rewrite !lookup_insert_ne by done.
  - intros k Hk. unfold computed_keys in Hk.
    rewrite !not_elem_of_cons in Hk. destruct Hk as (?&?&?&?&?&?&_).
    by rewrite !lookup_insert_ne.
Qed.

Lemma fix_suggestion_entries (i : nat) (o fixed : gmap jsstring value)
    (start end_ : Z) (actualText : jsstring) :
  fix_suggestion now i o start end_ actualText = Ok fixed →
  fixed !! k_start = Some (JNum start)
  ∧ fixed !! k_end = Some (JNum end_)
  ∧ fixed !! k_before = Some (JStr actualText)
  ∧ (∀ k, k ∉ computed_keys → fixed !! k = o !! k)
  ∧ (truthy (o !! k_id) = true → fixed !! k_id = o !! k_id).
Proof.
  unfold fix_suggestion. unbind.
  destruct (match o !! k_message with Some v => String_ v | None => _ end)
    as [msg| |]; [|done..].
  destruct (match o !! k_after with Some (JStr a) => _ | _ => _ end)
    as [af| |]; [|done..].
  destruct (spread_entries o (JNum start) (JNum end_) (JStr actualText)
              (JStr (sanitizeString af 100)) (JStr (sanitizeString msg 200)))
    as (Hs & He & Hb & _ & _ & Hid & Hframe).
  rewrite Hid.
  destruct (truthy (o !! k_id)) eqn:Ht; intros [= <-].
  - by rewrite Hid.
  - split_and!; [by rewrite lookup_insert_ne..| |done].
    intros k Hk. rewrite lookup_insert_ne; [by apply Hframe|].
    unfold computed_keys in Hk. rewrite !not_elem_of_cons in Hk.
    by destruct Hk as (_ & _ & _ & _ & _ & ? & _).
Qed.

Lemma resolve_Some (text : jsstring) (suggestion : value)
    (o : gmap jsstring value) (s e : Z) (a : jsstring) :
  resolve toLowerCase text suggestion = Ok (Some (o, s, e, a)) →
  suggestion = JObj o
  ∧ ∃ start end_, clamp text o = Ok (start, end_)
      ∧ locate toLowerCase text o start end_ = Ok (Some (s, e, a)).
Proof.
  unfold resolve. destruct (basicSuggestionShapeValid suggestion); simpl; [|done].
  destruct suggestion as [| | | | |o']; try done.
  destruct (includes categories _); simpl; [|done].
  destruct (truthy _ && _); [done|]. unbind.
  destruct (clamp text o') as [[start end_]| |] eqn:Hc; [|done..].
  destruct (locate _ _ _ _ _) as [[[[s' e'] a']|]| |] eqn:Hl; try done.
  intros Heq. injection Heq as <- <- <- <-. split; [done|]. by exists start, end_.
Qed.

Lemma resolve_passes (text : jsstring) (o : gmap jsstring value) :
  passes_checks o = true →
  resolve toLowerCase text (JObj o)
  = '(start, end_) ← clamp text o;
    found ← locate toLowerCase text o start end_;
    match found with
    | None => Ok None
    | Some (s, e, a) => Ok (Some (o, s, e, a))
    end.
Proof.
  unfold passes_checks. intros [[Hshape Hcat]%andb_true_iff Hsev]%andb_true_iff.
  unfold resolve. rewrite Hshape, Hcat. cbn [negb].
  apply negb_true_iff in Hsev. by rewrite Hsev.
Qed.

(** What a pass through the body does to the state: nothing, or one
    suggestion and its range appended, the loop stopping when that makes
    twenty. *)
Lemma iteration_cases (text : jsstring) (i : nat) (suggestion : value)
    (st : state) (f : flow) :
  iteration toLowerCase now text i suggestion st = Ok f →
  f = Continue st
  ∨ ∃ o s e a fixed,
      resolve toLowerCase text suggestion = Ok (Some (o, s, e, a))
      ∧ overlaps (takenRanges st) s e = false
      ∧ fix_suggestion now i o s e a = Ok fixed
      ∧ state_of f = State (processedSuggestions st ++ [fixed])
                           (takenRanges st ++ [(s, e)])
      ∧ f = if 20 <=? len_list (processedSuggestions st ++ [fixed])
            then Break (state_of f) else Continue (state_of f).
Proof.
  unfold iteration. unbind.
  destruct (resolve _ _ _) as [[[[[o s] e] a]|]| |]; try done.
  - destruct (overlaps _ _ _) eqn:Hov; [intros [= <-]; by left|].
    destruct (fix_suggestion _ _ _ _ _ _) as [fixed| |] eqn:Hfix; try done.
    simpl. intros Hf. right. exists o, s, e, a, fixed.
    destruct (20 <=? _) eqn:Hcap; injection Hf as <-; simpl; by rewrite ?Hcap.
  - intros [= <-]. by left.
Qed.

(** An invariant of the states the loop goes through holds of the state
    it returns. *)
Lemma loop_invariant (I : state → Prop) (text : jsstring) :
  (∀ i c st f, I st → iteration toLowerCase now text i c st = Ok f →
               I (state_of f)) →
  ∀ suggestions i st st',
    I st → loop toLowerCase now text i suggestions st = Ok st' → I st'.
Proof.
  intros Hstep suggestions.
  induction suggestions as [|c rest IH]; intros i st st' HI; simpl.
  - by intros [= <-].
  - unbind. destruct (iteration _ _ _ _ _ _) as [f| |] eqn:Hit; try done.
    pose proof (Hstep _ _ _ _ HI Hit) as HI'.
    destruct f as [st1|st1]; simpl in HI'.
    + by apply IH.
    + by intros [= <-].
Qed.

End EngineFacts.

(** ** The reconciliation engine: anchoring (C1) *)

Lemma reconcile_Ok (toLowerCase : jsstring → jsstring) (now : nat → Z)
    (text : jsstring) (suggestions : list value) (out : list (gmap jsstring value)) :
  reconcile toLowerCase now text suggestions = Ok out →
  ∃ st, loop toLowerCase now text 0 suggestions (State [] []) = Ok st
        ∧ out = processedSuggestions st.
Proof.
  unfold reconcile. unbind.
  destruct (loop _ _ _ _ _ _) as [st| |]; [|done..].
  intros [= <-]. by exists st.
Qed.

Lemma iteration_anchored (toLowerCase : jsstring → jsstring) (now : nat → Z)
    (text : jsstring) (i : nat) (c : value) (st : state) (f : flow) :
  Forall (anchored text) (processedSuggestions st) →
  iteration toLowerCase now text i c st = Ok f →
  Forall (anchored text) (processedSuggestions (state_of f)).
Proof.
  intros HI Hit.
  destruct (iteration_cases _ _ _ _ _ _ _ Hit)
    as [->|(o & s & e & a & fixed & Hres & _ & Hfix & -> & _)]; [done|].
  simpl. apply Forall_app. split; [done|]. apply Forall_singleton.
  apply resolve_Some in Hres as (_ & start & end_ & _ & Hloc).
  apply locate_slice in Hloc as ->.
  apply fix_suggestion_entries in Hfix as (Hs & He & Hb & _).
  by exists s, e.
Qed.

(** C1.  Every suggestion that the reconciliation loop returns is
    anchored in the original text: it has numeric [start] and [end], and
    its [before] is exactly [text.slice(start, end)], unit for unit, for
    every array of candidates and every text, whichever repair was
    applied. *)
Theorem reconcile_anchored (toLowerCase : jsstring → jsstring) (now : nat → Z)
    (text : jsstring) (suggestions : list value)
    (out : list (gmap jsstring value)) (s : gmap jsstring value) :
  reconcile toLowerCase now text suggestions = Ok out →
  s ∈ out →
  anchored text s.
Proof.
  intros (st & Hloop & ->)%reconcile_Ok Hs.
  eapply (Forall_forall (anchored text)); [|exact Hs].
  refine (loop_invariant toLowerCase now
            (λ st, Forall (anchored text) (processedSuggestions st))
            text _ suggestions 0%nat (State [] []) st _ Hloop).
  - intros i c st0 f. apply iteration_anchored.
  - constructor.
Qed.

Lemma reconcile_anchored_witness :
  reconcile lower_latin clock0 text_sya [JObj cand_sya] = Ok [sugg_sya]
  ∧ sugg_sya ∈ [sugg_sya]
  ∧ anchored text_sya sugg_sya.
Proof.
  assert (reconcile lower_latin clock0 text_sya [JObj cand_sya] = Ok [sugg_sya])
    as Hrun by reflexivity.
  assert (sugg_sya ∈ [sugg_sya]) as Hin by apply list_elem_of_here.
  split_and!; [exact Hrun|exact Hin|].
  exact (reconcile_anchored lower_latin clock0 text_sya [JObj cand_sya]
           [sugg_sya] sugg_sya Hrun Hin).
Defined.

(** ** The reconciliation engine: no overlap, first accepted wins (C2) *)

Lemma overlaps_spec (taken : list (Z * Z)) (s e : Z) :
  overlaps taken s e = true ↔ ∃ r, r ∈ taken ∧ interval_overlap r (s, e).
Proof.
  unfold overlaps. rewrite existsb_exists. split.
  - intros ([ts te] & Hin & Hov). exists (ts, te).
    split; [by apply list_elem_of_In|]. unfold interval_overlap. simpl.
    apply negb_true_iff, orb_false_iff in Hov as [H1 H2]. lia.
  - intros ([ts te] & Hin & [H1 H2]). exists (ts, te).
    split; [by apply list_elem_of_In|]. simpl in *.
    apply negb_true_iff, orb_false_iff. lia.
Qed.

Lemma interval_overlap_sym (a b : Z * Z) :
  interval_overlap a b → interval_overlap b a.
Proof. unfold interval_overlap. lia. Qed.

Lemma disjoint_ranges_snoc (taken : list (Z * Z)) (s e : Z) :
  disjoint_ranges taken → overlaps taken s e = false →
  disjoint_ranges (taken ++ [(s, e)]).
Proof.
  intros Hd Hov i j a b Hij Ha Hb Hab.
  assert (∀ r, r ∈ taken → ¬ interval_overlap r (s, e)) as Hfree.
  { intros r Hr Hre. apply not_true_iff_false in Hov. apply Hov.
    apply overlaps_spec. by exists r. }
  apply lookup_app_Some in Ha as [Ha|[Hia Ha]];
    apply lookup_app_Some in Hb as [Hb|[Hjb Hb]].
  - by eapply (Hd i j).
  - apply list_lookup_singleton_Some in Hb as [_ <-].
    eapply Hfree; [|done]. by eapply list_elem_of_lookup_2.
  - apply list_lookup_singleton_Some in Ha as [_ <-].
    eapply Hfree; [|by apply interval_overlap_sym].
    by eapply list_elem_of_lookup_2.
  - apply list_lookup_singleton_Some in Ha as [Hi _].
    apply list_lookup_singleton_Some in Hb as [Hj _]. lia.
Qed.

Section Overlap.

Variable toLowerCase : jsstring → jsstring.
Variable now : nat → Z.
Variable text : jsstring.

Lemma iteration_lockstep (i : nat) (c : value) (st : state) (f : flow) :
  lockstep st ∧ disjoint_ranges (takenRanges st) →
  iteration toLowerCase now text i c st = Ok f →
  lockstep (state_of f) ∧ disjoint_ranges (takenRanges (state_of f)).
Proof.
  intros [Hl Hd] Hit.
  destruct (iteration_cases _ _ _ _ _ _ _ Hit)
    as [->|(o & s & e & a & fixed & Hres & Hov & Hfix & -> & _)]; [done|].
  simpl. split; [|by apply disjoint_ranges_snoc].
  apply Forall2_app; [done|]. apply Forall2_cons. split; [|constructor].
  apply fix_suggestion_entries in Hfix as (Hs & He & _).
  unfold span_of. by rewrite Hs, He.
Qed.

Lemma loop_lockstep (suggestions : list value) (i : nat) (st st' : state) :
  lockstep st ∧ disjoint_ranges (takenRanges st) →
  loop toLowerCase now text i suggestions st = Ok st' →
  lockstep st' ∧ disjoint_ranges (takenRanges st').
Proof.
  apply (loop_invariant toLowerCase now
           (λ st, lockstep st ∧ disjoint_ranges (takenRanges st))).
  intros i' c st0 f. apply iteration_lockstep.
Qed.

Lemma loop_flow_state (suggestions : list value) (i : nat) (st : state) :
  loop toLowerCase now text i suggestions st
  = f ← loop_flow toLowerCase now text i suggestions st; Ok (state_of f).
Proof.
  revert i st. induction suggestions as [|c rest IH]; intros i st; simpl; [done|].
  unbind. by destruct (iteration _ _ _ _ _ _) as [[st1|st1]| |].
Qed.

Lemma loop_flow_app (pre post : list value) (i : nat) (st : state) :
  loop_flow toLowerCase now text i (pre ++ post) st
  = f ← loop_flow toLowerCase now text i pre st;
    match f with
    | Continue st' => loop_flow toLowerCase now text (i + length pre) post st'
    | Break st' => Ok (Break st')
    end.
Proof.
  revert i st. induction pre as [|c rest IH]; intros i st; simpl.
  - unbind. by rewrite Nat.add_0_r.
  - unbind. destruct (iteration _ _ _ _ _ _) as [[st1|st1]| |]; try done.
    rewrite IH. unbind. by replace (S i + length rest)%nat with (i + S (length rest))%nat by lia.
Qed.

(** What the loop has accepted stays, in place and as it is. *)
Lemma loop_flow_prefix (suggestions : list value) (i : nat) (st : state) (f : flow) :
  loop_flow toLowerCase now text i suggestions st = Ok f →
  processedSuggestions st `prefix_of` processedSuggestions (state_of f).
Proof.
  revert i st. induction suggestions as [|c rest IH]; intros i st; simpl.
  - by intros [= <-].
  - unbind. destruct (iteration _ _ _ _ _ _) as [f1| |] eqn:Hit; try done.
    assert (processedSuggestions st `prefix_of` processedSuggestions (state_of f1)) as Hp.
    { destruct (iteration_cases _ _ _ _ _ _ _ Hit)
        as [->|(o & s & e & a & fixed & _ & _ & _ & -> & _)]; [done|].
      simpl. by apply prefix_app_r. }
    destruct f1 as [st1|st1]; simpl in Hp.
    + intros Hrest. etrans; [exact Hp|]. by eapply IH.
    + by intros [= <-].
Qed.

End Overlap.

Lemma lockstep_taken (st : state) (f : gmap jsstring value) (r : Z * Z) :
  lockstep st → f ∈ processedSuggestions st → span_of f = Some r →
  r ∈ takenRanges st.
Proof.
  intros Hl [i Hi]%list_elem_of_lookup Hr.
  destruct (Forall2_lookup_l _ _ _ _ _ Hl Hi) as (r' & Hr' & Hspan).
  assert (r' = r) as -> by congruence.
  by eapply list_elem_of_lookup_2.
Qed.

Lemma reconcile_flow (toLowerCase : jsstring → jsstring) (now : nat → Z)
    (text : jsstring) (suggestions : list value) :
  reconcile toLowerCase now text suggestions
  = f ← loop_flow toLowerCase now text 0 suggestions (State [] []);
    Ok (processedSuggestions (state_of f)).
Proof.
  unfold reconcile. rewrite loop_flow_state. unbind.
  by destruct (loop_flow _ _ _ _ _ _).
Qed.

Lemma lockstep_init : lockstep (State [] []) ∧ disjoint_ranges (takenRanges (State [] [])).
Proof. split; [constructor|]. by intros i j a b _ Ha. Qed.

Lemma loop_flow_lockstep (toLowerCase : jsstring → jsstring) (now : nat → Z)
    (text : jsstring) (suggestions : list value) (i : nat) (st : state) (f : flow) :
  lockstep st ∧ disjoint_ranges (takenRanges st) →
  loop_flow toLowerCase now text i suggestions st = Ok f →
  lockstep (state_of f) ∧ disjoint_ranges (takenRanges (state_of f)).
Proof.
  intros HI Hf. eapply loop_lockstep; [exact HI|].
  rewrite loop_flow_state, Hf. reflexivity.
Qed.

(** C2.  In one output no two suggestions overlap under the half-open
    test.  A candidate whose corrected span overlaps the span of a
    suggestion accepted before it is dropped: the accepted list is the
    same after that candidate as before it, and what has been accepted
    stays in the output, in place and unchanged (nothing is merged).  In
    particular, of two candidates whose corrected spans overlap, only the
    first is returned. *)
Theorem reconcile_first_wins (toLowerCase : jsstring → jsstring) (now : nat → Z)
    (text : jsstring) :
  (∀ suggestions out,
     reconcile toLowerCase now text suggestions = Ok out →
     (∀ i j a b, i ≠ j → out !! i = Some a → out !! j = Some b →
        ∃ ra rb, span_of a = Some ra ∧ span_of b = Some rb
                 ∧ ¬ interval_overlap ra rb)
     ∧ (∀ k c, suggestions !! k = Some c →
          ∃ out_k,
            reconcile toLowerCase now text (take k suggestions) = Ok out_k
            ∧ out_k `prefix_of` out
            ∧ ∀ o s e a,
                resolve toLowerCase text c = Ok (Some (o, s, e, a)) →
                (∃ f r, f ∈ out_k ∧ span_of f = Some r
                        ∧ interval_overlap r (s, e)) →
                reconcile toLowerCase now text (take (S k) suggestions)
                = Ok out_k))
  ∧ (∀ c1 c2 o1 s1 e1 a1 o2 s2 e2 a2,
       resolve toLowerCase text c1 = Ok (Some (o1, s1, e1, a1)) →
       resolve toLowerCase text c2 = Ok (Some (o2, s2, e2, a2)) →
       interval_overlap (s1, e1) (s2, e2) →
       reconcile toLowerCase now text [c1; c2]
       = fixed ← fix_suggestion now 0 o1 s1 e1 a1; Ok [fixed]).
Proof.
  split.
  - intros suggestions out Hrun. split.
    + apply reconcile_Ok in Hrun as (st & Hloop & ->).
      destruct (loop_lockstep toLowerCase now text _ _ _ _ lockstep_init Hloop)
        as [Hl Hd].
      intros i j a b Hij Ha Hb.
      destruct (Forall2_lookup_l _ _ _ _ _ Hl Ha) as (ra & Hra & Hsa).
      destruct (Forall2_lookup_l _ _ _ _ _ Hl Hb) as (rb & Hrb & Hsb).
      exists ra, rb. split_and!; [done..|]. by eapply (Hd i j).
    + intros k c Hk.
      rewrite <- (take_drop_middle _ _ _ Hk) in Hrun.
      rewrite (take_S_r _ _ _ Hk).
      rewrite reconcile_flow, loop_flow_app in Hrun.
      rewrite !reconcile_flow, loop_flow_app. unbind.
      destruct (loop_flow _ _ _ _ (take k suggestions) _) as [fk| |] eqn:Hpre;
        try done.
      exists (processedSuggestions (state_of fk)). split; [done|].
      destruct (loop_flow_lockstep _ _ _ _ _ _ _ lockstep_init Hpre) as [Hl Hd].
      destruct fk as [stk|stk]; cbn -[loop_flow take drop] in *.
      * destruct (loop_flow _ _ _ _ (c :: _) _) as [f| |] eqn:Hpost; try done.
        injection Hrun as <-. split; [by eapply loop_flow_prefix|].
        intros o s e a Hres (f0 & r & Hf0 & Hr & Hov).
        simpl. unfold iteration. rewrite Hres. unbind.
        assert (overlaps (takenRanges stk) s e = true) as ->; [|done].
        apply overlaps_spec. exists r. split; [|done].
        by eapply lockstep_taken.
      * injection Hrun as <-. done.
  - intros c1 c2 o1 s1 e1 a1 o2 s2 e2 a2 H1 H2 Hov.
    assert (overlaps [(s1, e1)] s2 e2 = true) as Hov'.
    { apply overlaps_spec. exists (s1, e1). split; [by left|done]. }
    unfold reconcile. cbn [loop]. unfold iteration. rewrite H1, H2. unbind.
    change (overlaps (takenRanges (State [] [])) s1 e1) with false.
    cbn match.
    destruct (fix_suggestion now 0 o1 s1 e1 a1) as [fixed| |]; try done.
    cbn -[overlaps]. change (20 <=? len_list [fixed]) with false.
    cbn -[overlaps]. by rewrite Hov'.
Qed.

Lemma reconcile_first_wins_witness :
  resolve lower_latin text_sya (JObj cand_Sya)
    = Ok (Some (cand_Sya, 0, 3, lit "Sya"))
  ∧ resolve lower_latin text_sya (JObj cand_a_mk)
    = Ok (Some (cand_a_mk, 2, 6, lit "a mk"))
  ∧ interval_overlap (0, 3) (2, 6)
  ∧ reconcile lower_latin clock0 text_sya [JObj cand_Sya; JObj cand_a_mk]
    = fixed ← fix_suggestion clock0 0 cand_Sya 0 3 (lit "Sya"); Ok [fixed].
Proof.
  assert (resolve lower_latin text_sya (JObj cand_Sya)
          = Ok (Some (cand_Sya, 0, 3, lit "Sya"))) as H1 by reflexivity.
  assert (resolve lower_latin text_sya (JObj cand_a_mk)
          = Ok (Some (cand_a_mk, 2, 6, lit "a mk"))) as H2 by reflexivity.
  assert (interval_overlap (0, 3) (2, 6)) as Hov by (unfold interval_overlap; simpl; lia).
  split_and!; [exact H1|exact H2|exact Hov|].
  exact (proj2 (reconcile_first_wins lower_latin clock0 text_sya)
           _ _ _ _ _ _ _ _ _ _ H1 H2 Hov).
Defined.

(** ** The first repair: nearest exact occurrence (C3) *)

Lemma same_string_false (s b : jsstring) :
  s ≠ b → same_string s (Some (JStr b)) = false.
Proof. intros H. simpl. by apply bool_decide_eq_false. Qed.

(** C3, as the code has it.  For a candidate whose [before] is a
    non-empty string that differs from the clamped slice and occurs in
    the text, the first repair keeps the candidate: [start] becomes the
    index of the occurrence nearest to the clamped [start], the lowest
    such index on a tie, [end] becomes that index plus the length of
    [before], and [before] is kept. *)
Theorem tier1_repair (toLowerCase : jsstring → jsstring) (text : jsstring)
    (o : gmap jsstring value) (b : jsstring) (start end_ : Z) :
  o !! k_before = Some (JStr b) →
  b ≠ [] →
  clamp text o = Ok (start, end_) →
  slice text start end_ ≠ b →
  (∃ i, occurs_at text b i) →
  repaired_exactly toLowerCase text o b start end_.
Proof.
  intros Hb Hne Hclamp Hdiff [j Hj]. unfold repaired_exactly.
  assert (∃ i, nearest_to (occurs_at text b) start i
               ∧ locate toLowerCase text o start end_
                 = Ok (Some (i, i + len b, b))) as (i & Hi & Hloc).
  { unfold locate.
    rewrite Hb, (same_string_false _ _ Hdiff), (findNearestIndex_string _ _ _ Hne).
    destruct (nearest_of_spec text b start Hne) as (r & -> & [[_ Hnone]|Hr]).
    { exfalso. apply (Hnone j). by apply starts_at_occurs. }
    pose proof (nearest_to_not_minus_one _ _ _ _ Hr) as Hr1.
    apply (nearest_to_ext _ (occurs_at text b)) in Hr;
      [|intros; by apply starts_at_occurs].
    exists r. split; [done|]. unbind.
    destruct (Z.eqb_spec r (-1)) as [|_]; [done|]. simpl.
    destruct b as [|c b]; [done|]. simpl.
    destruct Hr as [(_ & _ & ->) _]. done. }
  exists i. split_and!; [done..|].
  unfold passes_checks. intros [[Hshape Hcat]%andb_true_iff Hsev]%andb_true_iff.
  unfold resolve. rewrite Hshape, Hcat. cbn [negb].
  apply negb_true_iff in Hsev. rewrite Hsev, Hclamp. unbind. by rewrite Hloc.
Qed.

Lemma tier1_repair_witness :
  repaired_exactly lower_latin (lit "Ini adalah demnstrasi")
    (candidate typo (lit "salah ketik") (lit "demnstrasi") (lit "demonstrasi") 99 109)
    (lit "demnstrasi") 21 21.
Proof.
  apply tier1_repair.
  - reflexivity.
  - discriminate.
  - reflexivity.
  - vm_compute. discriminate.
  - exists 11. unfold occurs_at. split_and!; [lia|vm_compute; discriminate|reflexivity].
Defined.

(** Without the restriction to a non-empty [before] the statement fails:
    the empty string occurs in [ab] and differs from the slice [ab], yet
    the search refuses an empty needle and the candidate is skipped. *)
Lemma tier1_empty_before_skipped :
  ¬ ∀ (text : jsstring) (o : gmap jsstring value) (b : jsstring) (start end_ : Z),
      o !! k_before = Some (JStr b) →
      clamp text o = Ok (start, end_) →
      slice text start end_ ≠ b →
      (∃ i, occurs_at text b i) →
      repaired_exactly lower_latin text o b start end_.
Proof.
  intros H.
  destruct (H text_ab cand_empty [] 0 2) as (i & _ & Hloc & _).
  - reflexivity.
  - reflexivity.
  - vm_compute. discriminate.
  - exists 0. unfold occurs_at. split_and!; [lia|vm_compute; discriminate|reflexivity].
  - vm_compute in Hloc. discriminate.
Qed.

(** ** The second repair: case-insensitive occurrence (C4) *)

Lemma len_map (f : N → N) (s : jsstring) : len (map f s) = len s.
Proof. unfold len. by rewrite length_map. Qed.

Lemma slice_map (f : N → N) (s : jsstring) (a b : Z) :
  slice (map f s) a b = map f (slice s a b).
Proof.
  unfold slice. rewrite len_map.
  change (map f s) with (f <$> s). by rewrite <- fmap_drop, <- fmap_take.
Qed.

(** X10.  Where lower-casing works unit by unit on the text and on [before],
    the second repair does what is said of it: a candidate whose
    non-empty [before] occurs in the text only up to case is moved to
    the nearest such occurrence, and its [before] becomes the slice of
    the original text found there. *)
Lemma tier2_repair_unitwise (toLowerCase : jsstring → jsstring) (lc : N → N)
    (text : jsstring) (o : gmap jsstring value) (b : jsstring) (start end_ : Z) :
  toLowerCase text = map lc text →
  toLowerCase b = map lc b →
  o !! k_before = Some (JStr b) →
  b ≠ [] →
  slice text start end_ ≠ b →
  (∀ i, ¬ occurs_at text b i) →
  (∃ i, occurs_at (map lc text) (map lc b) i) →
  ∃ i, nearest_to (occurs_at (map lc text) (map lc b)) start i
       ∧ locate toLowerCase text o start end_
         = Ok (Some (i, i + len b, slice text i (i + len b)))
       ∧ map lc (slice text i (i + len b)) = map lc b
       ∧ 0 ≤ i ∧ i + len b ≤ len text.
Proof.
  intros Htext Hbl Hb Hne Hdiff Hnone [j Hj].
  assert (map lc b ≠ []) as Hne' by (by destruct b).
  unfold locate.
  rewrite Hb, (same_string_false _ _ Hdiff), (findNearestIndex_string _ _ _ Hne).
  destruct (nearest_of_spec text b start Hne) as (r & -> & [[-> _]|Hr]); cycle 1.
  { exfalso. destruct Hr as [Hr _]. apply (Hnone r). by apply starts_at_occurs. }
  unbind. rewrite Z.eqb_refl. cbn [negb].
  unfold findNearestIndexCI. rewrite Htext.
  replace (truthy (Some (JStr b))) with true by (by destruct b).
  rewrite Hbl. unbind.
  destruct (nearest_of_spec (map lc text) (map lc b) start Hne')
    as (r & Hrun & [[_ Hnone']|Hr]).
  { exfalso. apply (Hnone' j). by apply starts_at_occurs. }
  pose proof (nearest_to_not_minus_one _ _ _ _ Hr) as Hr1.
  apply (nearest_to_ext _ (occurs_at (map lc text) (map lc b))) in Hr;
    [|intros; by apply starts_at_occurs].
  exists r. split; [done|].
  destruct (map lc b) as [|c lb] eqn:Hlb; [done|]. rewrite Hrun.
  destruct (Z.eqb_spec r (-1)) as [|_]; [done|]. cbn [negb].
  replace (String_or_empty (Some (JStr b))) with (Ok b : outcome jsstring)
    by (by destruct b).
  destruct Hr as [(H0 & Hle & Hs) _].
  rewrite <- Hlb in *. rewrite !len_map in *. rewrite slice_map in Hs.
  split_and!; done.
Qed.

(** C4, what the code does on a text whose lower case is longer than the
    text.  In [İA] the candidate [a] occurs, up to case, at index 1.  For
    a host that lower-cases [İA] to the three units [i], U+0307, [a], as
    the Unicode case mapping has it, the search runs on that lowered
    text and answers 2; the suggestion returned has [start] 2, [end] 3,
    past the end of the text, and the empty string as [before]. *)
Theorem tier2_index_in_lowered_text (toLowerCase : jsstring → jsstring)
    (now : nat → Z) :
  toLowerCase [304; 65]%N = [105; 775; 97]%N →
  toLowerCase [97]%N = [97]%N →
  len text_dotted = 2
  ∧ slice text_dotted 1 2 = [65]%N
  ∧ ∃ s, reconcile toLowerCase now text_dotted [JObj cand_a] = Ok [s]
         ∧ span_of s = Some (2, 3)
         ∧ s !! k_before = Some (JStr []).
Proof.
  intros Htext Ha. split_and!; [reflexivity..|].
  assert (locate toLowerCase text_dotted cand_a 0 1 = Ok (Some (2, 3, [])))
    as Hloc.
  { unfold locate.
    replace (cand_a !! k_before) with (Some (JStr [97%N])) by reflexivity.
    replace (same_string (slice text_dotted 0 1) (Some (JStr [97%N])))
      with false by reflexivity.
    replace (findNearestIndex text_dotted (Some (JStr [97%N])) (Some 0))
      with (Ok (-1) : outcome Z) by reflexivity.
    unbind. rewrite Z.eqb_refl. cbn [negb].
    unfold findNearestIndexCI, text_dotted. unbind.
    replace (truthy (Some (JStr [97%N]))) with true by reflexivity.
    by rewrite Htext, Ha. }
  assert (resolve toLowerCase text_dotted (JObj cand_a)
          = Ok (Some (cand_a, 2, 3, []))) as Hres.
  { rewrite (resolve_passes toLowerCase text_dotted cand_a eq_refl).
    replace (clamp text_dotted cand_a) with (Ok (0, 1) : outcome (Z * Z))
      by reflexivity.
    unbind. by rewrite Hloc. }
  unfold reconcile. cbn [loop]. unfold iteration. rewrite Hres.
  eexists. split_and!; reflexivity.
Qed.

Lemma tier2_index_in_lowered_text_witness :
  len text_dotted = 2
  ∧ slice text_dotted 1 2 = [65]%N
  ∧ ∃ s, reconcile lower_latin clock0 text_dotted [JObj cand_a] = Ok [s]
         ∧ span_of s = Some (2, 3)
         ∧ s !! k_before = Some (JStr []).
Proof.
  exact (tier2_index_in_lowered_text lower_latin clock0 eq_refl eq_refl).
Defined.

(** ** Bounds of the returned spans (C5) *)

(** C5, what the code does with an empty [before].  The slice from 1 to
    1 is the empty string, so the candidate passes the comparison as it
    is and is returned with [start = end]. *)
Theorem empty_span_accepted (toLowerCase : jsstring → jsstring) (now : nat → Z) :
  ∃ s, reconcile toLowerCase now text_abc [JObj cand_nothing] = Ok [s]
       ∧ span_of s = Some (1, 1)
       ∧ s !! k_before = Some (JStr []).
Proof. eexists. split_and!; reflexivity. Qed.

(** ** The cap of twenty (C6) *)

Section Cap.

Variable toLowerCase : jsstring → jsstring.
Variable now : nat → Z.
Variable text : jsstring.

Lemma loop_flow_cap (suggestions : list value) (i : nat) (st : state) (f : flow) :
  len_list (processedSuggestions st) < 20 →
  loop_flow toLowerCase now text i suggestions st = Ok f →
  match f with
  | Continue st' => len_list (processedSuggestions st') < 20
  | Break st' => len_list (processedSuggestions st') = 20
  end.
Proof.
  revert i st. induction suggestions as [|c rest IH]; intros i st Hlt; simpl.
  - by intros [= <-].
  - unbind. destruct (iteration _ _ _ _ _ _) as [f1| |] eqn:Hit; try done.
    destruct (iteration_cases _ _ _ _ _ _ _ Hit)
      as [->|(o & s & e & a & fixed & _ & _ & _ & Hst & Hf)].
    { by apply IH. }
    assert (len_list (processedSuggestions st ++ [fixed])
            = len_list (processedSuggestions st) + 1) as Hlen.
    { unfold len_list. rewrite length_app. simpl. lia. }
    rewrite Hf, Hst. simpl.
    destruct (Z.leb_spec 20 (len_list (processedSuggestions st ++ [fixed]))).
    + intros [= <-]. simpl. lia.
    + apply IH. simpl. lia.
Qed.

Lemma disjoint_ranges_take (ranges : list (Z * Z)) (i : nat) (s e : Z) :
  disjoint_ranges ranges → ranges !! i = Some (s, e) →
  overlaps (take i ranges) s e = false.
Proof.
  intros Hd Hi. apply not_true_iff_false. intros (r & Hr & Hov)%overlaps_spec.
  apply list_elem_of_lookup in Hr as [j Hj].
  apply lookup_take_Some in Hj as [Hj Hlt].
  apply (Hd j i r (s, e)); [lia|done..].
Qed.

(** The loop on candidates that all resolve and build, with pairwise
    disjoint spans: from candidate [i] on, [i] suggestions being
    accepted already, it returns the first twenty. *)
Lemma loop_all_valid (suggestions : list value)
    (spans : list (Z * Z)) (fixeds : list (gmap jsstring value)) :
  length spans = length suggestions →
  length fixeds = length suggestions →
  (∀ k c, suggestions !! k = Some c →
     ∃ o s e a fixed,
       resolve toLowerCase text c = Ok (Some (o, s, e, a))
       ∧ spans !! k = Some (s, e)
       ∧ fix_suggestion now k o s e a = Ok fixed
       ∧ fixeds !! k = Some fixed) →
  disjoint_ranges spans →
  ∀ n i, (n = length suggestions - i)%nat → (i ≤ length suggestions)%nat →
    (i < 20)%nat →
    loop toLowerCase now text i (drop i suggestions)
      (State (take i fixeds) (take i spans))
    = Ok (State (take 20 fixeds) (take 20 spans)).
Proof.
  intros Hls Hlf Hvalid Hd n.
  induction n as [|n IH]; intros i Hn Hi Hcap.
  - rewrite drop_ge by lia. simpl.
    by rewrite !take_ge by lia.
  - destruct (lookup_lt_is_Some_2 suggestions i) as [c Hc]; [lia|].
    rewrite (drop_S _ _ _ Hc). cbn [loop].
    destruct (Hvalid _ _ Hc) as (o & s & e & a & fixed & Hres & Hsp & Hfix & Hfx).
    unfold iteration. rewrite Hres. unbind. cbn [takenRanges processedSuggestions].
    rewrite (disjoint_ranges_take _ _ _ _ Hd Hsp), Hfix.
    rewrite <- (take_S_r _ _ _ Hfx), <- (take_S_r _ _ _ Hsp).
    assert (len_list (take (S i) fixeds) = Z.of_nat (S i)) as ->.
    { unfold len_list. rewrite length_take. lia. }
    destruct (Z.leb_spec 20 (Z.of_nat (S i))).
    + assert (S i = 20%nat) as -> by lia. done.
    + apply IH; lia.
Qed.

End Cap.

(** C6.  The output never holds more than twenty suggestions, however
    long the array of candidates.  When every candidate resolves and
    builds and the spans are pairwise disjoint, the output is the first
    twenty of the suggestions built, in the order of the candidates; so
    of twenty-five such candidates exactly the first twenty are
    returned, the last five being left out by the cap alone. *)
Theorem reconcile_cap (toLowerCase : jsstring → jsstring) (now : nat → Z)
    (text : jsstring) (suggestions : list value) :
  (∀ out, reconcile toLowerCase now text suggestions = Ok out →
          (length out ≤ 20)%nat)
  ∧ (∀ (spans : list (Z * Z)) (fixeds : list (gmap jsstring value)),
       length spans = length suggestions →
       length fixeds = length suggestions →
       (∀ k c, suggestions !! k = Some c →
          ∃ o s e a fixed,
            resolve toLowerCase text c = Ok (Some (o, s, e, a))
            ∧ spans !! k = Some (s, e)
            ∧ fix_suggestion now k o s e a = Ok fixed
            ∧ fixeds !! k = Some fixed) →
       disjoint_ranges spans →
       reconcile toLowerCase now text suggestions = Ok (take 20 fixeds)
       ∧ (length suggestions = 25%nat →
          length (take 20 fixeds) = 20%nat
          ∧ ∃ last5, fixeds = take 20 fixeds ++ last5 ∧ length last5 = 5%nat)).
Proof.
  split.
  - intros out Hrun. rewrite reconcile_flow in Hrun. unbind.
    destruct (loop_flow _ _ _ _ _ _) as [f| |] eqn:Hf; try done.
    injection Hrun as <-.
    apply loop_flow_cap in Hf; [|done].
    unfold len_list in Hf. destruct f; simpl; lia.
  - intros spans fixeds Hls Hlf Hvalid Hd. split.
    + unfold reconcile.
      pose proof (loop_all_valid toLowerCase now text suggestions spans fixeds
                    Hls Hlf Hvalid Hd _ 0%nat eq_refl) as Hloop.
      rewrite drop_0, !take_0 in Hloop. rewrite Hloop by lia. done.
    + intros H25. split; [rewrite length_take; lia|].
      exists (drop 20 fixeds). split; [by rewrite take_drop|].
      rewrite length_drop. lia.
Qed.

Lemma spans_25_disjoint : disjoint_ranges spans_25.
Proof.
  intros i j a b Hij Ha Hb. unfold spans_25 in *.
  change (map ?f ?l) with (f <$> l) in *.
  rewrite list_lookup_fmap in Ha, Hb.
  destruct (seq 0 25 !! i) as [i'|] eqn:Hi; [|done].
  destruct (seq 0 25 !! j) as [j'|] eqn:Hj; [|done].
  apply lookup_seq in Hi as [-> _]. apply lookup_seq in Hj as [-> _].
  injection Ha as <-. injection Hb as <-.
  unfold interval_overlap. simpl. lia.
Defined.

Lemma cands_25_valid (k : nat) (c : value) :
  cands_25 !! k = Some c →
  ∃ o s e a fixed,
    resolve lower_latin text_25 c = Ok (Some (o, s, e, a))
    ∧ spans_25 !! k = Some (s, e)
    ∧ fix_suggestion clock0 k o s e a = Ok fixed
    ∧ fixeds_25 !! k = Some fixed.
Proof.
  intros Hk.
  do 25 (destruct k as [|k];
         [injection Hk as <-; eexists _, _, _, _, _; split_and!; reflexivity|]).
  discriminate Hk.
Defined.

Lemma reconcile_cap_witness :
  reconcile lower_latin clock0 text_25 cands_25 = Ok (take 20 fixeds_25)
  ∧ length (take 20 fixeds_25) = 20%nat
  ∧ ∃ last5, fixeds_25 = take 20 fixeds_25 ++ last5 ∧ length last5 = 5%nat.
Proof.
  destruct (proj2 (reconcile_cap lower_latin clock0 text_25 cands_25)
              spans_25 fixeds_25 eq_refl eq_refl cands_25_valid spans_25_disjoint)
    as [Hrun Hlast].
  split; [exact Hrun|]. exact (Hlast eq_refl).
Defined.

(** ** The clock and the identifiers (C7) *)

Section Clock.

Variable toLowerCase : jsstring → jsstring.
Variables now1 now2 : nat → Z.
Variable text : jsstring.

Lemma fix_suggestion_same_clock (i : nat) (o : gmap jsstring value)
    (s e : Z) (a : jsstring) :
  now1 i = now2 i →
  fix_suggestion now1 i o s e a = fix_suggestion now2 i o s e a.
Proof. intros H. unfold fix_suggestion. by rewrite H. Qed.

Lemma fix_suggestion_rel (i : nat) (o : gmap jsstring value)
    (s e : Z) (a : jsstring) :
  outcome_rel same_up_to_id
    (fix_suggestion now1 i o s e a) (fix_suggestion now2 i o s e a).
Proof.
  unfold fix_suggestion. unbind.
  destruct (match o !! k_message with Some v => String_ v | None => _ end)
    as [msg| |]; [|done..].
  destruct (match o !! k_after with Some (JStr a) => _ | _ => _ end)
    as [af| |]; [|done..].
  destruct (truthy _); simpl; [done|].
  intros k Hk. by rewrite !(lookup_insert_ne _ k_id k).
Qed.

Lemma iteration_rel (i : nat) (c : value) (st1 st2 : state) :
  state_rel st1 st2 →
  outcome_rel flow_rel
    (iteration toLowerCase now1 text i c st1)
    (iteration toLowerCase now2 text i c st2).
Proof.
  intros [Hp Ht]. unfold iteration. unbind.
  destruct (resolve _ _ _) as [[[[[o s] e] a]|]| |]; try done.
  rewrite Ht. destruct (overlaps _ _ _); [done|].
  pose proof (fix_suggestion_rel i o s e a) as Hfix.
  destruct (fix_suggestion now1 _ _ _ _ _) as [f1| |],
           (fix_suggestion now2 _ _ _ _ _) as [f2| |]; try done.
  simpl in Hfix. cbn beta iota zeta. cbn [processedSuggestions].
  assert (len_list (processedSuggestions st1 ++ [f1])
          = len_list (processedSuggestions st2 ++ [f2])) as ->.
  { unfold len_list. rewrite !length_app. by rewrite (Forall2_length _ _ _ Hp). }
  assert (state_rel (State (processedSuggestions st1 ++ [f1]) (takenRanges st2 ++ [(s, e)]))
            (State (processedSuggestions st2 ++ [f2]) (takenRanges st2 ++ [(s, e)]))).
  { split; [|done]. simpl. apply Forall2_app; [done|]. by constructor. }
  by destruct (20 <=? _).
Qed.

Lemma loop_flow_rel (suggestions : list value) (i : nat) (st1 st2 : state) :
  state_rel st1 st2 →
  outcome_rel flow_rel
    (loop_flow toLowerCase now1 text i suggestions st1)
    (loop_flow toLowerCase now2 text i suggestions st2).
Proof.
  revert i st1 st2. induction suggestions as [|c rest IH]; intros i st1 st2 HR.
  - done.
  - simpl. unbind. pose proof (iteration_rel i c st1 st2 HR) as Hit.
    destruct (iteration _ now1 _ _ _ _) as [[st1'|st1']| |],
             (iteration _ now2 _ _ _ _) as [[st2'|st2']| |]; try done.
    by apply IH.
Qed.

Lemma loop_same_clock (suggestions : list value) (i : nat) (st : state) :
  (∀ j, now1 j = now2 j) →
  loop toLowerCase now1 text i suggestions st
  = loop toLowerCase now2 text i suggestions st.
Proof.
  intros Hnow. revert i st.
  induction suggestions as [|c rest IH]; intros i st; [done|].
  simpl. unfold iteration. unbind.
  destruct (resolve _ _ _) as [[[[[o s] e] a]|]| |]; try done.
  destruct (overlaps _ _ _); [done|].
  rewrite (fix_suggestion_same_clock _ _ _ _ _ (Hnow i)).
  destruct (fix_suggestion now2 _ _ _ _ _); try done.
  by destruct (20 <=? _).
Qed.

Lemma fix_suggestion_with_id (i : nat) (o : gmap jsstring value)
    (s e : Z) (a : jsstring) :
  truthy (o !! k_id) = true →
  fix_suggestion now1 i o s e a = fix_suggestion now2 i o s e a.
Proof.
  intros Hid. unfold fix_suggestion. unbind.
  destruct (match o !! k_message with Some v => String_ v | None => _ end)
    as [msg| |]; [|done..].
  destruct (match o !! k_after with Some (JStr a) => _ | _ => _ end)
    as [af| |]; [|done..].
  rewrite !(lookup_insert_ne _ _ k_id) by done. by rewrite Hid.
Qed.

Lemma loop_with_ids (suggestions : list value) (i : nat) (st : state) :
  (∀ o, JObj o ∈ suggestions → truthy (o !! k_id) = true) →
  loop toLowerCase now1 text i suggestions st
  = loop toLowerCase now2 text i suggestions st.
Proof.
  revert i st. induction suggestions as [|c rest IH]; intros i st Hids; [done|].
  simpl. unfold iteration. unbind.
  destruct (resolve _ _ _) as [[[[[o s] e] a]|]| |] eqn:Hres; try done.
  - apply resolve_Some in Hres as (-> & _).
    destruct (overlaps _ _ _).
    + apply IH. intros o' Ho'. apply Hids. by right.
    + rewrite (fix_suggestion_with_id i o s e a) by (apply Hids; by left).
      destruct (fix_suggestion now2 _ _ _ _ _); try done.
      destruct (20 <=? _); [done|].
      apply IH. intros o' Ho'. apply Hids. by right.
  - apply IH. intros o' Ho'. apply Hids. by right.
Qed.

End Clock.

(** C7, as the code has it.  The engine keeps no state, and its result
    is a function of the candidates, the text and the readings of the
    clock.  Two runs on the same candidates and text return the same
    array when the clock reads the same, and also when every candidate
    object carries a truthy [id].  Otherwise they still end the same way
    and return arrays of the same length whose suggestions agree on
    every entry except [id], which is where the reading of the clock
    goes. *)
Theorem reconcile_pure_up_to_id (toLowerCase : jsstring → jsstring)
    (now1 now2 : nat → Z) (text : jsstring) (suggestions : list value) :
  ((∀ i, now1 i = now2 i) →
   reconcile toLowerCase now1 text suggestions
   = reconcile toLowerCase now2 text suggestions)
  ∧ ((∀ o, JObj o ∈ suggestions → truthy (o !! k_id) = true) →
     reconcile toLowerCase now1 text suggestions
     = reconcile toLowerCase now2 text suggestions)
  ∧ outcome_rel (Forall2 same_up_to_id)
      (reconcile toLowerCase now1 text suggestions)
      (reconcile toLowerCase now2 text suggestions).
Proof.
  split_and!.
  - intros Hnow. unfold reconcile. by rewrite (loop_same_clock _ _ _ _ _ _ _ Hnow).
  - intros Hids. unfold reconcile. by rewrite (loop_with_ids toLowerCase now1 now2 text _ _ _ Hids).
  - rewrite !reconcile_flow. unbind.
    pose proof (loop_flow_rel toLowerCase now1 now2 text suggestions 0
                  (State [] []) (State [] [])) as Hrel.
    destruct (loop_flow _ now1 _ _ _ _) as [f1| |],
             (loop_flow _ now2 _ _ _ _) as [f2| |]; simpl in *;
      try (apply Hrel; split; [constructor|done]).
    assert (flow_rel f1 f2) as Hf by (apply Hrel; split; [constructor|done]).
    destruct f1, f2; simpl in *; try done; by destruct Hf.
Qed.

Lemma reconcile_pure_up_to_id_witness :
  (∀ i, clock0 i = clock0 i)
  ∧ reconcile lower_latin clock0 text_sya [JObj cand_sya]
    = reconcile lower_latin clock0 text_sya [JObj cand_sya]
  ∧ outcome_rel (Forall2 same_up_to_id)
      (reconcile lower_latin clock0 text_sya [JObj cand_sya])
      (reconcile lower_latin (λ _, 0) text_sya [JObj cand_sya]).
Proof.
  split; [done|]. split.
  - exact (proj1 (reconcile_pure_up_to_id lower_latin clock0 clock0 text_sya
                    [JObj cand_sya]) (λ _, eq_refl)).
  - exact (proj2 (proj2 (reconcile_pure_up_to_id lower_latin clock0 (λ _, 0)
                           text_sya [JObj cand_sya]))).
Defined.

(** The array returned is not a function of the candidates and the text
    alone: the same candidate on the same text gets another [id] when
    the clock reads another time. *)
Lemma reconcile_reads_clock :
  ¬ ∀ (now1 now2 : nat → Z) (text : jsstring) (suggestions : list value),
      reconcile lower_latin now1 text suggestions
      = reconcile lower_latin now2 text suggestions.
Proof.
  intros H. specialize (H clock0 (λ _, 0) text_sya [JObj cand_sya]).
  apply (f_equal (λ r, match r with
                       | Ok l => (λ f : gmap jsstring value, f !! k_id) <$> l
                       | _ => []
                       end)) in H.
  vm_compute in H. discriminate H.
Qed.

(** ** The in-memory limiter (C8) *)

Module LimiterFacts.
Import Limiter.

Lemma filter_keep_all (P : Z → Prop) `{∀ x, Decision (P x)} (l : list Z) :
  Forall P l → filter P l = l.
Proof.
  induction 1 as [|x l Hx Hl IH]; [done|].
  rewrite filter_cons_True by done. by rewrite IH.
Qed.

Lemma filter_drop_all (P : Z → Prop) `{∀ x, Decision (P x)} (l : list Z) :
  Forall (λ x, ¬ P x) l → filter P l = [].
Proof.
  induction 1 as [|x l Hx Hl IH]; [done|].
  by rewrite filter_cons_False.
Qed.

(** Calls that all fall within one window of each other and of what is
    recorded, as long as there is room, are allowed and recorded in
    order. *)
Lemma calls_within_window (times : list Z) :
  ∀ (store : gmap jsstring (list Z)) (clientId : jsstring) (prev : list Z),
    default [] (store !! clientId) = prev →
    (∀ x y, x ∈ prev ++ times → y ∈ prev ++ times → y - x < 60000) →
    (length prev + length times ≤ 10)%nat →
    calls store clientId times
    = (replicate (length times) true,
       if times is [] then store else <[clientId := prev ++ times]> store).
Proof.
  induction times as [|now rest IH]; intros store clientId prev Hprev Hwin Hroom.
  - done.
  - simpl in Hroom. cbn [calls]. unfold checkRateLimitInMemory.
    rewrite Hprev. cbn [maxRequests windowMs RATE_LIMIT].
    rewrite filter_keep_all; cycle 1.
    { apply Forall_forall. intros x Hx.
      apply Hwin; apply elem_of_app; [by left|right; by left]. }
    destruct (Z.geb_spec (len_list prev) 10) as [Hfull|_].
    { unfold len_list in Hfull. lia. }
    rewrite (IH _ clientId (prev ++ [now])); cycle 1.
    + by rewrite lookup_insert_eq.
    + intros x y Hx Hy. rewrite <- app_assoc in Hx, Hy. by apply Hwin.
    + rewrite length_app. simpl. lia.
    + simpl. f_equal. destruct rest as [|t rest]; [done|].
      by rewrite insert_insert_eq, <- app_assoc.
Qed.

End LimiterFacts.

(** C8.  With ten requests per 60000 ms, a call is allowed exactly when
    fewer than ten of the timestamps recorded for the client lie within
    the window that ends at the call; an allowed call records its
    timestamp after those, a rejected call leaves the store as it was.
    Hence for a client with nothing recorded, ten calls within one
    window are allowed, an eleventh within it is rejected, and a call
    made once the window has passed for all of them is allowed again. *)
Theorem limiter_sliding_window (store : gmap jsstring (list Z))
    (clientId : jsstring) (now : Z) :
  let valid := filter (λ time, now - time < 60000)
                 (default [] (store !! clientId)) in
  ((Limiter.checkRateLimitInMemory store clientId now).1 = true
   ↔ (length valid < 10)%nat)
  ∧ (Limiter.checkRateLimitInMemory store clientId now).2
    = (if (Limiter.checkRateLimitInMemory store clientId now).1
       then <[clientId := valid ++ [now]]> store else store)
  ∧ ∀ (times : list Z) (t11 t : Z),
      store !! clientId = None →
      length times = 10%nat →
      (∀ x y, x ∈ times ++ [t11] → y ∈ times ++ [t11] → y - x < 60000) →
      (∀ x, x ∈ times → 60000 ≤ t - x) →
      (Limiter.calls store clientId (times ++ [t11; t])).1
      = replicate 10 true ++ [false; true].
Proof.
  intros valid. unfold Limiter.checkRateLimitInMemory.
  cbn [Limiter.maxRequests Limiter.windowMs Limiter.RATE_LIMIT]. fold valid.
  split_and!.
  - destruct (Z.geb_spec (len_list valid) 10) as [Hfull|Hroom];
      unfold len_list in *; simpl; split; (done || lia).
  - by destruct (len_list valid >=? 10).
  - intros times t11 t Hfresh Hten Hwin Hgone.
    assert (∀ (pre post : list Z) (s : gmap jsstring (list Z)),
              Limiter.calls s clientId (pre ++ post)
              = let '(oks, s') := Limiter.calls s clientId pre in
                let '(oks', s'') := Limiter.calls s' clientId post in
                (oks ++ oks', s'')) as Happ.
    { induction pre as [|x pre IH]; intros post s; simpl.
      - by destruct (Limiter.calls s clientId post).
      - destruct (Limiter.checkRateLimitInMemory s clientId x) as [ok s1].
        rewrite IH. destruct (Limiter.calls s1 clientId pre) as [oks s2].
        by destruct (Limiter.calls s2 clientId post). }
    rewrite Happ.
    rewrite (LimiterFacts.calls_within_window times store clientId []); cycle 1.
    { by rewrite Hfresh. }
    { intros x y Hx Hy. apply Hwin; apply elem_of_app; by left. }
    { simpl. lia. }
    destruct times as [|t1 times]; [done|]. rewrite Hten.
    cbn [Limiter.calls]. unfold Limiter.checkRateLimitInMemory.
    cbn [Limiter.maxRequests Limiter.windowMs Limiter.RATE_LIMIT].
    rewrite lookup_insert_eq. cbn [default from_option id app].
    rewrite LimiterFacts.filter_keep_all; cycle 1.
    { apply Forall_forall. intros x Hx.
      apply Hwin; apply elem_of_app; [by left|right; by left]. }
    replace (len_list (t1 :: times) >=? 10) with true
      by (unfold len_list; rewrite Hten; done).
    cbv beta iota zeta. rewrite lookup_insert_eq. cbn [default from_option id].
    rewrite LimiterFacts.filter_drop_all; cycle 1.
    { apply Forall_forall. intros x Hx. specialize (Hgone x Hx). lia. }
    done.
Qed.

Lemma limiter_sliding_window_witness :
  (∅ : gmap jsstring (list Z)) !! client = None
  ∧ length ten_calls = 10%nat
  ∧ (∀ x y, x ∈ ten_calls ++ [10000] → y ∈ ten_calls ++ [10000] → y - x < 60000)
  ∧ (∀ x, x ∈ ten_calls → 60000 ≤ 70000 - x)
  ∧ (Limiter.calls ∅ client (ten_calls ++ [10000; 70000])).1
    = replicate 10 true ++ [false; true].
Proof.
  assert (Forall (λ x, 0 ≤ x ≤ 10000) (ten_calls ++ [10000])) as Hall
    by (repeat constructor; lia).
  assert (∀ x y, x ∈ ten_calls ++ [10000] → y ∈ ten_calls ++ [10000] →
                 y - x < 60000) as Hwin.
  { intros x y Hx Hy.
    pose proof (proj1 (Forall_forall _ _) Hall x Hx) as Hbx.
    pose proof (proj1 (Forall_forall _ _) Hall y Hy) as Hby.
    cbv beta in Hbx, Hby. lia. }
  assert (∀ x, x ∈ ten_calls → 60000 ≤ 70000 - x) as Hgone.
  { intros x Hx.
    assert (x ∈ ten_calls ++ [10000]) as Hx' by (apply elem_of_app; by left).
    pose proof (proj1 (Forall_forall _ _) Hall x Hx') as Hbx.
    cbv beta in Hbx. lia. }
  split_and!; [reflexivity|reflexivity|exact Hwin|exact Hgone|].
  exact (proj2 (proj2 (limiter_sliding_window ∅ client 0))
           ten_calls 10000 70000 eq_refl eq_refl Hwin Hgone).
Defined.

(** ** Entries the loop does not compute (C10) *)

Section Frame.

Variable toLowerCase : jsstring → jsstring.
Variable now : nat → Z.
Variable text : jsstring.

Lemma iteration_frame (suggestions : list value) (i : nat) (c : value)
    (st : state) (f : flow) :
  c ∈ suggestions →
  Forall (λ s, ∃ o, JObj o ∈ suggestions
                    ∧ (∀ k, k ∉ computed_keys → s !! k = o !! k)
                    ∧ (truthy (o !! k_id) = true → s !! k_id = o !! k_id))
    (processedSuggestions st) →
  iteration toLowerCase now text i c st = Ok f →
  Forall (λ s, ∃ o, JObj o ∈ suggestions
                    ∧ (∀ k, k ∉ computed_keys → s !! k = o !! k)
                    ∧ (truthy (o !! k_id) = true → s !! k_id = o !! k_id))
    (processedSuggestions (state_of f)).
Proof.
  intros Hc HI Hit.
  destruct (iteration_cases _ _ _ _ _ _ _ Hit)
    as [->|(o & s & e & a & fixed & Hres & _ & Hfix & -> & _)]; [done|].
  simpl. apply Forall_app. split; [done|]. apply Forall_singleton.
  apply resolve_Some in Hres as (-> & _).
  apply fix_suggestion_entries in Hfix as (_ & _ & _ & Hframe & Hid).
  by exists o.
Qed.

Lemma loop_frame (all : list value) (suggestions : list value) (i : nat)
    (st st' : state) :
  suggestions ⊆ all →
  Forall (λ s, ∃ o, JObj o ∈ all
                    ∧ (∀ k, k ∉ computed_keys → s !! k = o !! k)
                    ∧ (truthy (o !! k_id) = true → s !! k_id = o !! k_id))
    (processedSuggestions st) →
  loop toLowerCase now text i suggestions st = Ok st' →
  Forall (λ s, ∃ o, JObj o ∈ all
                    ∧ (∀ k, k ∉ computed_keys → s !! k = o !! k)
                    ∧ (truthy (o !! k_id) = true → s !! k_id = o !! k_id))
    (processedSuggestions st').
Proof.
  revert i st. induction suggestions as [|c rest IH]; intros i st Hsub HI; simpl.
  - by intros [= <-].
  - unbind. destruct (iteration _ _ _ _ _ _) as [f| |] eqn:Hit; try done.
    assert (c ∈ all) as Hc by (apply Hsub; by left).
    pose proof (iteration_frame all i c st f Hc HI Hit) as HI'.
    destruct f as [st1|st1]; simpl in HI'.
    + apply IH; [|done]. intros x Hx. apply Hsub. by right.
    + by intros [= <-].
Qed.

Lemma String_or_empty_insert (k : jsstring) (v : value) (o : gmap jsstring value) :
  k ≠ k_before →
  String_or_empty (<[k := v]> o !! k_before) = String_or_empty (o !! k_before).
Proof. intros Hk. by rewrite lookup_insert_ne. Qed.

(** The checks and the repairs do not look at an entry outside
    [read_keys]: whatever is stored there, the candidate is skipped or
    kept alike, with the same span. *)
Lemma resolve_ignores (k : jsstring) (v : value) (o : gmap jsstring value) :
  k ∉ read_keys →
  resolve toLowerCase text (JObj (<[k := v]> o))
  = match resolve toLowerCase text (JObj o) with
    | Ok (Some (o', s, e, a)) => Ok (Some (<[k := v]> o', s, e, a))
    | r => r
    end.
Proof.
  intros Hk. unfold read_keys, requiredFields in Hk.
  rewrite !not_elem_of_cons in Hk.
  destruct Hk as (Hsev & Hcat & Hmsg & Hbef & Haft & Hst & Hen & _).
  unfold resolve, basicSuggestionShapeValid, requiredFields, clamp, locate.
  cbn [forallb]. rewrite !(lookup_insert_ne _ k) by done.
  destruct (_ && _); [|done]. cbn [negb].
  destruct (includes categories _); [|done]. cbn [negb].
  destruct (truthy (o !! k_severity) && _); [done|]. unbind.
  destruct (match o !! k_end with Some (JNum n) => _ | _ => _ end)
    as [en| |]; [|done..].
  destruct (same_string _ _); [done|].
  destruct (findNearestIndex _ _ _) as [idx| |]; [|done..].
  destruct (negb (idx =? -1)).
  - by destruct (String_or_empty _).
  - destruct (findNearestIndexCI _ _ _ _) as [idx'| |]; [|done..].
    destruct (negb (idx' =? -1)); [|done].
    by destruct (String_or_empty _).
Qed.

End Frame.

(** C10.  Every suggestion returned comes from a candidate object of the
    array, and every entry of that object under a key other than
    [start], [end], [before], [after], [message] and [id] is in the
    suggestion as it is in the candidate, whatever its key and value;
    an [id] that is truthy is kept as well.  The checks read no entry
    outside [category], [severity] and the five overwritten ones, so
    nothing stored under [confidence] changes whether or where a
    candidate is accepted. *)
Theorem reconcile_frame (toLowerCase : jsstring → jsstring) (now : nat → Z)
    (text : jsstring) :
  (∀ suggestions out s,
     reconcile toLowerCase now text suggestions = Ok out →
     s ∈ out →
     ∃ o, JObj o ∈ suggestions
          ∧ (∀ k, k ∉ computed_keys → s !! k = o !! k)
          ∧ (truthy (o !! k_id) = true → s !! k_id = o !! k_id)
          ∧ s !! k_confidence = o !! k_confidence)
  ∧ (∀ v o,
       resolve toLowerCase text (JObj (<[k_confidence := v]> o))
       = match resolve toLowerCase text (JObj o) with
         | Ok (Some (o', s, e, a)) => Ok (Some (<[k_confidence := v]> o', s, e, a))
         | r => r
         end).
Proof.
  split.
  - intros suggestions out s (st & Hloop & ->)%reconcile_Ok Hs.
    pose proof (loop_frame toLowerCase now text suggestions suggestions 0
                  (State [] []) st (λ x Hx, Hx) (Forall_nil_2 _) Hloop) as Hall.
    destruct (proj1 (Forall_forall _ _) Hall s Hs) as (o & Ho & Hframe & Hid).
    exists o. split_and!; [done..|]. apply Hframe.
    unfold computed_keys. rewrite !not_elem_of_cons. split_and!; try done.
    apply not_elem_of_nil.
  - intros v o. apply resolve_ignores.
    unfold read_keys, requiredFields. rewrite !not_elem_of_cons.
    split_and!; try done. apply not_elem_of_nil.
Qed.

Lemma reconcile_frame_witness :
  ∃ out s,
    reconcile lower_latin clock0 text_sya [JObj cand_confident] = Ok out
    ∧ s ∈ out
    ∧ s !! k_confidence = Some (JNum 7)
    ∧ ∃ o, JObj o ∈ [JObj cand_confident]
           ∧ (∀ k, k ∉ computed_keys → s !! k = o !! k)
           ∧ (truthy (o !! k_id) = true → s !! k_id = o !! k_id)
           ∧ s !! k_confidence = o !! k_confidence.
Proof.
  eexists _, _.
  assert (reconcile lower_latin clock0 text_sya [JObj cand_confident]
          = Ok [<[k_id := JStr (lit "sg-1700000000000-0")]> cand_confident])
    as Hrun by reflexivity.
  assert (<[k_id := JStr (lit "sg-1700000000000-0")]> cand_confident
          ∈ [<[k_id := JStr (lit "sg-1700000000000-0")]> cand_confident])
    as Hin by apply list_elem_of_here.
  split_and!; [exact Hrun|exact Hin|reflexivity|].
  exact (proj1 (reconcile_frame lower_latin clock0 text_sya) _ _ _ Hrun Hin).
Defined.

(** ** The gateway: one strict retry, then an empty list (C9) *)

Section GatewayFacts.
Import Gateway.

Variable toLowerCase : jsstring → jsstring.
Variable now : nat → Z.
Variable JSON_parse : jsstring → option value.
Variable W : Type.
Variable fetch : request → W → fetched * W.

Lemma strictRetryJSON_sent (text : jsstring) (w : world W) :
  sent (strictRetryJSON W fetch text w).2 = sent w ++ [retry_request text].
Proof.
  unfold strictRetryJSON, send. fold (retry_request text).
  destruct (fetch _ _) as [[|[] status [data|]] n]; reflexivity.
Qed.

(** C9.  When the content of the first answer fails the direct parse
    and the repair parse, one request more is sent and no other: the
    strict retry, with temperature 0 where the first request had 0.1.
    If the retry gives no content, or content that fails to parse as
    well, the result is the empty list and nothing is thrown; if it
    parses, its candidates are reconciled. *)
Theorem check_degrades (text : jsstring) (w : world W) (status : Z)
    (data : value) (n1 : W) (content : option value) :
  fetch (first_request text) (net w) = (Response true status (Some data), n1) →
  first_content data = Ok content →
  tryParseJSONWithRepair JSON_parse content = None →
  let w1 := World n1 (sent w ++ [first_request text]) in
  let retry := strictRetryJSON W fetch text w1 in
  let result := checkTextWithOpenAI toLowerCase now JSON_parse W fetch text w in
  sent result.2 = sent w ++ [first_request text; retry_request text]
  ∧ temperature (retry_request text) = 0%Q
  ∧ (temperature (retry_request text) < temperature (first_request text))%Q
  ∧ (retry.1 = None ∨ tryParseJSONWithRepair JSON_parse retry.1 = None →
     result.1 = Ok [])
  ∧ (∀ parsed, retry.1 ≠ None →
       tryParseJSONWithRepair JSON_parse retry.1 = Some parsed →
       result.1 = reconcile toLowerCase now text (suggestions_of parsed)).
Proof.
  intros Hfetch Hcontent Hparse w1 retry result.
  assert (result
          = match retry.1 with
            | None => (Ok [], retry.2)
            | Some _ =>
                match tryParseJSONWithRepair JSON_parse retry.1 with
                | Some parsed =>
                    (reconcile toLowerCase now text (suggestions_of parsed), retry.2)
                | None => (Ok [], retry.2)
                end
            end) as Hresult.
  { unfold result, checkTextWithOpenAI, send. fold (first_request text).
    rewrite Hfetch, Hcontent, Hparse. fold w1. fold retry.
    by destruct retry as [[v|] w2]. }
  assert (sent result.2 = sent retry.2) as Hsent.
  { rewrite Hresult. destruct retry.1 as [v|]; [|done].
    by destruct (tryParseJSONWithRepair JSON_parse (Some v)). }
  split_and!.
  - rewrite Hsent. unfold retry. rewrite strictRetryJSON_sent. simpl.
    by rewrite <- app_assoc.
  - reflexivity.
  - reflexivity.
  - rewrite Hresult. intros [->| Hfail]; [done|].
    rewrite Hfail. by destruct retry.1.
  - intros parsed Hsome Hok. rewrite Hresult, Hok. by destruct retry.1.
Qed.

End GatewayFacts.

Lemma check_degrades_witness :
  Gateway.sent
    (Gateway.checkTextWithOpenAI lower_latin clock0 parse_null nat fetch_prose
       text_sya (Gateway.World 0%nat [])).2
  = [first_request text_sya; retry_request text_sya]
  ∧ (Gateway.checkTextWithOpenAI lower_latin clock0 parse_null nat fetch_prose
       text_sya (Gateway.World 0%nat [])).1
    = Ok [].
Proof.
  destruct (check_degrades lower_latin clock0 parse_null nat fetch_prose
              text_sya (Gateway.World 0%nat []) 200 (reply prose) 1%nat
              (Some (JStr prose)) eq_refl eq_refl eq_refl)
    as (Hsent & _ & _ & Hempty & _).
  split; [exact Hsent|]. apply Hempty. right. reflexivity.
Defined.

(** ** The engine returns on candidates made of strings *)

Lemma nearest_of_returns (h n : jsstring) (a : Z) :
  n ≠ [] → ∃ r, nearest_of h n (Some a) = Ok r ∧ (r = -1 ∨ 0 ≤ r).
Proof.
  intros Hn. destruct (nearest_of_spec h n a Hn) as (r & Hr & [[Hm _]|[[H0 _] _]]);
    exists r; (split; [done|]); [by left|by right].
Qed.

(** The collecting loop is the only place where the program can fail to
    return, and it does so exactly on the empty needle. *)
Lemma nearest_of_hangs (h n : jsstring) (a : option Z) :
  nearest_of h n a = Hangs ↔ n = [].
Proof.
  unfold nearest_of. split.
  - intros Hh. destruct (decide (n = [])) as [|Hn]; [done|exfalso].
    destruct (collect_enough (length h + 2) h n 0 [] Hn) as [occs Hc];
      [lia|unfold len; lia|].
    rewrite Hc in Hh. destruct occs; [done|]. by destruct a.
  - intros ->. by rewrite collect_empty_needle.
Qed.

Section Returns.

Variable toLowerCase : jsstring → jsstring.
Variable now : nat → Z.
Variable text : jsstring.

Lemma findNearestIndex_returns (b : jsstring) (a : Z) :
  ∃ r, findNearestIndex text (Some (JStr b)) (Some a) = Ok r ∧ (r = -1 ∨ 0 ≤ r).
Proof.
  destruct b as [|c b]; [exists (-1); split; [done|by left]|].
  rewrite findNearestIndex_string by done. by apply nearest_of_returns.
Qed.

Lemma findNearestIndexCI_returns (b : jsstring) (a : Z) :
  ∃ r, findNearestIndexCI toLowerCase text (Some (JStr b)) (Some a) = Ok r
       ∧ (r = -1 ∨ 0 ≤ r).
Proof.
  unfold findNearestIndexCI. unbind.
  destruct (truthy (Some (JStr b))).
  - destruct (toLowerCase b) as [|c l] eqn:Hl; [exists (-1); split; [done|by left]|].
    by apply nearest_of_returns.
  - destruct (toLowerCase []) as [|c l] eqn:Hl; [exists (-1); split; [done|by left]|].
    by apply nearest_of_returns.
Qed.

Lemma resolve_returns (o : gmap jsstring value) :
  (∀ v, o !! k_before = Some v → ∃ s, v = JStr s) →
  ∃ r, resolve toLowerCase text (JObj o) = Ok r.
Proof.
  intros Hstr. unfold resolve.
  destruct (basicSuggestionShapeValid (JObj o)) eqn:Hshape; [|by eexists].
  cbn [negb].
  destruct (includes categories _); [|by eexists]. cbn [negb].
  destruct (truthy _ && _); [by eexists|].
  assert (∃ b, o !! k_before = Some (JStr b)) as [b Hb].
  { unfold basicSuggestionShapeValid, requiredFields in Hshape. cbn [forallb] in Hshape.
    repeat (apply andb_true_iff in Hshape as [? Hshape]).
    destruct (o !! k_before) as [v|] eqn:Hv; [|done].
    destruct (Hstr v eq_refl) as [s ->]. by exists s. }
  unfold clamp, locate. rewrite Hb. unbind.
  replace (String_or_empty (Some (JStr b))) with (Ok b : outcome jsstring)
    by (by destruct b).
  assert (∀ start end_ : Z, ∃ r,
            (if same_string (slice text start end_) (Some (JStr b))
             then Ok (Some (start, end_, slice text start end_))
             else
               match findNearestIndex text (Some (JStr b)) (Some start) with
               | Ok idxExact =>
                   if negb (idxExact =? -1)
                   then Ok (Some (idxExact, idxExact + len b,
                                  slice text idxExact (idxExact + len b)))
                   else
                     match findNearestIndexCI toLowerCase text (Some (JStr b))
                             (Some start) with
                     | Ok idxCI =>
                         if negb (idxCI =? -1)
                         then Ok (Some (idxCI, idxCI + len b,
                                        slice text idxCI (idxCI + len b)))
                         else Ok None
                     | Throws => Throws
                     | Hangs => Hangs
                     end
               | Throws => Throws
               | Hangs => Hangs
               end) = Ok r) as Hloc.
  { intros start end_. destruct (same_string _ _); [by eexists|].
    destruct (findNearestIndex_returns b start) as (r1 & -> & _).
    destruct (negb (r1 =? -1)); [by eexists|].
    destruct (findNearestIndexCI_returns b start) as (r2 & -> & _).
    destruct (negb (r2 =? -1)); by eexists. }
  destruct (o !! k_end) as [[]|];
    match goal with
    | |- context [same_string (slice text ?s ?e) _] =>
        destruct (Hloc s e) as [[[[s' e'] a']|] ->]; by eexists
    end.
Qed.

Lemma fix_suggestion_returns (i : nat) (o : gmap jsstring value) (s e : Z)
    (a : jsstring) :
  (∃ m, o !! k_message = Some (JStr m)) →
  (∃ af, o !! k_after = Some (JStr af)) →
  ∃ fixed, fix_suggestion now i o s e a = Ok fixed.
Proof.
  intros [m Hm] [af Haf]. unfold fix_suggestion. rewrite Hm, Haf. unbind. simpl.
  destruct (truthy _); by eexists.
Qed.

(** X6.  On an array whose candidate objects carry strings under [before],
    [message] and [after], the loop throws nothing and returns. *)
Lemma reconcile_returns (suggestions : list value) :
  (∀ o k v, JObj o ∈ suggestions → k ∈ [k_before; k_message; k_after] →
            o !! k = Some v → ∃ s, v = JStr s) →
  ∃ out, reconcile toLowerCase now text suggestions = Ok out.
Proof.
  intros Hstr. unfold reconcile.
  assert (∀ i st, ∃ st', loop toLowerCase now text i suggestions st = Ok st')
    as Hloop; [|destruct (Hloop 0%nat (State [] [])) as [st' ->]; by eexists].
  induction suggestions as [|c rest IH]; intros i st; [by eexists|].
  assert (∃ f, iteration toLowerCase now text i c st = Ok f) as [f Hf].
  { unfold iteration.
    assert (∃ r, resolve toLowerCase text c = Ok r) as [r Hr].
    { destruct c as [| | | | |o]; try by eexists.
      apply resolve_returns. intros v Hv.
      apply (Hstr o k_before v); [by left|by left|done]. }
    rewrite Hr. unbind. destruct r as [[[[o s] e] a]|]; [|by eexists].
    destruct (overlaps _ _ _); [by eexists|].
    pose proof Hr as Hr'. apply resolve_Some in Hr' as (-> & _).
    assert (basicSuggestionShapeValid (JObj o) = true) as Hshape.
    { unfold resolve in Hr. by destruct (basicSuggestionShapeValid (JObj o)). }
    unfold basicSuggestionShapeValid, requiredFields in Hshape. cbn [forallb] in Hshape.
    repeat (apply andb_true_iff in Hshape as [? Hshape]).
    destruct (fix_suggestion_returns i o s e a) as [fixed ->].
    - destruct (o !! k_message) as [v|] eqn:Hv; [|done].
      destruct (Hstr o k_message v) as [m ->]; [by left|by right; left|done|].
      by exists m.
    - destruct (o !! k_after) as [v|] eqn:Hv; [|done].
      destruct (Hstr o k_after v) as [m ->]; [by left|by right; right; left|done|].
      by exists m.
    - destruct (20 <=? _); by eexists. }
  simpl. rewrite Hf. unbind. destruct f as [st1|st1]; [|by eexists].
  apply IH. intros o k v Ho. apply Hstr. by right.
Qed.

End Returns.

(** ** What does hold of the returned spans *)

Section Bounds.

Variable toLowerCase : jsstring → jsstring.
Variable now : nat → Z.
Variable text : jsstring.






End Bounds.

(** ** Other ways a run can end *)

(** An array that prints as the empty string passes the guard on empty
    needles, and the collecting loop never exits. *)
Lemma array_before_hangs (toLowerCase : jsstring → jsstring) (now : nat → Z) :
  reconcile toLowerCase now text_abc [JObj cand_array] = Hangs.
Proof. reflexivity. Qed.

(** A number that occurs nowhere in the text reaches the case-insensitive
    search, where [toLowerCase] is called on it. *)
Lemma number_before_throws (toLowerCase : jsstring → jsstring) (now : nat → Z) :
  reconcile toLowerCase now text_abc [JObj cand_seven] = Throws.
Proof. reflexivity. Qed.

(** The example of the first repair: the only occurrence of
    [demnstrasi] is at 11, whatever offsets the candidate reports. *)
Lemma demnstrasi_example (toLowerCase : jsstring → jsstring) :
  resolve toLowerCase (lit "Ini adalah demnstrasi")
    (JObj (candidate typo (lit "salah ketik") (lit "demnstrasi")
             (lit "demonstrasi") 99 109))
  = Ok (Some (candidate typo (lit "salah ketik") (lit "demnstrasi")
                (lit "demonstrasi") 99 109,
              11, 21, lit "demnstrasi")).
Proof. reflexivity. Qed.

(** The example of the second repair on [Sya mkn ayam]. *)
Lemma sya_example :
  reconcile lower_latin clock0 text_sya [JObj cand_sya] = Ok [sugg_sya]
  ∧ span_of sugg_sya = Some (0, 3)
  ∧ sugg_sya !! k_before = Some (JStr (lit "Sya")).
Proof. split_and!; reflexivity. Qed.

(** ** The sweep does not change the limiter's answers *)

Lemma filter_window_twice (t now : Z) (l : list Z) :
  t ≤ now →
  filter (λ time, now - time < 60000) (filter (λ time, t - time < 60000) l)
  = filter (λ time, now - time < 60000) l.
Proof.
  intros Hle. induction l as [|x l IH]; [done|].
  destruct (decide (t - x < 60000)) as [Ht|Ht].
  - rewrite (filter_cons_True (λ time, t - time < 60000)) by done.
    destruct (decide (now - x < 60000)) as [Hn|Hn].
    + rewrite !(filter_cons_True (λ time, now - time < 60000)) by done.
      by rewrite IH.
    + rewrite !(filter_cons_False (λ time, now - time < 60000)) by done.
      by rewrite IH.
  - rewrite (filter_cons_False (λ time, t - time < 60000)) by done.
    rewrite (filter_cons_False (λ time, now - time < 60000)) by lia.
    by rewrite IH.
Qed.

(** A sweep at [t] removes only what a later call would discard itself. *)
Lemma sweep_keeps_answer (store : gmap jsstring (list Z)) (clientId : jsstring)
    (t now : Z) :
  t ≤ now →
  (Limiter.checkRateLimitInMemory (Limiter.sweep store t) clientId now).1
  = (Limiter.checkRateLimitInMemory store clientId now).1.
Proof.
  intros Hle. unfold Limiter.checkRateLimitInMemory, Limiter.sweep.
  cbn [Limiter.maxRequests Limiter.windowMs Limiter.RATE_LIMIT].
  rewrite lookup_omap.
  assert (filter (λ time, now - time < 60000)
            (default [] (store !! clientId ≫= λ requests,
               if bool_decide (length (filter (λ time, t - time < 60000) requests) = 0%nat)
               then None else Some (filter (λ time, t - time < 60000) requests)))
          = filter (λ time, now - time < 60000) (default [] (store !! clientId)))
    as ->.
  { destruct (store !! clientId) as [requests|]; [|done]. simpl.
    case_bool_decide as Hempty.
    - apply length_zero_iff_nil in Hempty.
      rewrite <- (filter_window_twice t now requests Hle), Hempty. done.
    - simpl. by apply filter_window_twice. }
  by destruct (_ >=? _).
Qed.

(** ** Sanitised strings *)

Lemma is_control_space : is_control space = false.
Proof. reflexivity. Qed.

Lemma tidy_flag (b : bool) (c : N) (s : jsstring) :
  is_space c = false → tidy b (c :: s) = tidy false (c :: s).
Proof. intros H. simpl. by rewrite H. Qed.

Lemma tidy_weaken (s : jsstring) : tidy true s = true → tidy false s = true.
Proof.
  destruct s as [|c s]; [done|]. simpl.
  destruct (is_control c); [done|]. destruct (is_space c); [|done].
  simpl. by rewrite andb_false_r.
Qed.

Lemma tidy_collapse (b : bool) (s : jsstring) :
  Forall (λ c, is_control c = false) s → tidy b (collapse b s) = true.
Proof.
  intros Hs. revert b. induction Hs as [|c s Hc Hs IH]; intros b; [done|].
  simpl. destruct (is_space c) eqn:Hsp.
  - destruct b; [apply IH|]. simpl. by rewrite IH.
  - simpl. by rewrite Hc, Hsp, IH.
Qed.

Lemma tidy_trim_start (b : bool) (s : jsstring) :
  tidy b s = true → tidy true (trim_start s) = true.
Proof.
  revert b. induction s as [|c s IH]; intros b; [done|].
  simpl. destruct (is_control c) eqn:Hc; [done|].
  destruct (is_space c) eqn:Hsp; simpl.
  - intros [[_ _]%andb_true_iff Ht]%andb_true_iff. by eapply IH.
  - intros Ht. by rewrite Hc, Hsp.
Qed.

Lemma tidy_app_l (b : bool) (p q : jsstring) :
  tidy b (p ++ q) = true → tidy b p = true.
Proof.
  revert b. induction p as [|c p IH]; intros b; [done|].
  simpl. destruct (is_control c); [done|]. simpl.
  destruct (is_space c).
  - intros [Hh Ht]%andb_true_iff. rewrite Hh. by eapply IH.
  - apply IH.
Qed.

Lemma trim_start_suffix (s : jsstring) : ∃ ws, s = ws ++ trim_start s.
Proof.
  induction s as [|c s [ws IH]]; [by exists []|].
  simpl. destruct (is_space c).
  - exists (c :: ws). simpl. by rewrite <- IH.
  - by exists [].
Qed.

Lemma trim_start_head (s : jsstring) :
  match trim_start s with c :: _ => is_space c = false | [] => True end.
Proof.
  induction s as [|c s IH]; [done|]. simpl.
  destruct (is_space c) eqn:Hsp; [done|]. done.
Qed.

Lemma trim_prefix (s : jsstring) : ∃ ws, trim_start s = trim s ++ ws.
Proof.
  unfold trim. destruct (trim_start_suffix (reverse (trim_start s))) as [ws Hws].
  exists (reverse ws).
  rewrite <- (reverse_involutive (trim_start s)) at 1.
  rewrite Hws at 1. by rewrite reverse_app.
Qed.

Lemma ends_tidy_trim (s : jsstring) : ends_tidy (trim s) = true.
Proof.
  unfold trim, ends_tidy.
  pose proof (trim_start_head (reverse (trim_start s))) as Hh.
  destruct (trim_start (reverse (trim_start s))) as [|c t]; [done|].
  rewrite reverse_cons, last_snoc. by rewrite Hh.
Qed.

Lemma tidy_trim (b : bool) (s : jsstring) :
  tidy b s = true → tidy true (trim s) = true.
Proof.
  intros Ht%tidy_trim_start. destruct (trim_prefix s) as [ws Hws].
  rewrite Hws in Ht. by eapply tidy_app_l.
Qed.

Lemma slice_prefix (s : jsstring) (n : Z) :
  0 ≤ n → slice s 0 n = take (Z.to_nat n) s.
Proof.
  intros Hn. unfold slice, rel_index. pose proof (len_nonneg s).
  simpl. destruct (Z.ltb_spec n 0); [lia|].
  rewrite (Z.min_l 0) by lia. rewrite drop_0, Z.sub_0_r.
  destruct (Z.le_gt_cases n (len s)).
  - by rewrite Z.min_l.
  - rewrite Z.min_r by lia. unfold len. rewrite Nat2Z.id.
    by rewrite !take_ge by (unfold len in *; lia).
Qed.

Lemma sanitizeString_props (input : jsstring) (maxLen : Z) :
  tidy true (sanitizeString input maxLen) = true
  ∧ (0 < maxLen → len (sanitizeString input maxLen) ≤ maxLen)
  ∧ (len (sanitizeString input maxLen) < maxLen ∨ maxLen ≤ 0 →
     ends_tidy (sanitizeString input maxLen) = true).
Proof.
  unfold sanitizeString.
  set (s1 := map (λ c, if is_control c then space else c) input).
  assert (Forall (λ c, is_control c = false) s1) as Hs1.
  { unfold s1. apply Forall_forall. intros c Hc.
    apply list_elem_of_In, in_map_iff in Hc as (c0 & <- & _).
    by destruct (is_control c0) eqn:E. }
  pose proof (tidy_trim _ _ (tidy_collapse false s1 Hs1)) as Ht.
  pose proof (ends_tidy_trim (collapse false s1)) as He.
  set (s2 := trim (collapse false s1)) in *.
  destruct (Z.ltb_spec 0 maxLen) as [Hpos|Hneg]; simpl.
  - destruct (Z.ltb_spec maxLen (len s2)) as [Hlong|Hshort].
    + rewrite slice_prefix by lia. split_and!.
      * rewrite <- (take_drop (Z.to_nat maxLen) s2) in Ht. by eapply tidy_app_l.
      * intros _. unfold len. rewrite length_take. lia.
      * intros [Hlt|?]; [|lia]. unfold len in *.
        rewrite length_take in Hlt. lia.
    + split_and!; [done|lia|done].
  - split_and!; [done|lia|done].
Qed.

(** X1.  [sanitizeString] returns a tidy string: no unit of the control
    class is left, white space is left only as single U+0020 units, and
    the string does not begin with white space.  For a positive
    [maxLen] the result has at most [maxLen] units; a result shorter
    than that does not end with white space either, one cut at [maxLen]
    may. *)
Theorem sanitizeString_tidy (input : jsstring) (maxLen : Z) :
  tidy true (sanitizeString input maxLen) = true
  ∧ (0 < maxLen → len (sanitizeString input maxLen) ≤ maxLen)
  ∧ (len (sanitizeString input maxLen) < maxLen ∨ maxLen ≤ 0 →
     ends_tidy (sanitizeString input maxLen) = true).
Proof. apply sanitizeString_props. Qed.

Lemma tidy_no_control (b : bool) (s : jsstring) :
  tidy b s = true → map (λ c, if is_control c then space else c) s = s.
Proof.
  revert b. induction s as [|c s IH]; intros b; [done|]. simpl.
  destruct (is_control c); [done|]. simpl.
  destruct (is_space c).
  - intros [_ Ht]%andb_true_iff. by rewrite (IH _ Ht).
  - intros Ht. by rewrite (IH _ Ht).
Qed.

Lemma collapse_tidy (b : bool) (s : jsstring) :
  tidy b s = true → collapse b s = s.
Proof.
  revert b. induction s as [|c s IH]; intros b; [done|]. simpl.
  destruct (is_control c); [done|]. simpl.
  destruct (is_space c).
  - intros [[Hc Hb]%andb_true_iff Ht]%andb_true_iff.
    apply negb_true_iff in Hb as ->. apply N.eqb_eq in Hc as ->.
    by rewrite (IH _ Ht).
  - intros Ht. by rewrite (IH _ Ht).
Qed.

Lemma trim_start_tidy (s : jsstring) :
  match s with c :: _ => is_space c = false | [] => True end →
  trim_start s = s.
Proof. destruct s as [|c s]; [done|]. simpl. by intros ->. Qed.

Lemma tidy_head (s : jsstring) :
  tidy true s = true →
  match s with c :: _ => is_space c = false | [] => True end.
Proof.
  destruct s as [|c s]; [done|]. simpl.
  destruct (is_space c); [|done]. by rewrite andb_false_r, andb_false_r.
Qed.

Lemma trim_tidy (s : jsstring) :
  tidy true s = true → ends_tidy s = true → trim s = s.
Proof.
  intros Ht He. unfold trim.
  rewrite (trim_start_tidy s (tidy_head s Ht)).
  rewrite trim_start_tidy; [apply reverse_involutive|].
  unfold ends_tidy in He.
  destruct s as [|c s _] using rev_ind; [done|].
  rewrite reverse_snoc. rewrite last_snoc in He. by apply negb_true_iff.
Qed.

Lemma sanitizeString_id (s : jsstring) (maxLen : Z) :
  tidy true s = true → ends_tidy s = true → len s ≤ maxLen ∨ maxLen ≤ 0 →
  sanitizeString s maxLen = s.
Proof.
  intros Ht He Hfit.
  unfold sanitizeString. rewrite (tidy_no_control _ _ Ht).
  rewrite (collapse_tidy false s (tidy_weaken _ Ht)), (trim_tidy s Ht He).
  destruct (Z.ltb_spec 0 maxLen); [|done].
  destruct (Z.ltb_spec maxLen (len s)); [lia|done].
Qed.

(** X2.  [sanitizeString] leaves a string as it is when the string is
    tidy, does not end with white space and fits in [maxLen].  So
    sanitising a second time changes nothing when the first result is
    shorter than [maxLen] (or [maxLen] is not positive); a result cut
    at [maxLen] can lose a final space the second time. *)
Theorem sanitizeString_fixed (input : jsstring) (maxLen : Z) :
  (tidy true input = true → ends_tidy input = true →
   len input ≤ maxLen ∨ maxLen ≤ 0 →
   sanitizeString input maxLen = input)
  ∧ (len (sanitizeString input maxLen) < maxLen ∨ maxLen ≤ 0 →
     sanitizeString (sanitizeString input maxLen) maxLen
     = sanitizeString input maxLen).
Proof.
  split; [apply sanitizeString_id|].
  intros Hshort.
  destruct (sanitizeString_props input maxLen) as (Ht & _ & He).
  apply sanitizeString_id; [done|by apply He|]. lia.
Qed.

Lemma sanitizeString_fixed_witness :
  sanitizeString (lit "Kata baku") 200 = lit "Kata baku"
  ∧ sanitizeString (sanitizeString (lit "  Kata   baku ") 200) 200
    = sanitizeString (lit "  Kata   baku ") 200.
Proof.
  destruct (sanitizeString_fixed (lit "Kata baku") 200) as [Hfix _].
  destruct (sanitizeString_fixed (lit "  Kata   baku ") 200) as [_ Hidem].
  split.
  - apply Hfix; [reflexivity|reflexivity|]. left. vm_compute. discriminate.
  - apply Hidem. left. reflexivity.
Defined.

(** A result cut at [maxLen] can end with a space, which a second pass
    removes. *)
Lemma sanitizeString_cut_not_fixed :
  sanitizeString (lit "aaa bbb") 4 = lit "aaa "
  ∧ sanitizeString (lit "aaa ") 4 = lit "aaa".
Proof. split; reflexivity. Qed.

(** ** What every returned suggestion carries *)

Section Carried.

Variable toLowerCase : jsstring → jsstring.
Variable now : nat → Z.
Variable text : jsstring.

Lemma fix_suggestion_sanitized (i : nat) (o fixed : gmap jsstring value)
    (s e : Z) (a : jsstring) :
  fix_suggestion now i o s e a = Ok fixed →
  tidy_string 200 (fixed !! k_message) ∧ tidy_string 100 (fixed !! k_after).
Proof.
  unfold fix_suggestion. unbind.
  destruct (match o !! k_message with Some v => String_ v | None => _ end)
    as [msg| |]; [|done..].
  destruct (match o !! k_after with Some (JStr a) => _ | _ => _ end)
    as [af| |]; [|done..].
  destruct (spread_entries o (JNum s) (JNum e) (JStr a)
              (JStr (sanitizeString af 100)) (JStr (sanitizeString msg 200)))
    as (_ & _ & _ & Haf & Hmsg & _).
  destruct (sanitizeString_props msg 200) as (Htm & Hlm & _).
  destruct (sanitizeString_props af 100) as (Hta & Hla & _).
  assert (tidy_string 200 (Some (JStr (sanitizeString msg 200)))) as Hm
    by (eexists; split_and!; [done..|lia]).
  assert (tidy_string 100 (Some (JStr (sanitizeString af 100)))) as Ha
    by (eexists; split_and!; [done..|lia]).
  destruct (truthy _); intros [= <-].
  - by rewrite Hmsg, Haf.
  - rewrite !(lookup_insert_ne _ k_id) by done. by rewrite Hmsg, Haf.
Qed.


(** An invariant of single suggestions that every accepted one has holds
    of all that are returned. *)
Lemma reconcile_each (P : gmap jsstring value → Prop) :
  (∀ i c o s e a fixed,
     resolve toLowerCase text c = Ok (Some (o, s, e, a)) →
     fix_suggestion now i o s e a = Ok fixed → P fixed) →
  ∀ suggestions out s,
    reconcile toLowerCase now text suggestions = Ok out → s ∈ out → P s.
Proof.
  intros HP suggestions out s (st & Hloop & ->)%reconcile_Ok Hs.
  eapply (Forall_forall P); [|exact Hs].
  refine (loop_invariant toLowerCase now (λ st, Forall P (processedSuggestions st))
            text _ suggestions 0%nat (State [] []) st _ Hloop); [|constructor].
  intros i c st0 f HI Hit.
  destruct (iteration_cases _ _ _ _ _ _ _ Hit)
    as [->|(o & s' & e & a & fixed & Hres & _ & Hfix & -> & _)]; [done|].
  simpl. apply Forall_app. split; [done|]. apply Forall_singleton. by eapply HP.
Qed.

End Carried.

(** X3.  In every suggestion returned, [message] is a tidy string of at
    most 200 units and [after] a tidy string of at most 100 units,
    whatever the candidate carried there. *)
Theorem reconcile_sanitized (toLowerCase : jsstring → jsstring) (now : nat → Z)
    (text : jsstring) (suggestions : list value)
    (out : list (gmap jsstring value)) (s : gmap jsstring value) :
  reconcile toLowerCase now text suggestions = Ok out →
  s ∈ out →
  tidy_string 200 (s !! k_message) ∧ tidy_string 100 (s !! k_after).
Proof.
  apply (reconcile_each toLowerCase now text
           (λ s, tidy_string 200 (s !! k_message) ∧ tidy_string 100 (s !! k_after))).
  intros i c o s' e a fixed _ Hfix. by eapply fix_suggestion_sanitized.
Qed.

Lemma reconcile_sanitized_witness :
  tidy_string 200 (sugg_sya !! k_message) ∧ tidy_string 100 (sugg_sya !! k_after).
Proof.
  apply (reconcile_sanitized lower_latin clock0 text_sya [JObj cand_sya] [sugg_sya]);
    [reflexivity|apply list_elem_of_here].
Defined.



(** ** The block that the repair parse extracts *)

Section Scan.

Context {A : Type} (is_open is_close : A → bool).

Lemma scan_depth_found (rest : list A) (i : nat) (d : Z) (j : nat) :
  0 < d →
  Gateway.scan_depth is_open is_close rest i d = Some j →
  ∃ k, j = (i + k)%nat ∧ (k < length rest)%nat
       ∧ d + depth_of is_open is_close (take (S k) rest) = 0
       ∧ ∀ m, (m ≤ k)%nat → 0 < d + depth_of is_open is_close (take m rest).
Proof.
  revert i d. induction rest as [|ch rest IH]; intros i d Hd; [done|].
  cbn [Gateway.scan_depth].
  assert (∀ d', 0 < d' →
            d' = d + (if is_open ch then 1 else if is_close ch then -1 else 0) →
            Gateway.scan_depth is_open is_close rest (S i) d' = Some j →
            ∃ k, j = (i + k)%nat ∧ (k < length (ch :: rest))%nat
                 ∧ d + depth_of is_open is_close (take (S k) (ch :: rest)) = 0
                 ∧ ∀ m, (m ≤ k)%nat →
                     0 < d + depth_of is_open is_close (take m (ch :: rest)))
    as Hstep.
  { intros d' Hd' Heq Hscan.
    destruct (IH _ _ Hd' Hscan) as (k & -> & Hk & Hzero & Hpos).
    exists (S k). split_and!; [lia|simpl; lia| |].
    - cbn [take depth_of] in *. lia.
    - intros [|m] Hm; [simpl; lia|]. cbn [take depth_of].
      specialize (Hpos m). lia. }
  destruct (is_open ch) eqn:Ho.
  - apply Hstep; lia.
  - destruct (is_close ch) eqn:Hc.
    + destruct (Z.eqb_spec (d - 1) 0) as [Hz|Hnz].
      * intros [= <-]. exists 0%nat. split_and!; [lia|simpl; lia| |].
        -- cbn [take depth_of]. rewrite Ho, Hc. simpl. lia.
        -- intros m Hm. replace m with 0%nat by lia. simpl. lia.
      * apply Hstep; lia.
    + apply Hstep; lia.
Qed.

Lemma scan_depth_complete (rest : list A) (i : nat) (d : Z) (k : nat) :
  0 < d → (k < length rest)%nat →
  d + depth_of is_open is_close (take (S k) rest) = 0 →
  (∀ m, (m ≤ k)%nat → 0 < d + depth_of is_open is_close (take m rest)) →
  Gateway.scan_depth is_open is_close rest i d = Some (i + k)%nat.
Proof.
  revert i d k. induction rest as [|ch rest IH]; intros i d k Hd Hk Hzero Hpos;
    [simpl in Hk; lia|].
  cbn [Gateway.scan_depth]. cbn [take depth_of] in Hzero.
  pose proof (Hpos 1%nat) as Hone. cbn [take depth_of] in Hone.
  rewrite take_0 in Hone. cbn [depth_of] in Hone.
  assert (∀ d', d' = d + (if is_open ch then 1 else if is_close ch then -1 else 0) →
            k ≠ 0%nat →
            Gateway.scan_depth is_open is_close rest (S i) d' = Some (i + k)%nat)
    as Hstep.
  { intros d' -> Hk0. destruct k as [|k]; [done|].
    replace (i + S k)%nat with (S i + k)%nat by lia.
    apply IH; [lia|simpl in Hk; lia|lia|].
    intros m Hm. specialize (Hpos (S m)). cbn [take depth_of] in Hpos. lia. }
  destruct (is_open ch) eqn:Ho.
  - apply Hstep; [lia|]. intros ->. rewrite take_0 in Hzero. simpl in Hzero. lia.
  - destruct (is_close ch) eqn:Hc.
    + destruct (Z.eqb_spec (d - 1) 0) as [Hz|Hnz].
      * destruct k as [|k]; [by rewrite Nat.add_0_r|]. lia.
      * apply Hstep; [lia|]. intros ->. rewrite take_0 in Hzero. simpl in Hzero. lia.
    + apply Hstep; [lia|]. intros ->. rewrite take_0 in Hzero. simpl in Hzero. lia.
Qed.

Lemma find_index_Some (p : A → bool) (l : list A) (i j : nat) :
  Gateway.find_index p l i = Some j ↔
  ∃ k x, j = (i + k)%nat ∧ l !! k = Some x ∧ p x = true
         ∧ Forall (λ y, p y = false) (take k l).
Proof.
  revert i. induction l as [|x l IH]; intros i; simpl.
  - split; [done|]. by intros (k & y & _ & Hy & _).
  - destruct (p x) eqn:Hp.
    + split.
      * intros [= <-]. exists 0%nat, x. split_and!; [lia|done|done|constructor].
      * intros (k & y & -> & Hy & Hpy & Hall). destruct k as [|k]; [f_equal; lia|].
        cbn [take] in Hall. apply Forall_cons in Hall as [Hx _]. congruence.
    + rewrite IH. split.
      * intros (k & y & -> & Hy & Hpy & Hall). exists (S k), y.
        split_and!; [lia|done|done|]. cbn [take]. by constructor.
      * intros (k & y & -> & Hy & Hpy & Hall). destruct k as [|k].
        { simpl in Hy. injection Hy as <-. congruence. }
        exists k, y. split_and!; [lia|done|done|].
        cbn [take] in Hall. by apply Forall_cons in Hall as [_ ?].
Qed.

End Scan.

Lemma brace_depth_cons (c : N) (s : jsstring) :
  brace_depth (c :: s)
  = (if (Gateway.open_brace =? c)%N then 1
     else if (Gateway.close_brace =? c)%N then -1 else 0) + brace_depth s.
Proof. reflexivity. Qed.

Lemma block_bounds_string (s : jsstring) (start i : nat) :
  Gateway.block_bounds (N.eqb Gateway.open_brace) (N.eqb Gateway.close_brace) s
  = Some (start, i) ↔
  ∃ rest k, drop start s = Gateway.open_brace :: rest
            ∧ (Gateway.open_brace ∉ take start s)
            ∧ i = (S start + k)%nat ∧ (k < length rest)%nat
            ∧ 1 + brace_depth (take (S k) rest) = 0
            ∧ ∀ m, (m ≤ k)%nat → 0 < 1 + brace_depth (take m rest).
Proof.
  unfold Gateway.block_bounds. split.
  - destruct (Gateway.find_index _ s 0) as [st|] eqn:Hfind; [|done].
    apply find_index_Some in Hfind as (k0 & x & -> & Hx & Hpx & Hall).
    simpl. apply N.eqb_eq in Hpx as <-.
    rewrite (drop_S _ _ _ Hx). cbn [Gateway.scan_depth].
    rewrite N.eqb_refl.
    destruct (Gateway.scan_depth _ _ _ _ _) as [j|] eqn:Hscan; [|done].
    intros [= <- <-]. apply scan_depth_found in Hscan as (k & -> & Hk & Hz & Hpos);
      [|lia].
    exists (drop (S k0) s), k. split_and!; try done; [by apply drop_S|].
    intros Hin. eapply Forall_forall in Hall; [|exact Hin].
    by rewrite N.eqb_refl in Hall.
  - intros (rest & k & Hdrop & Hpre & -> & Hk & Hz & Hpos).
    assert (s !! start = Some Gateway.open_brace) as Hx.
    { pose proof (lookup_drop s start 0) as Hl.
      rewrite Hdrop, Nat.add_0_r in Hl. done. }
    assert (Gateway.find_index (N.eqb Gateway.open_brace) s 0 = Some start) as ->.
    { apply find_index_Some. exists start, Gateway.open_brace.
      split_and!; [done|done|apply N.eqb_refl|].
      apply Forall_forall. intros y Hy. apply N.eqb_neq. by intros <-. }
    simpl. rewrite Hdrop. cbn [Gateway.scan_depth]. rewrite N.eqb_refl.
    rewrite (scan_depth_complete _ _ rest (S start) 1 k); done.
Qed.

Lemma first_closed_block_tail (rest : jsstring) (k : nat) :
  (k < length rest)%nat →
  1 + brace_depth (take (S k) rest) = 0 →
  (∀ m, (m ≤ k)%nat → 0 < 1 + brace_depth (take m rest)) →
  first_closed_block (Gateway.open_brace :: take (S k) rest).
Proof.
  intros Hk Hz Hpos. split_and!.
  - by eexists.
  - by rewrite brace_depth_cons, N.eqb_refl.
  - intros m Hm. cbn [length] in Hm. rewrite length_take in Hm.
    destruct m as [|m]; [lia|]. cbn [take].
    rewrite brace_depth_cons, N.eqb_refl, take_take.
    rewrite Nat.min_l by lia. apply Hpos. lia.
Qed.

Lemma extractJSONBlock_finds (pre b suf : jsstring) :
  Gateway.open_brace ∉ pre → first_closed_block b →
  Gateway.extractJSONBlock (Some (JStr (pre ++ b ++ suf))) = Ok (Some (JStr b)).
Proof.
  intros Hpre ([b' ->] & Hz & Hpos).
  assert (b' ≠ []) as Hb'.
  { intros ->. by rewrite brace_depth_cons, N.eqb_refl in Hz. }
  assert (Gateway.block_bounds (N.eqb Gateway.open_brace)
            (N.eqb Gateway.close_brace) (pre ++ (Gateway.open_brace :: b') ++ suf)
          = Some (length pre, (S (length pre) + (length b' - 1))%nat)) as Hb.
  { apply block_bounds_string. exists (b' ++ suf), (length b' - 1)%nat.
    assert (0 < length b')%nat by (destruct b'; [done|simpl; lia]).
    rewrite drop_app_length, take_app_length.
    replace (S (length b' - 1)) with (length b') by lia.
    rewrite take_app_length.
    rewrite brace_depth_cons, N.eqb_refl in Hz.
    split_and!; [done|done|done|rewrite length_app; lia|done|].
    intros m Hm. specialize (Hpos (S m)). cbn [take length] in Hpos.
    rewrite brace_depth_cons, N.eqb_refl in Hpos.
    rewrite take_app_le by lia. apply Hpos. lia. }
  unfold Gateway.extractJSONBlock.
  replace (truthy (Some (JStr (pre ++ (Gateway.open_brace :: b') ++ suf))))
    with true by (by destruct pre).
  simpl negb. cbv iota. rewrite Hb. do 3 f_equal.
  rewrite drop_app_length.
  assert (0 < length b')%nat by (destruct b'; [done|simpl; lia]).
  replace (S (S (length pre) + (length b' - 1)) - length pre)%nat
    with (length (Gateway.open_brace :: b')) by (simpl; lia).
  by rewrite take_app_length.
Qed.

(** X12.  On a string, [extractJSONBlock] never throws, and it returns a
    block exactly when the string has one: the block starts at the
    first opening brace of the string and ends at the closing brace
    that first brings the number of open braces back to zero; what
    comes before and after is dropped.  When no closing brace does so,
    or there is no opening brace, the result is [null].  Braces inside
    JSON string literals count like any other. *)
Theorem extractJSONBlock_block (s : jsstring) :
  (∃ r, Gateway.extractJSONBlock (Some (JStr s)) = Ok r
        ∧ (r = None ∨ ∃ b, r = Some (JStr b)))
  ∧ ∀ b, Gateway.extractJSONBlock (Some (JStr s)) = Ok (Some (JStr b)) ↔
         ∃ pre suf, s = pre ++ b ++ suf
                    ∧ (Gateway.open_brace ∉ pre)
                    ∧ first_closed_block b.
Proof.
  split.
  { unfold Gateway.extractJSONBlock. destruct (truthy _); [|eexists; eauto].
    simpl. destruct (Gateway.block_bounds _ _ s) as [[st i]|]; eexists; eauto. }
  intros b. split.
  - unfold Gateway.extractJSONBlock. destruct (truthy _); [|done]. simpl.
    destruct (Gateway.block_bounds _ _ s) as [[st i]|] eqn:Hb; [|done].
    intros [= <-].
    apply block_bounds_string in Hb as (rest & k & Hdrop & Hpre & -> & Hk & Hz & Hpos).
    exists (take st s), (drop (S k) rest).
    replace (S (S st + k) - st)%nat with (S (S k)) by lia.
    rewrite Hdrop. cbn [take]. split_and!; [|done|by apply first_closed_block_tail].
    rewrite <- (take_drop st s) at 1. rewrite Hdrop.
    by rewrite <- app_comm_cons, take_drop.
  - intros (pre & suf & -> & Hpre & Hblock). by apply extractJSONBlock_finds.
Qed.

(** ** The limiter over time *)

Section LimiterRuns.
Import Limiter.

Lemma check_unfold (store : gmap jsstring (list Z)) (c : jsstring) (now : Z) :
  checkRateLimitInMemory store c now
  = if bool_decide (length (filter (λ time, (now - time < 60000)%Z)
                              (default [] (store !! c))) < 10)%nat
    then (true, <[c := filter (λ time, now - time < 60000)
                         (default [] (store !! c)) ++ [now]]> store)
    else (false, store).
Proof.
  unfold checkRateLimitInMemory. cbn [maxRequests windowMs RATE_LIMIT].
  unfold len_list.
  destruct (Z.geb_spec (Z.of_nat (length (filter (λ time, now - time < 60000)
                                            (default [] (store !! c))))) 10);
    case_bool_decide; (done || lia).
Qed.

Lemma sweep_lookup (store : gmap jsstring (list Z)) (t : Z) (c : jsstring) :
  default [] (sweep store t !! c)
  = filter (λ time, t - time < 60000) (default [] (store !! c)).
Proof.
  unfold sweep. rewrite lookup_omap.
  destruct (store !! c) as [l|]; [|done]. simpl.
  case_bool_decide as Hempty; [|done].
  apply length_zero_iff_nil in Hempty. by rewrite Hempty.
Qed.

Lemma times_of_app (c : jsstring) (a b : list (jsstring * Z)) :
  times_of c (a ++ b) = times_of c a ++ times_of c b.
Proof. unfold times_of. by rewrite filter_app, fmap_app. Qed.

Lemma times_of_answer (c c' : jsstring) (ok : bool) (t : Z) :
  times_of c (if ok then [(c', t)] else [])
  = if ok && bool_decide (c' = c) then [t] else [].
Proof.
  destruct ok; [|done]. unfold times_of. cbn [andb].
  case_bool_decide.
  - by rewrite filter_cons_True by done.
  - by rewrite filter_cons_False by done.
Qed.

Lemma run_call (store : gmap jsstring (list Z)) (c : jsstring) (t : Z)
    (rest : list event) :
  run store (Call c t :: rest)
  = ((if (checkRateLimitInMemory store c t).1 then [(c, t)] else [])
       ++ (run (checkRateLimitInMemory store c t).2 rest).1,
     (run (checkRateLimitInMemory store c t).2 rest).2).
Proof.
  cbn [run]. destruct (checkRateLimitInMemory store c t) as [ok s'].
  cbn [fst snd]. by destruct (run s' rest).
Qed.

(** A call for one client leaves what is recorded for another as it is,
    and its answer depends on nothing but what is recorded for the
    client itself. *)
Lemma check_frame (s1 s2 : gmap jsstring (list Z)) (c c' : jsstring) (t : Z) :
  s1 !! c = s2 !! c →
  (c' = c →
   (checkRateLimitInMemory s1 c' t).1 = (checkRateLimitInMemory s2 c' t).1
   ∧ (checkRateLimitInMemory s1 c' t).2 !! c
     = (checkRateLimitInMemory s2 c' t).2 !! c)
  ∧ (c' ≠ c → (checkRateLimitInMemory s1 c' t).2 !! c = s2 !! c).
Proof.
  intros Heq. rewrite !check_unfold. split.
  - intros ->. rewrite Heq. case_bool_decide; [|done]. simpl.
    by rewrite !lookup_insert_eq.
  - intros Hne. case_bool_decide; [|done]. simpl.
    by rewrite lookup_insert_ne.
Qed.

Lemma run_frame (c : jsstring) (events : list event) :
  ∀ s1 s2 : gmap jsstring (list Z),
    s1 !! c = s2 !! c →
    times_of c (run s1 events).1
    = times_of c (run s2 (List.filter (concerns c) events)).1
    ∧ (run s1 events).2 !! c
      = (run s2 (List.filter (concerns c) events)).2 !! c.
Proof.
  induction events as [|[c' t|t] rest IH]; intros s1 s2 Heq.
  - done.
  - destruct (check_frame s1 s2 c c' t Heq) as [Hsame Hother].
    cbn [List.filter concerns]. case_bool_decide as Hc.
    + destruct (Hsame Hc) as [Hans Hst]. rewrite !run_call. cbn [fst snd].
      destruct (IH _ _ Hst) as [IH1 IH2].
      rewrite !times_of_app, IH1, Hans. done.
    + rewrite run_call. cbn [fst snd].
      destruct (IH _ s2 (Hother Hc)) as [IH1 IH2].
      rewrite times_of_app, times_of_answer, IH1.
      rewrite bool_decide_eq_false_2 by done. by rewrite andb_false_r.
  - cbn [List.filter concerns run]. apply IH.
    unfold sweep. by rewrite !lookup_omap, Heq.
Qed.

End LimiterRuns.

(** X17.  The limiter keeps clients apart.  Whatever calls for other
    clients come in between, a client's calls get the answers they
    would get without them: the allowed calls of a client, and what is
    recorded for it at the end, are those of the run in which only its
    own calls and the sweeps take place. *)
Theorem limiter_isolation (store : gmap jsstring (list Z)) (clientId : jsstring)
    (events : list event) :
  times_of clientId (run store events).1
  = times_of clientId (run store (List.filter (concerns clientId) events)).1
  ∧ (run store events).2 !! clientId
    = (run store (List.filter (concerns clientId) events)).2 !! clientId.
Proof. by apply run_frame. Qed.

Section LimiterWindow.
Import Limiter.

Lemma clock_monotone_cons (e : event) (events : list event) :
  clock_monotone (e :: events) →
  (∀ b, b ∈ events → at_time e ≤ at_time b) ∧ clock_monotone events.
Proof.
  intros Hm. split.
  - intros b [j Hj]%list_elem_of_lookup.
    apply (Hm 0%nat (S j) e b); [lia|done|done].
  - intros i j a b Hij Ha Hb. apply (Hm (S i) (S j) a b); [lia|done|done].
Qed.

Lemma filter_length_le (P Q : Z → Prop) `{∀ x, Decision (P x)}
    `{∀ x, Decision (Q x)} (l : list Z) :
  (∀ x, P x → Q x) → (length (filter P l) ≤ length (filter Q l))%nat.
Proof.
  intros Himp. induction l as [|x l IH]; [done|].
  destruct (decide (P x)) as [HP|HP].
  - rewrite (filter_cons_True P) by done.
    rewrite (filter_cons_True Q) by auto. simpl. lia.
  - rewrite (filter_cons_False P) by done.
    destruct (decide (Q x)).
    + rewrite (filter_cons_True Q) by done. simpl. lia.
    + by rewrite (filter_cons_False Q).
Qed.

(** Where two stores agree on the timestamps still within the window of
    every call from [T] on, a call at or after [T] gets the same answer
    on both, and they agree in that way afterwards. *)
Lemma check_similar (s1 s2 : gmap jsstring (list Z)) (T : Z) (c : jsstring)
    (t : Z) :
  (∀ c now, T ≤ now →
     filter (λ time, now - time < 60000) (default [] (s1 !! c))
     = filter (λ time, now - time < 60000) (default [] (s2 !! c))) →
  T ≤ t →
  (checkRateLimitInMemory s1 c t).1 = (checkRateLimitInMemory s2 c t).1
  ∧ ∀ c' now, t ≤ now →
      filter (λ time, now - time < 60000)
        (default [] ((checkRateLimitInMemory s1 c t).2 !! c'))
      = filter (λ time, now - time < 60000)
          (default [] ((checkRateLimitInMemory s2 c t).2 !! c')).
Proof.
  intros Hsim Ht. rewrite !check_unfold, (Hsim c t Ht).
  case_bool_decide; simpl.
  - split; [done|]. intros c' now Hnow.
    destruct (decide (c' = c)) as [->|Hne].
    + by rewrite !lookup_insert_eq.
    + rewrite !lookup_insert_ne by done. apply Hsim. lia.
  - split; [done|]. intros c' now Hnow. apply Hsim. lia.
Qed.

Lemma run_similar (events : list event) :
  ∀ (s1 s2 : gmap jsstring (list Z)) (T : Z),
    (∀ e, e ∈ events → T ≤ at_time e) →
    clock_monotone events →
    (∀ c now, T ≤ now →
       filter (λ time, now - time < 60000) (default [] (s1 !! c))
       = filter (λ time, now - time < 60000) (default [] (s2 !! c))) →
    (run s1 events).1 = (run s2 (List.filter is_call events)).1.
Proof.
  induction events as [|[c t|t] rest IH]; intros s1 s2 T Hlow Hmono Hsim.
  - done.
  - apply clock_monotone_cons in Hmono as [Hfirst Hmono].
    assert (T ≤ t) as Ht by (apply (Hlow (Call c t)); by left).
    destruct (check_similar s1 s2 T c t Hsim Ht) as [Hans Hsim'].
    cbn [List.filter is_call]. rewrite !run_call. cbn [fst].
    rewrite Hans. f_equal. by apply (IH _ _ t).
  - apply clock_monotone_cons in Hmono as [Hfirst Hmono].
    assert (T ≤ t) as Ht by (apply (Hlow (Sweep t)); by left).
    cbn [List.filter is_call run]. apply (IH _ _ t); [done|done|].
    intros c now Hnow. rewrite sweep_lookup.
    rewrite filter_window_twice by done. apply Hsim. lia.
Qed.

(** The invariant of a run under a clock that does not go back: what is
    recorded for a client and the times of its allowed calls hold the
    same timestamps within the window of any later call; and no window
    holds more than ten of the allowed calls. *)
Lemma run_window (events : list event) :
  ∀ (store : gmap jsstring (list Z)) (allowed0 : list (jsstring * Z)) (T : Z),
    (∀ e, e ∈ events → T ≤ at_time e) →
    clock_monotone events →
    (∀ c now, T ≤ now →
       filter (λ time, now - time < 60000) (default [] (store !! c))
       = filter (λ time, now - time < 60000) (times_of c allowed0)) →
    (∀ c t, (length (in_window t (times_of c allowed0)) ≤ 10)%nat) →
    ∀ c t, (length (in_window t (times_of c (allowed0 ++ (run store events).1)))
            ≤ 10)%nat.
Proof.
  induction events as [|[c0 t0|t0] rest IH];
    intros store allowed0 T Hlow Hmono Hrec Hbound c t.
  - cbn [run fst]. rewrite app_nil_r. apply Hbound.
  - apply clock_monotone_cons in Hmono as [Hfirst Hmono].
    assert (T ≤ t0) as Ht by (apply (Hlow (Call c0 t0)); by left).
    rewrite run_call. cbn [fst]. rewrite app_assoc.
    rewrite check_unfold. rewrite (Hrec c0 t0 Ht).
    case_bool_decide as Hroom; cbn [fst snd].
    + apply (IH _ _ t0); [done|done|..].
      * intros c' now Hnow.
        rewrite times_of_app, (times_of_answer c' c0 true t0). simpl.
        case_bool_decide as Hc.
        -- subst c'. rewrite lookup_insert_eq. simpl.
           rewrite !filter_app, filter_window_twice by done. done.
        -- rewrite lookup_insert_ne by done. rewrite app_nil_r.
           apply Hrec. lia.
      * intros c' t'.
        rewrite times_of_app, (times_of_answer c' c0 true t0). simpl.
        case_bool_decide as Hc; [|rewrite app_nil_r; apply Hbound].
        subst c'. unfold in_window. rewrite filter_app, length_app.
        destruct (decide (t' - 60000 < t0 ∧ t0 ≤ t')) as [Hin|Hout].
        -- rewrite (filter_cons_True _ t0 []) by done. simpl.
           pose proof (filter_length_le
                         (λ x, t' - 60000 < x ∧ x ≤ t')
                         (λ time, t0 - time < 60000)
                         (times_of c0 allowed0)) as Hle.
           cbv beta in Hle. specialize (Hle ltac:(intros; lia)). lia.
        -- rewrite (filter_cons_False _ t0 []) by done. simpl.
           specialize (Hbound c0 t'). unfold in_window in Hbound. lia.
    + rewrite app_nil_r. apply (IH _ _ t0); try done.
      intros c' now Hnow. apply Hrec. lia.
  - apply clock_monotone_cons in Hmono as [Hfirst Hmono].
    assert (T ≤ t0) as Ht by (apply (Hlow (Sweep t0)); by left).
    cbn [run]. apply (IH _ _ t0); try done.
    intros c' now Hnow. rewrite sweep_lookup.
    rewrite filter_window_twice by done. apply Hrec. lia.
Qed.

Lemma run_stored (events : list event) :
  ∀ store : gmap jsstring (list Z),
    (∀ c l, store !! c = Some l → (0 < length l ≤ 10)%nat) →
    ∀ c l, (run store events).2 !! c = Some l → (0 < length l ≤ 10)%nat.
Proof.
  induction events as [|[c0 t0|t0] rest IH]; intros store Hinv.
  - done.
  - rewrite run_call. cbn [snd]. apply IH. rewrite check_unfold.
    case_bool_decide as Hroom; [|done]. simpl.
    intros c l. destruct (decide (c = c0)) as [->|Hne].
    + rewrite lookup_insert_eq. intros [= <-]. rewrite length_app. simpl. lia.
    + rewrite lookup_insert_ne by done. apply Hinv.
  - cbn [run]. apply IH. intros c l. unfold sweep. rewrite lookup_omap.
    destruct (store !! c) as [l0|] eqn:Hl0; [|done]. simpl.
    case_bool_decide as Hempty; [done|]. intros [= <-].
    pose proof (length_filter (λ time, t0 - time < 60000) l0).
    specialize (Hinv c l0 Hl0). lia.
Qed.

End LimiterWindow.

(** X16.  While the clock does not go back, the in-memory limiter
    allows a client at most ten calls in any window of 60000 ms,
    whatever the other clients do and whenever the sweep runs: among the
    calls of a client that were allowed, no more than ten have their
    time in the window ending at [t], for any [t]. *)
Theorem limiter_window_bound (events : list event) (clientId : jsstring) (t : Z) :
  clock_monotone events →
  (length (in_window t (times_of clientId (run ∅ events).1)) ≤ 10)%nat.
Proof.
  intros Hmono. destruct events as [|e rest]; [simpl; lia|].
  apply (run_window (e :: rest) ∅ [] (at_time e)); [|done|done|simpl; lia].
  intros b [->|Hb]%elem_of_cons; [lia|].
  by apply (clock_monotone_cons e rest Hmono).
Qed.

(** X18.  While the clock does not go back, the sweep cannot be
    observed: the calls get the answers they would get if the sweep
    never ran. *)
Theorem sweep_unobservable (store : gmap jsstring (list Z)) (events : list event) :
  clock_monotone events →
  (run store events).1 = (run store (List.filter is_call events)).1.
Proof.
  intros Hmono. destruct events as [|e rest]; [done|].
  apply (run_similar (e :: rest) store store (at_time e)); [|done|done].
  intros b [->|Hb]%elem_of_cons; [lia|].
  by apply (clock_monotone_cons e rest Hmono).
Qed.

(** X19.  From the empty store on, the limiter keeps between one and
    ten timestamps for every client it keeps an entry for, whatever the
    calls, the sweeps and the readings of the clock. *)
Theorem limiter_store_bounded (events : list event) (clientId : jsstring)
    (requests : list Z) :
  (run ∅ events).2 !! clientId = Some requests →
  (0 < length requests ≤ 10)%nat.
Proof. apply run_stored. intros c l. by rewrite lookup_empty. Qed.

(** ** Runs of the further properties on concrete inputs *)

Lemma clock_monotone_nil : clock_monotone [].
Proof. intros i j a b _ Ha. by rewrite lookup_nil in Ha. Qed.

Lemma clock_monotone_step (e : event) (events : list event) :
  Forall (λ b, at_time e ≤ at_time b) events →
  clock_monotone events → clock_monotone (e :: events).
Proof.
  intros Hall Hm i j a b Hij Ha Hb.
  destruct i as [|i], j as [|j]; simpl in *.
  - injection Ha as <-. injection Hb as <-. lia.
  - injection Ha as <-.
    apply (proj1 (Forall_forall _ _) Hall b). by eapply list_elem_of_lookup_2.
  - lia.
  - apply (Hm i j a b); [lia|done|done].
Qed.

Lemma limiter_window_bound_witness :
  (length (in_window 60001
             (times_of client
                (run ∅ [Call client 0; Call typo 10; Sweep 60000;
                        Call client 60001]).1)) ≤ 10)%nat.
Proof.
  apply limiter_window_bound.
  repeat (apply clock_monotone_step; [repeat constructor; simpl; lia|]).
  apply clock_monotone_nil.
Defined.

Lemma sweep_unobservable_witness :
  (run ∅ [Call client 0; Call typo 10; Sweep 60000; Call client 60001]).1
  = (run ∅ [Call client 0; Call typo 10; Call client 60001]).1.
Proof.
  apply (sweep_unobservable ∅
           [Call client 0; Call typo 10; Sweep 60000; Call client 60001]).
  repeat (apply clock_monotone_step; [repeat constructor; simpl; lia|]).
  apply clock_monotone_nil.
Defined.

Lemma limiter_store_bounded_witness :
  (run ∅ [Call client 0; Call typo 10; Sweep 60000; Call client 60001]).2
    !! client = Some [60001]
  ∧ (0 < length [60001%Z] ≤ 10)%nat.
Proof.
  split; [reflexivity|].
  apply (limiter_store_bounded
           [Call client 0; Call typo 10; Sweep 60000; Call client 60001] client).
  reflexivity.
Defined.

Lemma candidate_strings (category message before after : jsstring)
    (start end_ : Z) (k : jsstring) (v : value) :
  k ∈ [k_before; k_message; k_after] →
  candidate category message before after start end_ !! k = Some v →
  ∃ s, v = JStr s.
Proof.
  rewrite !elem_of_cons, elem_of_nil. unfold candidate.
  intros [->|[->|[->|[]]]].
  - rewrite lookup_insert_ne, lookup_insert_ne, lookup_insert_eq by done.
    intros [= <-]. by eexists.
  - rewrite lookup_insert_ne, lookup_insert_eq by done.
    intros [= <-]. by eexists.
  - rewrite lookup_insert_ne, lookup_insert_ne, lookup_insert_ne,
      lookup_insert_eq by done.
    intros [= <-]. by eexists.
Qed.

Lemma reconcile_returns_witness :
  ∃ out, reconcile lower_latin clock0 text_sya [JObj cand_sya; JObj cand_a_mk]
         = Ok out.
Proof.
  apply reconcile_returns. intros o k v Ho Hk Hv.
  rewrite !elem_of_cons, elem_of_nil in Ho.
  destruct Ho as [[= ->]|[[= ->]|[]]]; by eapply candidate_strings.
Defined.


Lemma tier2_repair_unitwise_witness :
  ∃ i, nearest_to (occurs_at (map lower_ascii_unit text_sya)
                     (map lower_ascii_unit (lit "sya"))) 0 i
       ∧ locate lower_latin text_sya cand_sya 0 3
         = Ok (Some (i, i + len (lit "sya"),
                     slice text_sya i (i + len (lit "sya"))))
       ∧ map lower_ascii_unit (slice text_sya i (i + len (lit "sya")))
         = map lower_ascii_unit (lit "sya")
       ∧ 0 ≤ i ∧ i + len (lit "sya") ≤ len text_sya.
Proof.
  apply (tier2_repair_unitwise lower_latin lower_ascii_unit text_sya cand_sya
           (lit "sya") 0 3).
  - reflexivity.
  - reflexivity.
  - reflexivity.
  - done.
  - intros H. apply (f_equal head) in H. vm_compute in H. discriminate.
  - intros i (H0 & Hle & Hs).
    change (len (lit "sya")) with 3 in *. change (len text_sya) with 12 in *.
    assert (i = 0 ∨ i = 1 ∨ i = 2 ∨ i = 3 ∨ i = 4 ∨ i = 5 ∨ i = 6 ∨ i = 7
            ∨ i = 8 ∨ i = 9) as Hi by lia.
    repeat (destruct Hi as [->|Hi]; [vm_compute in Hs; discriminate|]).
    subst i. vm_compute in Hs. discriminate.
  - exists 0. split_and!; [lia|by vm_compute|reflexivity].
Defined.

(** ** Validation of the request body *)

Section Validation.
Import Endpoint.

Lemma validateRequest_object (o : gmap jsstring value) :
  validateRequest (Some (JObj o))
  = match o !! k_text with
    | Some (JStr t) =>
        if negb (truthy (Some (JStr t))) then Invalid text_required
        else if len t =? 0 then Invalid text_empty
        else if len t >? MAX_TEXT_LENGTH then Invalid text_too_long
        else if truthy (o !! k_version)
                && negb (same_string version_1_0 (o !! k_version))
        then Invalid (lit "Unsupported API version")
        else Valid
    | _ => Invalid text_required
    end.
Proof.
  unfold validateRequest. cbn [truthy negb Gateway.access_opt Gateway.member].
  by destruct (o !! k_text) as [[]|].
Qed.

Lemma validateRequest_other (data : option value) :
  (∀ o, data ≠ Some (JObj o)) → validateRequest data ≠ Valid.
Proof.
  intros Hno. destruct data as [[|[]|n|s|l|o]|]; try done.
  - unfold validateRequest. by destruct (truthy (Some (JNum n))).
  - unfold validateRequest. by destruct (truthy (Some (JStr s))).
  - by destruct (Hno o).
Qed.

End Validation.

Lemma validateRequest_accepts (data : option value) :
  Endpoint.validateRequest data = Endpoint.Valid →
  ∃ o t, data = Some (JObj o)
         ∧ o !! Endpoint.k_text = Some (JStr t)
         ∧ 1 ≤ len t ≤ 12000
         ∧ (truthy (o !! Endpoint.k_version) = false
            ∨ o !! Endpoint.k_version = Some (JStr Endpoint.version_1_0)).
Proof.
  intros Hv.
  assert (∃ o, data = Some (JObj o)) as [o ->].
  { destruct data as [[| | | | |o]|];
      try (exfalso; revert Hv; by apply validateRequest_other).
    by exists o. }
  rewrite validateRequest_object in Hv.
  destruct (o !! Endpoint.k_text) as [[| | |t| |]|] eqn:Ht; try done.
  destruct t as [|c t]; [done|]. cbn [truthy negb] in Hv.
  destruct (Z.eqb_spec (len (c :: t)) 0) as [|Hne]; [done|].
  unfold Endpoint.MAX_TEXT_LENGTH in Hv.
  destruct (Z.gtb_spec (len (c :: t)) 12000) as [|Hmax]; [done|].
  exists o, (c :: t). split_and!; [done|done|unfold len in *; simpl in *; lia|lia|].
  destruct (truthy (o !! Endpoint.k_version)) eqn:Htv; [|by left]. right.
  cbn [andb] in Hv.
  destruct (o !! Endpoint.k_version) as [[| | |s| |]|]; try done.
  simpl in Hv. case_bool_decide as Hs; [by subst s|done].
Qed.

(** X24.  [validateRequest] accepts a body exactly when it is an object
    whose [text] is a string of 1 to 12000 units and whose [version] is
    falsy or the string [1.0]; no other entry of the body is read, and a
    body that is not an object is never accepted. *)
Theorem validateRequest_valid (data : option value) :
  Endpoint.validateRequest data = Endpoint.Valid ↔
  ∃ o t, data = Some (JObj o)
         ∧ o !! Endpoint.k_text = Some (JStr t)
         ∧ 1 ≤ len t ≤ 12000
         ∧ (truthy (o !! Endpoint.k_version) = false
            ∨ o !! Endpoint.k_version = Some (JStr Endpoint.version_1_0)).
Proof.
  split; [apply validateRequest_accepts|].
  intros (o & t & -> & Ht & [Hlo Hhi] & Hver).
  rewrite validateRequest_object, Ht.
  assert (t ≠ []) as Hne by (intros ->; unfold len in Hlo; simpl in Hlo; lia).
  replace (truthy (Some (JStr t))) with true by (by destruct t).
  cbn [negb]. unfold Endpoint.MAX_TEXT_LENGTH.
  destruct (Z.eqb_spec (len t) 0) as [|_]; [lia|].
  destruct (Z.gtb_spec (len t) 12000) as [|_]; [lia|].
  destruct Hver as [->| ->]; [done|]. reflexivity.
Qed.

(** X25.  The answer [Text cannot be empty] is never given: a body
    whose [text] is the empty string is answered with [Text field is
    required and must be a string], since the empty string is falsy. *)
Theorem validateRequest_empty_text (data : option value) :
  Endpoint.validateRequest data ≠ Endpoint.Invalid Endpoint.text_empty
  ∧ ∀ o, o !! Endpoint.k_text = Some (JStr []) →
         Endpoint.validateRequest (Some (JObj o))
         = Endpoint.Invalid Endpoint.text_required.
Proof.
  split; cycle 1.
  { intros o Ho. by rewrite validateRequest_object, Ho. }
  assert (Endpoint.text_required ≠ Endpoint.text_empty) as Hreq by done.
  assert (Endpoint.Invalid (lit "Request body is required")
          ≠ Endpoint.Invalid Endpoint.text_empty) as Hbody by done.
  assert (Endpoint.Invalid Endpoint.text_required
          ≠ Endpoint.Invalid Endpoint.text_empty) as Hreq' by congruence.
  destruct data as [[|[]|n|s|l|o]|]; try done.
  - unfold Endpoint.validateRequest. by destruct (truthy (Some (JNum n))).
  - unfold Endpoint.validateRequest. by destruct (truthy (Some (JStr s))).
  - rewrite validateRequest_object.
    destruct (o !! Endpoint.k_text) as [[| | |t| |]|]; try done.
    destruct t as [|c t]; [done|]. cbn [truthy negb].
    destruct (Z.eqb_spec (len (c :: t)) 0) as [Hz|_].
    { unfold len in Hz. simpl in Hz. lia. }
    destruct (len (c :: t) >? Endpoint.MAX_TEXT_LENGTH).
    { intros [= H]. }
    by destruct (truthy _ && _).
Qed.

(** ** The origin test and the client identifier *)

Lemma starts_with_prefix (p s : jsstring) :
  starts_with p s = true ↔ ∃ rest, s = p ++ rest.
Proof.
  rewrite starts_with_spec. split.
  - intros Hp. exists (drop (length p) s). by rewrite <- Hp at 1; rewrite take_drop.
  - intros [rest ->]. by rewrite take_app_length.
Qed.

Lemma String_includes_spec (s n : jsstring) :
  n ≠ [] →
  Endpoint.String_includes s n = true ↔ ∃ pre suf, s = pre ++ n ++ suf.
Proof.
  intros Hn. unfold Endpoint.String_includes. rewrite negb_true_iff, Z.eqb_neq.
  split.
  - intros Hhit. destruct (indexOf_hit s n 0 _ eq_refl Hhit) as (_ & [Hi Hs] & _).
    apply starts_with_prefix in Hs as [suf Hs].
    exists (take (Z.to_nat (indexOf s n 0)) s), suf.
    by rewrite <- Hs, take_drop.
  - intros (pre & suf & ->) Hmiss.
    apply (indexOf_miss _ _ _ Hmiss (len pre)); [apply len_nonneg|].
    split; [apply len_nonneg|]. unfold len. rewrite Nat2Z.id, drop_app_length.
    apply starts_with_prefix. by exists suf.
Qed.

(** X23.  [isAllowedOrigin] accepts the empty origin, the origins that
    start with [chrome-extension://] or [moz-extension://], and every
    origin that has [localhost] or [127.0.0.1] anywhere in it; it
    accepts no other. *)
Theorem isAllowedOrigin_spec (origin : jsstring) :
  Endpoint.isAllowedOrigin origin = true ↔
  origin = []
  ∨ (∃ rest, origin = lit "chrome-extension://" ++ rest)
  ∨ (∃ rest, origin = lit "moz-extension://" ++ rest)
  ∨ (∃ pre suf, origin = pre ++ lit "localhost" ++ suf)
  ∨ (∃ pre suf, origin = pre ++ lit "127.0.0.1" ++ suf).
Proof.
  destruct origin as [|c origin]; [split; [by left|done]|].
  assert (Endpoint.isAllowedOrigin (c :: origin)
          = Endpoint.startsWith (c :: origin) (lit "chrome-extension://")
            || Endpoint.startsWith (c :: origin) (lit "moz-extension://")
            || Endpoint.String_includes (c :: origin) (lit "localhost")
            || Endpoint.String_includes (c :: origin) (lit "127.0.0.1")) as ->.
  { unfold Endpoint.isAllowedOrigin, Endpoint.ALLOWED_ORIGINS. cbn [existsb].
    change (Endpoint.endsWith (lit "chrome-extension://") Endpoint.scheme_end)
      with true.
    change (Endpoint.endsWith (lit "moz-extension://") Endpoint.scheme_end)
      with true.
    change (Endpoint.endsWith (lit "localhost") Endpoint.scheme_end) with false.
    change (Endpoint.endsWith (lit "127.0.0.1") Endpoint.scheme_end) with false.
    cbv iota. by rewrite orb_false_r, !orb_assoc. }
  rewrite !orb_true_iff. unfold Endpoint.startsWith.
  rewrite !starts_with_prefix, !String_includes_spec by done.
  split.
  - intros [[[H|H]|H]|H]; auto.
  - intros [H|[H|[H|[H|H]]]]; auto. done.
Qed.

(** X22.  [getClientId] never answers the empty string.  It throws
    exactly when the request has no [connection] object and no non-empty
    [x-forwarded-for] header.  With such a header the answer is what
    stands in it before the first comma, white space included, or
    [unknown] when it starts with a comma; the remote address is not
    looked at. *)
Theorem getClientId_spec (r : Endpoint.req) :
  (∀ id, Endpoint.getClientId r = Ok id → id ≠ [])
  ∧ Endpoint.getClientId r ≠ Hangs
  ∧ (Endpoint.getClientId r = Throws ↔
     Endpoint.connection r = None
     ∧ (Endpoint.headers r !! Endpoint.k_x_forwarded_for = None
        ∨ Endpoint.headers r !! Endpoint.k_x_forwarded_for = Some []))
  ∧ (∀ forwarded,
       Endpoint.headers r !! Endpoint.k_x_forwarded_for = Some forwarded →
       forwarded ≠ [] →
       ∃ field rest,
         forwarded = field ++ rest
         ∧ (comma ∉ field)
         ∧ (rest = [] ∨ ∃ rest', rest = comma :: rest')
         ∧ Endpoint.getClientId r
           = Ok (if bool_decide (field = []) then Endpoint.unknown else field)).
Proof.
  assert (∀ s, ∃ rest, s = Endpoint.before_comma s ++ rest
                       ∧ (comma ∉ Endpoint.before_comma s)
                       ∧ (rest = [] ∨ ∃ rest', rest = comma :: rest')) as Hsplit.
  { induction s as [|c s (rest & Hs & Hno & Hrest)]; simpl.
    - exists []. split_and!; [done|apply not_elem_of_nil|by left].
    - destruct (N.eqb_spec c comma) as [->|Hc].
      + exists (comma :: s). split_and!; [done|apply not_elem_of_nil|right; by eexists].
      + exists rest. split_and!; [by rewrite Hs at 1|
                                   |done].
        apply not_elem_of_cons. split; [congruence|done]. }
  unfold Endpoint.getClientId. unbind.
  destruct (Endpoint.headers r !! Endpoint.k_x_forwarded_for) as [[|c f]|] eqn:Hf.
  - destruct (Endpoint.connection r) as [[[|d a]|]|]; split_and!;
      try done; try (by intros id [= <-]); try (by intros forwarded [= <-] ?);
      try (split; [done|by intros [? _]]);
      try (split; [intros _; split; [done|(by left) || (by right)]|done]).
  - split_and!.
    + intros id. destruct (Endpoint.before_comma (c :: f)); by intros [= <-].
    + done.
    + split; [done|]. by intros [_ [?|?]].
    + intros forwarded [= <-] _.
      destruct (Hsplit (c :: f)) as (rest & Hs & Hno & Hrest).
      exists (Endpoint.before_comma (c :: f)), rest. split_and!; [done..|].
      by destruct (Endpoint.before_comma (c :: f)).
  - destruct (Endpoint.connection r) as [[[|d a]|]|]; split_and!;
      try done; try (by intros id [= <-]); try (by intros forwarded [= <-] ?);
      try (split; [done|by intros [? _]]);
      try (split; [intros _; split; [done|(by left) || (by right)]|done]).
Qed.

(** ** The delegating limiter *)

Section Delegator.
Import Endpoint.

Variable StringToNumber : jsstring → option Q.
Variable W : Type.
Variable fetch_kv : kv_request → W → Gateway.fetched * W.

Lemma Qle_bool_inject (a b : Z) : Qle_bool (inject_Z a) (inject_Z b) = (a <=? b).
Proof. unfold Qle_bool, inject_Z. simpl. by rewrite !Z.mul_1_r. Qed.

Lemma checkRateLimit_configured (cfg : config) (url token clientId : jsstring)
    (t : Z) (store : gmap jsstring (list Z)) (w : Gateway.world W) :
  KV_REST_API_URL cfg = Some url → url ≠ [] →
  KV_REST_API_TOKEN cfg = Some token → token ≠ [] →
  checkRateLimit StringToNumber W fetch_kv cfg clientId t store w
  = match checkRateLimitUpstash StringToNumber W fetch_kv url token clientId w with
    | (Some allowed, w') => (allowed, store, w')
    | (None, w') =>
        ((Limiter.checkRateLimitInMemory store clientId t).1,
         (Limiter.checkRateLimitInMemory store clientId t).2, w')
    end.
Proof.
  intros Hu Hune Ht Htne. unfold checkRateLimit. rewrite Hu, Ht.
  destruct url as [|c url]; [done|]. destruct token as [|d token]; [done|].
  destruct (checkRateLimitUpstash _ _ _ _ _ _ _) as [[allowed|] w']; [done|].
  by destruct (Limiter.checkRateLimitInMemory store clientId t).
Qed.

Lemma checkRateLimit_unconfigured (cfg : config) (clientId : jsstring) (t : Z)
    (store : gmap jsstring (list Z)) (w : Gateway.world W) :
  KV_REST_API_URL cfg = None ∨ KV_REST_API_URL cfg = Some []
  ∨ KV_REST_API_TOKEN cfg = None ∨ KV_REST_API_TOKEN cfg = Some [] →
  checkRateLimit StringToNumber W fetch_kv cfg clientId t store w
  = ((Limiter.checkRateLimitInMemory store clientId t).1,
     (Limiter.checkRateLimitInMemory store clientId t).2, w).
Proof.
  unfold checkRateLimit.
  destruct (Limiter.checkRateLimitInMemory store clientId t) as [allowed store'].
  intros [->|[->|[->| ->]]]; try done;
    by destruct (KV_REST_API_URL cfg) as [[|c url]|].
Qed.

End Delegator.

(** X20.  [checkRateLimit] answers with the in-memory limiter, and
    records the call there, whenever Upstash does not give an answer:
    when its URL or its token is not set (nothing is sent then), and when
    the request to it fails, is answered with a status that is not ok, or
    is answered with a body that is not JSON. *)
Theorem checkRateLimit_fallback (StringToNumber : jsstring → option Q)
    (W : Type) (fetch_kv : Endpoint.kv_request → W → Gateway.fetched * W)
    (cfg : Endpoint.config) (clientId : jsstring) (t : Z)
    (store : gmap jsstring (list Z)) (w : Gateway.world W) :
  (Endpoint.KV_REST_API_URL cfg = None ∨ Endpoint.KV_REST_API_URL cfg = Some []
   ∨ Endpoint.KV_REST_API_TOKEN cfg = None
   ∨ Endpoint.KV_REST_API_TOKEN cfg = Some [] →
   Endpoint.checkRateLimit StringToNumber W fetch_kv cfg clientId t store w
   = ((Limiter.checkRateLimitInMemory store clientId t).1,
      (Limiter.checkRateLimitInMemory store clientId t).2, w))
  ∧ (∀ url token r n,
       Endpoint.KV_REST_API_URL cfg = Some url → url ≠ [] →
       Endpoint.KV_REST_API_TOKEN cfg = Some token → token ≠ [] →
       fetch_kv (Endpoint.KvRequest (Endpoint.strip_slash url ++ lit "/pipeline")
                   token (lit "periksakata:rl:" ++ clientId) 60)
         (Gateway.net w) = (r, n) →
       (∀ status results, r ≠ Gateway.Response true status (Some results)) →
       Endpoint.checkRateLimit StringToNumber W fetch_kv cfg clientId t store w
       = ((Limiter.checkRateLimitInMemory store clientId t).1,
          (Limiter.checkRateLimitInMemory store clientId t).2,
          Gateway.World n (Gateway.sent w))).
Proof.
  split; [apply checkRateLimit_unconfigured|].
  intros url token r n Hu Hune Ht Htne Hfetch Hbad.
  rewrite (checkRateLimit_configured _ _ _ _ url token) by done.
  unfold Endpoint.checkRateLimitUpstash.
  change Endpoint.ttlSec with 60. rewrite Hfetch.
  destruct r as [|[] status [results|]]; try done.
  by destruct (Hbad status results).
Qed.

(** X21.  With Upstash set up and answering with JSON, its counter
    decides alone and the in-memory store is left as it is: a numeric
    [result] in the first element of the answer allows the call exactly
    when it is at most 10.  An answer without such a [result] (an error
    object in place of the array, an element that reports an [error], a
    [null] result) counts as 0, so the call is allowed. *)
Theorem checkRateLimit_upstash (StringToNumber : jsstring → option Q)
    (W : Type) (fetch_kv : Endpoint.kv_request → W → Gateway.fetched * W)
    (cfg : Endpoint.config) (clientId : jsstring) (t : Z)
    (store : gmap jsstring (list Z)) (w : Gateway.world W)
    (url token : jsstring) (status : Z) (results : value) (n : W) :
  Endpoint.KV_REST_API_URL cfg = Some url → url ≠ [] →
  Endpoint.KV_REST_API_TOKEN cfg = Some token → token ≠ [] →
  fetch_kv (Endpoint.KvRequest (Endpoint.strip_slash url ++ lit "/pipeline")
              token (lit "periksakata:rl:" ++ clientId) 60)
    (Gateway.net w) = (Gateway.Response true status (Some results), n) →
  let result :=
    Gateway.access_opt (λ v, Gateway.member v Endpoint.k_result)
      (Gateway.access_opt Gateway.first (Some results)) in
  (∀ incr, result = Some (JNum incr) →
     Endpoint.checkRateLimit StringToNumber W fetch_kv cfg clientId t store w
     = (incr <=? 10, store, Gateway.World n (Gateway.sent w)))
  ∧ (result = None ∨ result = Some JNull →
     Endpoint.checkRateLimit StringToNumber W fetch_kv cfg clientId t store w
     = (true, store, Gateway.World n (Gateway.sent w))).
Proof.
  intros Hu Hune Ht Htne Hfetch result.
  rewrite (checkRateLimit_configured _ _ _ _ url token) by done.
  unfold Endpoint.checkRateLimitUpstash.
  change Endpoint.ttlSec with 60. rewrite Hfetch. fold result.
  split.
  - intros incr ->. cbn [Endpoint.Number_].
    by rewrite Qle_bool_inject.
  - by intros [-> | ->].
Qed.

Lemma checkRateLimit_fallback_witness :
  Endpoint.checkRateLimit no_number nat fetch_none cfg_key client 0 ∅
    (Gateway.World 0%nat [])
  = (true, {[ client := [0] ]}, Gateway.World 0%nat []).
Proof.
  rewrite (proj1 (checkRateLimit_fallback no_number nat fetch_none cfg_key
                    client 0 ∅ (Gateway.World 0%nat []))); [reflexivity|].
  by left.
Defined.

(** ** The gateway as a whole *)

Section GatewayRuns.
Import Gateway.

Variable toLowerCase : jsstring → jsstring.
Variable now : nat → Z.
Variable JSON_parse : jsstring → option value.
Variable W : Type.
Variable fetch : request → W → fetched * W.

(** What the loop returns is anchored and holds at most twenty. *)
Lemma reconcile_well_formed (text : jsstring) (suggestions : list value)
    (out : list (gmap jsstring value)) :
  reconcile toLowerCase now text suggestions = Ok out →
  (length out ≤ 20)%nat ∧ Forall (anchored text) out.
Proof.
  intros Hrun. split.
  - rewrite reconcile_flow in Hrun. unbind.
    destruct (loop_flow _ _ _ _ _ _) as [f| |] eqn:Hf; try done.
    injection Hrun as <-. apply loop_flow_cap in Hf; [|done].
    unfold len_list in Hf. destruct f; simpl; lia.
  - apply reconcile_Ok in Hrun as (st & Hloop & ->).
    refine (loop_invariant toLowerCase now
              (λ st, Forall (anchored text) (processedSuggestions st))
              text _ suggestions 0%nat (State [] []) st _ Hloop); [|constructor].
    intros i c st0 f. apply iteration_anchored.
Qed.

Lemma access_returns (f : value → option value) (v : option value) :
  access f v ≠ Hangs.
Proof. by destruct v as [[]|]. Qed.

Lemma first_content_returns (data : value) : first_content data ≠ Hangs.
Proof.
  unfold first_content. unbind.
  repeat match goal with
         | |- context [access ?f ?v] =>
             let H := fresh in
             destruct (access f v) eqn:H;
             [|done|by destruct (access_returns f v)]
         | |- context [if ?x then _ else _] => destruct x; [done|]
         end.
  done.
Qed.

(** The ways a call of the gateway can go. *)
Lemma check_cases (text : jsstring) (w : world W) :
  let res := checkTextWithOpenAI toLowerCase now JSON_parse W fetch text w in
  (∃ rest, sent res.2 = sent w ++ first_request text :: rest
           ∧ (rest = [] ∨ rest = [retry_request text]))
  ∧ (res.1 = Ok [] ∨ res.1 = Throws
     ∨ ∃ parsed, res.1 = reconcile toLowerCase now text (suggestions_of parsed)).
Proof.
  unfold checkTextWithOpenAI, send. fold (first_request text).
  destruct (fetch (first_request text) (net w)) as [r n1].
  destruct r as [|[] status [data|]];
    try (split; [exists []; split; [done|by left]|right; by left]).
  destruct (first_content data) as [content| |] eqn:Hcontent;
    try (split; [exists []; split; [done|by left]|right; by left]).
  - destruct (tryParseJSONWithRepair JSON_parse content) as [parsed|].
    { split; [exists []; split; [done|by left]|right; right; by exists parsed]. }
    pose proof (strictRetryJSON_sent W fetch text
                  (World n1 (sent w ++ [first_request text]))) as Hsent.
    destruct (strictRetryJSON W fetch text _) as [[v|] w2]; simpl in Hsent.
    + destruct (tryParseJSONWithRepair JSON_parse (Some v)) as [parsed|]; simpl;
        (split; [exists [retry_request text];
                 split; [by rewrite Hsent, <- app_assoc|by right]|]).
      * right; right; by exists parsed.
      * by left.
    + simpl. split; [|by left].
      exists [retry_request text]. split; [by rewrite Hsent, <- app_assoc|by right].
  - by destruct (first_content_returns data).
Qed.

End GatewayRuns.

(** X14.  Whatever the network and the model answer, a call of the
    gateway sends the first request, then at most the strict retry, and
    nothing else.  When the first request fails, is answered with a
    status that is not ok, with a body that is not JSON, or with JSON in
    which [choices[0].message.content] cannot be read, the call throws
    and no retry is made.  When the call returns, it returns at most
    twenty suggestions, each anchored in the text. *)
Theorem checkTextWithOpenAI_requests (toLowerCase : jsstring → jsstring)
    (now : nat → Z) (JSON_parse : jsstring → option value) (W : Type)
    (fetch : Gateway.request → W → Gateway.fetched * W)
    (text : jsstring) (w : Gateway.world W) :
  let res :=
    Gateway.checkTextWithOpenAI toLowerCase now JSON_parse W fetch text w in
  (∃ rest, Gateway.sent res.2 = Gateway.sent w ++ first_request text :: rest
           ∧ (rest = [] ∨ rest = [retry_request text]))
  ∧ (∀ r n, fetch (first_request text) (Gateway.net w) = (r, n) →
       (∀ status data, r ≠ Gateway.Response true status (Some data)) →
       res = (Throws, Gateway.World n (Gateway.sent w ++ [first_request text])))
  ∧ (∀ status data n,
       fetch (first_request text) (Gateway.net w)
       = (Gateway.Response true status (Some data), n) →
       Gateway.first_content data = Throws →
       res = (Throws, Gateway.World n (Gateway.sent w ++ [first_request text])))
  ∧ (∀ out, res.1 = Ok out →
       (length out ≤ 20)%nat ∧ ∀ s, s ∈ out → anchored text s).
Proof.
  cbv zeta. split_and!.
  - apply check_cases.
  - intros r n Hfetch Hbad. unfold Gateway.checkTextWithOpenAI, Gateway.send.
    fold (first_request text). rewrite Hfetch.
    destruct r as [|[] status [data|]]; try done. by destruct (Hbad status data).
  - intros status data n Hfetch Hcontent.
    unfold Gateway.checkTextWithOpenAI, Gateway.send.
    fold (first_request text). by rewrite Hfetch, Hcontent.
  - intros out Hout.
    pose proof (check_cases toLowerCase now JSON_parse W fetch text w) as Hcases.
    cbv zeta in Hcases. rewrite Hout in Hcases.
    destruct Hcases as [_ [Hempty|[Hthrows|[parsed Hrun]]]].
    + injection Hempty as ->.
      split; [simpl; lia|]. by intros s Hs%elem_of_nil.
    + done.
    + symmetry in Hrun.
      apply reconcile_well_formed in Hrun as [Hlen Hall].
      split; [done|]. by apply Forall_forall.
Qed.

(** X13.  When the content of the first answer is a string that is not
    JSON as a whole but holds a first balanced block of braces that is,
    the block is parsed in its place: no retry is sent, and the
    candidates of the block are reconciled. *)
Theorem repair_saves_retry (toLowerCase : jsstring → jsstring)
    (now : nat → Z) (JSON_parse : jsstring → option value) (W : Type)
    (fetch : Gateway.request → W → Gateway.fetched * W)
    (text : jsstring) (w : Gateway.world W) (status : Z) (data : value) (n : W)
    (pre b suf : jsstring) (parsed : value) :
  fetch (first_request text) (Gateway.net w)
  = (Gateway.Response true status (Some data), n) →
  Gateway.first_content data = Ok (Some (JStr (pre ++ b ++ suf))) →
  JSON_parse (pre ++ b ++ suf) = None →
  Gateway.open_brace ∉ pre →
  first_closed_block b →
  JSON_parse b = Some parsed →
  Gateway.checkTextWithOpenAI toLowerCase now JSON_parse W fetch text w
  = (reconcile toLowerCase now text (Gateway.suggestions_of parsed),
     Gateway.World n (Gateway.sent w ++ [first_request text])).
Proof.
  intros Hfetch Hcontent Hwhole Hpre Hblock Hparse.
  unfold Gateway.checkTextWithOpenAI, Gateway.send. fold (first_request text).
  rewrite Hfetch, Hcontent.
  assert (Gateway.tryParseJSONWithRepair JSON_parse (Some (JStr (pre ++ b ++ suf)))
          = Some parsed) as ->; [|done].
  unfold Gateway.tryParseJSONWithRepair.
  replace (Gateway.parse_any JSON_parse (Some (JStr (pre ++ b ++ suf))))
    with (JSON_parse (pre ++ b ++ suf)) by done.
  rewrite Hwhole, (extractJSONBlock_finds pre b suf Hpre Hblock).
  destruct Hblock as [[rest ->] _]. done.
Qed.

Lemma json_sya_block : first_closed_block json_sya.
Proof.
  split_and!; [by eexists|reflexivity|].
  intros m Hm. change (length json_sya) with 126%nat in Hm.
  assert (forallb (λ m, 0 <? brace_depth (take m json_sya)) (seq 1 125) = true)
    as Hall by (vm_compute; reflexivity).
  rewrite forallb_forall in Hall. apply Z.ltb_lt, Hall, in_seq. lia.
Qed.

Lemma repair_saves_retry_witness :
  Gateway.checkTextWithOpenAI lower_latin clock0 parse_sya nat fetch_wrapped
    text_sya (Gateway.World 0%nat [])
  = (Ok [sugg_sya], Gateway.World 1%nat [first_request text_sya]).
Proof.
  rewrite (repair_saves_retry lower_latin clock0 parse_sya nat fetch_wrapped
             text_sya (Gateway.World 0%nat []) 200 (reply wrapped_sya) 1%nat
             (lit "Berikut hasilnya: ") json_sya (lit " Semoga membantu.")
             (JObj {[ Gateway.k_suggestions := JArr [JObj cand_sya] ]})).
  - reflexivity.
  - reflexivity.
  - reflexivity.
  - reflexivity.
  - apply (bool_decide_unpack _). vm_compute. exact I.
  - exact json_sya_block.
  - reflexivity.
Defined.

(** ** The handler *)

Lemma getClientId_returns (r : Endpoint.req) : Endpoint.getClientId r ≠ Hangs.
Proof.
  unfold Endpoint.getClientId. unbind.
  destruct (Endpoint.headers r !! Endpoint.k_x_forwarded_for) as [[|c f]|];
    by destruct (Endpoint.connection r).
Qed.

Section HandlerFacts.
Import Endpoint.

Variable toLowerCase : jsstring → jsstring.
Variable now : nat → Z.
Variable JSON_parse : jsstring → option value.
Variable StringToNumber : jsstring → option Q.
Variable sha256_hex : jsstring → jsstring.
Variable W : Type.
Variable fetch : Gateway.request → W → Gateway.fetched * W.
Variable fetch_kv : kv_request → W → Gateway.fetched * W.

(** The limiter sends nothing to the model. *)
Lemma checkRateLimit_sent (cfg : config) (clientId : jsstring) (t : Z)
    (store : gmap jsstring (list Z)) (w : Gateway.world W) :
  Gateway.sent (checkRateLimit StringToNumber W fetch_kv cfg clientId t store w).2 = Gateway.sent w.
Proof.
  unfold checkRateLimit, checkRateLimitUpstash.
  destruct (Limiter.checkRateLimitInMemory store clientId t) as [allowed store'].
  destruct (KV_REST_API_URL cfg) as [[|c url]|]; try done.
  destruct (KV_REST_API_TOKEN cfg) as [[|d token]|]; try done.
  destruct (fetch_kv _ _) as [[|[] status [results|]] n]; try done.
  by destruct (Number_ _ _) as [[incr|]|].
Qed.

(** The handler on a POST, with the key set, from a client that can be
    identified. *)
Lemma handler_post (cfg : config) (t : Z) (r : req)
    (store : gmap jsstring (list Z)) (w : Gateway.world W)
    (key clientId : jsstring) :
  method r = lit "POST" →
  OPENAI_API_KEY cfg = Some key → key ≠ [] →
  getClientId r = Ok clientId →
  handler toLowerCase now JSON_parse StringToNumber sha256_hex W fetch
    fetch_kv cfg t r store w
  = let lim := checkRateLimit StringToNumber W fetch_kv cfg clientId t store w in
    if negb lim.1.1 then (Ok rate_limited, (lim.1.2, lim.2))
    else
      match validateRequest (body r) with
      | Invalid error =>
          (Ok (Reply 400 (Failure (lit "Invalid request") error)),
           (lim.1.2, lim.2))
      | Valid =>
          match Gateway.access_opt (λ v, Gateway.member v k_text) (body r) with
          | Some (JStr text) =>
              let chk := Gateway.checkTextWithOpenAI toLowerCase now JSON_parse W fetch text lim.2 in
              match chk.1 with
              | Ok suggestions =>
                  (Ok (Reply 200
                         (Checked version_1_0 (createTextFingerprint sha256_hex text)
                            suggestions
                            (Meta true None OPENAI_MODEL (len text)
                               (len_list suggestions)))),
                   (lim.1.2, chk.2))
              | Throws =>
                  (Ok (Reply 200
                         (Checked version_1_0 (createTextFingerprint sha256_hex text)
                            []
                            (Meta false (Some api_error) OPENAI_MODEL
                               (len text) 0))),
                   (lim.1.2, chk.2))
              | Hangs => (Hangs, (lim.1.2, chk.2))
              end
          | _ => (Ok internal_error, (lim.1.2, lim.2))
          end
      end.
Proof.
  intros Hm Hk Hkne Hid. unfold handler. rewrite Hm, Hk, Hid.
  change (bool_decide (lit "POST" = lit "OPTIONS")) with false.
  change (bool_decide (lit "POST" = lit "POST")) with true.
  cbv iota. cbn [negb]. cbv iota. destruct key as [|c key]; [done|].
  destruct (checkRateLimit StringToNumber W fetch_kv cfg clientId t store w) as [[allowed store1] w1].
  cbv zeta. cbn [fst snd]. destruct allowed; [|done]. cbn [negb]. cbv iota.
  destruct (validateRequest (body r)); [|done].
  destruct (Gateway.access_opt _ (body r)) as [[| | |text| |]|]; try done.
  by destruct (Gateway.checkTextWithOpenAI toLowerCase now JSON_parse W fetch text w1) as [[suggestions| |] w2].
Qed.

(** Before the limiter is reached, nothing changes. *)
Lemma handler_early (cfg : config) (t : Z) (r : req)
    (store : gmap jsstring (list Z)) (w : Gateway.world W) :
  (method r = lit "OPTIONS" →
   handler toLowerCase now JSON_parse StringToNumber sha256_hex W fetch
    fetch_kv cfg t r store w = (Ok (Reply 200 Preflight), (store, w)))
  ∧ (method r ≠ lit "OPTIONS" → method r ≠ lit "POST" →
     handler toLowerCase now JSON_parse StringToNumber sha256_hex W fetch
    fetch_kv cfg t r store w = (Ok method_not_allowed, (store, w)))
  ∧ (method r = lit "POST" →
     OPENAI_API_KEY cfg = None ∨ OPENAI_API_KEY cfg = Some [] →
     handler toLowerCase now JSON_parse StringToNumber sha256_hex W fetch
    fetch_kv cfg t r store w = (Ok not_configured, (store, w)))
  ∧ (method r = lit "POST" → getClientId r = Throws →
     handler toLowerCase now JSON_parse StringToNumber sha256_hex W fetch
    fetch_kv cfg t r store w
     = (Ok (if match OPENAI_API_KEY cfg with Some (_ :: _) => true | _ => false end
            then internal_error else not_configured), (store, w))).
Proof.
  unfold handler. split_and!.
  - intros ->. done.
  - intros Ho Hp. by rewrite !bool_decide_eq_false_2.
  - intros -> Hkey.
    change (bool_decide (lit "POST" = lit "OPTIONS")) with false.
    change (bool_decide (lit "POST" = lit "POST")) with true.
    cbv iota. cbn [negb]. cbv iota. by destruct Hkey as [-> | ->].
  - intros -> ->.
    change (bool_decide (lit "POST" = lit "OPTIONS")) with false.
    change (bool_decide (lit "POST" = lit "POST")) with true.
    cbv iota. cbn [negb]. cbv iota. by destruct (OPENAI_API_KEY cfg) as [[|c k]|].
Qed.

(** Every way the handler can end. *)
Lemma handler_cases (cfg : config) (t : Z) (r : req)
    (store : gmap jsstring (list Z)) (w : Gateway.world W) :
  (handler toLowerCase now JSON_parse StringToNumber sha256_hex W fetch
    fetch_kv cfg t r store w).2 = (store, w)
  ∧ (∃ resp, (handler toLowerCase now JSON_parse StringToNumber sha256_hex W fetch
    fetch_kv cfg t r store w).1 = Ok resp
             ∧ (resp = Reply 200 Preflight ∨ resp = method_not_allowed
                ∨ resp = not_configured ∨ resp = internal_error))
  ∨ ∃ key clientId,
      method r = lit "POST" ∧ OPENAI_API_KEY cfg = Some key ∧ key ≠ []
      ∧ getClientId r = Ok clientId.
Proof.
  destruct (decide (method r = lit "OPTIONS")) as [Ho|Ho].
  { left. rewrite (proj1 (handler_early cfg t r store w) Ho).
    split; [done|]. eexists. split; [done|]. by left. }
  destruct (decide (method r = lit "POST")) as [Hp|Hp]; cycle 1.
  { left. rewrite (proj1 (proj2 (handler_early cfg t r store w)) Ho Hp).
    split; [done|]. eexists. split; [done|]. right. by left. }
  destruct (OPENAI_API_KEY cfg) as [[|c key]|] eqn:Hkey.
  - left.
    rewrite (proj1 (proj2 (proj2 (handler_early cfg t r store w))) Hp);
      [|right; by rewrite Hkey].
    split; [done|]. eexists. split; [done|]. right. right. by left.
  - destruct (getClientId r) as [clientId| |] eqn:Hid.
    + right. by exists (c :: key), clientId.
    + left.
      rewrite (proj2 (proj2 (proj2 (handler_early cfg t r store w))) Hp Hid).
      rewrite Hkey. split; [done|]. eexists. split; [done|]. by repeat right.
    + by destruct (getClientId_returns r).
  - left.
    rewrite (proj1 (proj2 (proj2 (handler_early cfg t r store w))) Hp);
      [|left; by rewrite Hkey].
    split; [done|]. eexists. split; [done|]. right. right. by left.
Qed.

End HandlerFacts.

Section HandlerTheorems.
Import Endpoint.

Variable toLowerCase : jsstring → jsstring.
Variable now : nat → Z.
Variable JSON_parse : jsstring → option value.
Variable StringToNumber : jsstring → option Q.
Variable sha256_hex : jsstring → jsstring.
Variable W : Type.
Variable fetch : Gateway.request → W → Gateway.fetched * W.
Variable fetch_kv : kv_request → W → Gateway.fetched * W.

(** X26.  The handler throws nothing: it answers with one of the
    statuses 200, 400, 405, 429 and 500, or does not answer at all.
    Unless it answers with the result of a check, no request has been
    sent to the model.  A request that is not a POST, and any request
    when the key is not set, leaves the store of the limiter and the
    network as they were; an OPTIONS request is answered with 200
    whether the key is set or not. *)
Theorem handler_refusals (cfg : config) (t : Z) (r : req)
    (store : gmap jsstring (list Z)) (w : Gateway.world W) :
  let res :=
    handler toLowerCase now JSON_parse StringToNumber sha256_hex W fetch
      fetch_kv cfg t r store w in
  res.1 ≠ Throws
  ∧ (∀ resp, res.1 = Ok resp → status resp ∈ [200; 400; 405; 429; 500])
  ∧ (∀ resp, res.1 = Ok resp →
       (∀ v fp sg m, json resp ≠ Checked v fp sg m) →
       Gateway.sent res.2.2 = Gateway.sent w)
  ∧ (method r ≠ lit "POST" ∨ OPENAI_API_KEY cfg = None
     ∨ OPENAI_API_KEY cfg = Some [] →
     res.2 = (store, w))
  ∧ (method r = lit "OPTIONS" → res.1 = Ok (Reply 200 Preflight)).
Proof.
  cbv zeta.
  pose proof (handler_early toLowerCase now JSON_parse StringToNumber sha256_hex
                W fetch fetch_kv cfg t r store w) as (Hopt & Hother & Hkey & _).
  destruct (handler_cases toLowerCase now JSON_parse StringToNumber sha256_hex
              W fetch fetch_kv cfg t r store w)
    as [(Hstate & resp & Hresp & Hwhich)|(key & clientId & Hm & Hk & Hkne & Hid)].
  - split_and!.
    + by rewrite Hresp.
    + intros resp' Hresp'. rewrite Hresp in Hresp'. injection Hresp' as <-.
      destruct Hwhich as [->|[->|[->| ->]]]; simpl;
        rewrite !elem_of_cons; auto 10.
    + intros _ _ _. by rewrite Hstate.
    + done.
    + intros Ho. by rewrite (Hopt Ho).
  - rewrite (handler_post toLowerCase now JSON_parse StringToNumber sha256_hex
               W fetch fetch_kv cfg t r store w key clientId Hm Hk Hkne Hid).
    cbv zeta.
    pose proof (checkRateLimit_sent StringToNumber W fetch_kv cfg clientId t
                  store w) as Hsent.
    destruct (checkRateLimit StringToNumber W fetch_kv cfg clientId t store w)
      as [[allowed store1] w1]. cbn [fst snd] in *.
    assert (method r ≠ lit "POST" ∨ OPENAI_API_KEY cfg = None
            ∨ OPENAI_API_KEY cfg = Some [] → False) as Hno.
    { intros [?|[?|?]]; congruence. }
    assert (method r = lit "OPTIONS" → False) as Hno'.
    { rewrite Hm. intros [=]. }
    destruct allowed; cbn [negb]; cbv iota.
    2: { split_and!; [done| |done|by intros ?%Hno|by intros ?%Hno'].
         intros resp [= <-]. simpl. rewrite !elem_of_cons. auto 10. }
    destruct (validateRequest (body r)) as [|error].
    2: { split_and!; [done| |done|by intros ?%Hno|by intros ?%Hno'].
         intros resp [= <-]. simpl. rewrite !elem_of_cons. auto 10. }
    destruct (Gateway.access_opt _ (body r)) as [[| | |text| |]|];
      try (split_and!; [done| |done|by intros ?%Hno|by intros ?%Hno'];
           intros resp [= <-]; simpl; rewrite !elem_of_cons; auto 10).
    destruct (Gateway.checkTextWithOpenAI _ _ _ _ _ text w1)
      as [[suggestions| |] w2]; cbn [fst snd].
    + split_and!; [done| | |by intros ?%Hno|by intros ?%Hno'].
      * intros resp [= <-]. simpl. rewrite !elem_of_cons. auto 10.
      * intros resp [= <-] Hnot. by destruct (Hnot _ _ _ _ eq_refl).
    + split_and!; [done| | |by intros ?%Hno|by intros ?%Hno'].
      * intros resp [= <-]. simpl. rewrite !elem_of_cons. auto 10.
      * intros resp [= <-] Hnot. by destruct (Hnot _ _ _ _ eq_refl).
    + split_and!; [done|done|done|by intros ?%Hno|by intros ?%Hno'].
Qed.

(** X27.  The limiter comes before the body.  On a POST with the key
    set, from a client that can be identified, the limiter is asked
    whatever the body holds, and what it does to the store stays: a
    request with an invalid body uses up a place in the window like any
    other.  When the limiter rejects, the answer is 429, also for a
    request whose body would have been rejected with 400; when it
    allows, an invalid body is answered with 400 and the message of
    [validateRequest], and nothing is sent to the model. *)
Theorem handler_admission (cfg : config) (t : Z) (r : req)
    (store : gmap jsstring (list Z)) (w : Gateway.world W)
    (key clientId : jsstring) :
  method r = lit "POST" →
  OPENAI_API_KEY cfg = Some key → key ≠ [] →
  getClientId r = Ok clientId →
  let lim := checkRateLimit StringToNumber W fetch_kv cfg clientId t store w in
  let res :=
    handler toLowerCase now JSON_parse StringToNumber sha256_hex W fetch
      fetch_kv cfg t r store w in
  res.2.1 = lim.1.2
  ∧ (lim.1.1 = false → res = (Ok rate_limited, (lim.1.2, lim.2)))
  ∧ (lim.1.1 = true →
     res.1 ≠ Ok rate_limited
     ∧ ∀ error, validateRequest (body r) = Invalid error →
         res = (Ok (Reply 400 (Failure (lit "Invalid request") error)),
                (lim.1.2, lim.2))).
Proof.
  intros Hm Hk Hkne Hid. cbv zeta.
  rewrite (handler_post toLowerCase now JSON_parse StringToNumber sha256_hex
             W fetch fetch_kv cfg t r store w key clientId Hm Hk Hkne Hid).
  cbv zeta.
  destruct (checkRateLimit StringToNumber W fetch_kv cfg clientId t store w)
    as [[allowed store1] w1]. cbn [fst snd].
  destruct allowed; cbn [negb]; cbv iota; [|done].
  destruct (validateRequest (body r)) as [|error].
  2: { split_and!; [done|done|]. intros _. split; [done|]. by intros e [= ->]. }
  destruct (Gateway.access_opt _ (body r)) as [[| | |text| |]|];
    try (split_and!; [done|done|]; by intros _).
  destruct (Gateway.checkTextWithOpenAI _ _ _ _ _ text w1)
    as [[suggestions| |] w2]; cbn [fst snd];
    split_and!; try done; by intros _.
Qed.

(** X28.  A response that carries the result of a check has status
    200 and version [1.0]; the body of the request was an object with
    a [text] of 1 to 12000 units; [textLength] is the length of that
    text, [textFingerprint] the first sixteen digits of its digest, and
    [suggestionsCount] the number of suggestions, which is at most
    twenty; every suggestion is anchored in the text.  Either
    [llmCalled] is true and [skippedReason] is [null], or the call of the
    model threw: then [llmCalled] is false, [skippedReason] is
    [api_error] and there are no suggestions.  One or two requests were
    sent to the model, the first request and at most the strict
    retry. *)
Theorem handler_checked (cfg : config) (t : Z) (r : req)
    (store store' : gmap jsstring (list Z)) (w w' : Gateway.world W)
    (st : Z) (v fp : jsstring) (sg : list (gmap jsstring value)) (m : meta) :
  handler toLowerCase now JSON_parse StringToNumber sha256_hex W fetch
    fetch_kv cfg t r store w
  = (Ok (Reply st (Checked v fp sg m)), (store', w')) →
  st = 200 ∧ v = version_1_0 ∧ modelUsed m = OPENAI_MODEL
  ∧ ∃ o text,
      body r = Some (JObj o) ∧ o !! k_text = Some (JStr text)
      ∧ 1 ≤ len text ≤ 12000
      ∧ fp = take 16 (sha256_hex text)
      ∧ textLength m = len text
      ∧ suggestionsCount m = len_list sg
      ∧ (length sg ≤ 20)%nat
      ∧ (∀ s, s ∈ sg → anchored text s)
      ∧ (llmCalled m = true ∧ skippedReason m = None
         ∨ llmCalled m = false ∧ skippedReason m = Some api_error ∧ sg = [])
      ∧ ∃ rest, Gateway.sent w' = Gateway.sent w ++ first_request text :: rest
                ∧ (rest = [] ∨ rest = [retry_request text]).
Proof.
  intros Hrun.
  destruct (handler_cases toLowerCase now JSON_parse StringToNumber sha256_hex
              W fetch fetch_kv cfg t r store w)
    as [(_ & resp & Hresp & Hwhich)|(key & clientId & Hm & Hk & Hkne & Hid)].
  { rewrite Hrun in Hresp. injection Hresp as <-.
    by destruct Hwhich as [?|[?|[?|?]]]. }
  rewrite (handler_post toLowerCase now JSON_parse StringToNumber sha256_hex
             W fetch fetch_kv cfg t r store w key clientId Hm Hk Hkne Hid)
    in Hrun.
  cbv zeta in Hrun.
  pose proof (checkRateLimit_sent StringToNumber W fetch_kv cfg clientId t
                store w) as Hsent.
  destruct (checkRateLimit StringToNumber W fetch_kv cfg clientId t store w)
    as [[allowed store1] w1]. cbn [fst snd] in *.
  destruct allowed; cbn [negb] in Hrun; cbv iota in Hrun; [|done].
  destruct (validateRequest (body r)) as [|error] eqn:Hvalid; [|done].
  apply validateRequest_accepts in Hvalid as (o & text & Hbody & Htext & Hlen & _).
  rewrite Hbody in Hrun. cbn [Gateway.access_opt Gateway.member] in Hrun.
  rewrite Htext in Hrun.
  pose proof (check_cases toLowerCase now JSON_parse W fetch text w1) as Hcases.
  cbv zeta in Hcases. rewrite Hsent in Hcases.
  destruct (Gateway.checkTextWithOpenAI _ _ _ _ _ text w1)
    as [[suggestions| |] w2]; cbn [fst snd] in *; [| |done].
  - injection Hrun as <- <- <- <- <- <- <-.
    destruct Hcases as [Hreq Hres].
    assert ((length suggestions ≤ 20)%nat ∧ Forall (anchored text) suggestions)
      as [Hcap Hanch].
    { destruct Hres as [[= ->]|[?|[parsed Hp]]]; [|done|].
      - split; [simpl; lia|constructor].
      - symmetry in Hp. by eapply reconcile_well_formed. }
    split_and!; [done..|]. exists o, text.
    split_and!; try done; try lia; try (by apply Forall_forall); by left.
  - injection Hrun as <- <- <- <- <- <- <-.
    destruct Hcases as [Hreq _].
    split_and!; [done..|]. exists o, text.
    split_and!; try done; try (simpl; lia); try (by intros s ?%elem_of_nil);
      by right.
Qed.

End HandlerTheorems.

Lemma checkRateLimit_upstash_witness :
  Endpoint.checkRateLimit no_number nat fetch_counter cfg_kv client 0 ∅
    (Gateway.World 10%nat [])
  = (false, ∅, Gateway.World 11%nat []).
Proof.
  exact (proj1 (checkRateLimit_upstash no_number nat fetch_counter cfg_kv client
                  0 ∅ (Gateway.World 10%nat [])
                  (lit "https://kv.example/") (lit "token") 200
                  (JArr [JObj {[ Endpoint.k_result := JNum 11 ]};
                         JObj {[ Endpoint.k_result := JNum 1 ]}]) 11%nat
                  eq_refl ltac:(done) eq_refl ltac:(done) eq_refl)
           11 eq_refl).
Defined.

Lemma handler_admission_witness :
  Endpoint.handler lower_latin clock0 parse_sya no_number no_digest nat
    fetch_wrapped fetch_none cfg_key 0 req_no_text ∅ (Gateway.World 0%nat [])
  = (Ok (Endpoint.Reply 400
           (Endpoint.Failure (lit "Invalid request") Endpoint.text_required)),
     ({[ client := [0] ]}, Gateway.World 0%nat [])).
Proof.
  exact (proj2 (proj2 (proj2
           (handler_admission lower_latin clock0 parse_sya no_number no_digest
              nat fetch_wrapped fetch_none cfg_key 0 req_no_text ∅
              (Gateway.World 0%nat []) (lit "sk-test") client
              eq_refl eq_refl ltac:(done) eq_refl)) eq_refl)
           Endpoint.text_required eq_refl).
Defined.

Lemma handler_checked_witness :
  Endpoint.handler lower_latin clock0 parse_sya no_number no_digest nat
    fetch_wrapped fetch_none cfg_key 0 req_sya ∅ (Gateway.World 0%nat [])
  = (Ok (Endpoint.Reply 200
           (Endpoint.Checked Endpoint.version_1_0 [] [sugg_sya]
              (Endpoint.Meta true None Endpoint.OPENAI_MODEL 12 1))),
     ({[ client := [0] ]}, Gateway.World 1%nat [first_request text_sya]))
  ∧ (length [sugg_sya] ≤ 20)%nat
  ∧ (∀ s, s ∈ [sugg_sya] → anchored text_sya s)
  ∧ ∃ rest, [first_request text_sya] = [] ++ first_request text_sya :: rest
            ∧ (rest = [] ∨ rest = [retry_request text_sya]).
Proof.
  assert (Endpoint.handler lower_latin clock0 parse_sya no_number no_digest nat
            fetch_wrapped fetch_none cfg_key 0 req_sya ∅ (Gateway.World 0%nat [])
          = (Ok (Endpoint.Reply 200
                   (Endpoint.Checked Endpoint.version_1_0 [] [sugg_sya]
                      (Endpoint.Meta true None Endpoint.OPENAI_MODEL 12 1))),
             ({[ client := [0] ]}, Gateway.World 1%nat [first_request text_sya])))
    as Hrun by reflexivity.
  split; [exact Hrun|].
  destruct (handler_checked lower_latin clock0 parse_sya no_number no_digest nat
              fetch_wrapped fetch_none cfg_key 0 req_sya ∅ _
              (Gateway.World 0%nat []) _ _ _ _ _ _ Hrun)
    as (_ & _ & _ & o & text & Hbody & Htext & _ & _ & _ & _ & Hcap & Hanch & _ & Hsent).
  injection Hbody as <-.
  replace (({[ Endpoint.k_text := JStr text_sya ]} : gmap jsstring value)
             !! Endpoint.k_text)
    with (Some (JStr text_sya)) in Htext by reflexivity.
  injection Htext as <-.
  split_and!; [exact Hcap|exact Hanch|exact Hsent].
Defined.

(** ** A candidate whose [before] is not a string *)

Section Poisoned.

Variable toLowerCase : jsstring → jsstring.
Variable now : nat → Z.
Variable text : jsstring.

Lemma locate_throws (o : gmap jsstring value) (v : value) (start end_ : Z) :
  o !! k_before = Some v →
  truthy (Some v) = true →
  (∀ b, v ≠ JStr b) →
  (is_zero (get_length v) = true
   ∨ ∀ s, ToString v = Some s → s ≠ [] ∧ ∀ i, ¬ occurs_at text s i) →
  locate toLowerCase text o start end_ = Throws.
Proof.
  intros Hb Ht Hns Hnone. unfold locate. rewrite Hb.
  replace (same_string (slice text start end_) (Some v)) with false
    by (destruct v; try done; by destruct (Hns s)).
  assert (findNearestIndexCI toLowerCase text (Some v) (Some start) = Throws)
    as Hci.
  { unfold findNearestIndexCI. rewrite Ht.
    destruct v; try done. by destruct (Hns s). }
  assert (findNearestIndex text (Some v) (Some start) = Ok (-1)
          ∨ findNearestIndex text (Some v) (Some start) = Throws) as [-> | ->];
    [|unbind; by rewrite Hci|done].
  unfold findNearestIndex. rewrite Ht. cbn [negb orb].
  destruct (is_zero (get_length v)) eqn:Hz; [by left|].
  destruct Hnone as [|Hnone]; [done|].
  unfold String_. destruct (ToString v) as [s|]; [|by right].
  destruct (Hnone s eq_refl) as [Hs Hnot]. unbind.
  destruct (nearest_of_spec text s start Hs) as (r & -> & [[-> _]|[Hr _]]);
    [by left|].
  exfalso. apply (Hnot r). by apply starts_at_occurs.
Qed.

Lemma resolve_throws (o : gmap jsstring value) (v : value) :
  passes_checks o = true →
  o !! k_before = Some v →
  truthy (Some v) = true →
  (∀ b, v ≠ JStr b) →
  (is_zero (get_length v) = true
   ∨ ∀ s, ToString v = Some s → s ≠ [] ∧ ∀ i, ¬ occurs_at text s i) →
  resolve toLowerCase text (JObj o) = Throws.
Proof.
  intros Hp Hb Ht Hns Hnone. rewrite (resolve_passes toLowerCase text o Hp).
  unbind. destruct (clamp text o) as [[start end_]| |] eqn:Hc; [|done|].
  - by rewrite (locate_throws o v start end_).
  - exfalso. revert Hc. unfold clamp, String_or_empty, String_. rewrite Hb, Ht.
    unbind. destruct (o !! k_end) as [[]|]; try done;
      by destruct (ToString v).
Qed.

End Poisoned.

(** X8.  One candidate is enough to lose the whole answer.  When the
    loop reaches a candidate that passes the checks and whose [before]
    is truthy but not a string (a number, [true], an array, an object),
    the call throws, whatever was accepted before and whatever comes
    after, unless the printed form of that value occurs in the text (the
    candidate is moved there) or is empty with a length that is not 0
    (the search does not end): the exact search finds nothing, and the
    search up to case calls [toLowerCase] on the value. *)
Theorem reconcile_poisoned (toLowerCase : jsstring → jsstring) (now : nat → Z)
    (text : jsstring) (pre post : list value) (st : state)
    (o : gmap jsstring value) (v : value) :
  loop_flow toLowerCase now text 0 pre (State [] []) = Ok (Continue st) →
  passes_checks o = true →
  o !! k_before = Some v →
  truthy (Some v) = true →
  (∀ b, v ≠ JStr b) →
  (is_zero (get_length v) = true
   ∨ ∀ s, ToString v = Some s → s ≠ [] ∧ ∀ i, ¬ occurs_at text s i) →
  reconcile toLowerCase now text (pre ++ JObj o :: post) = Throws.
Proof.
  intros Hpre Hp Hb Ht Hns Hnone.
  rewrite reconcile_flow, loop_flow_app, Hpre. unbind. cbn [loop_flow].
  unfold iteration. by rewrite (resolve_throws toLowerCase text o v). 
Qed.

Lemma reconcile_poisoned_witness :
  reconcile lower_latin clock0 text_abc [JObj cand_nothing; JObj cand_seven]
  = Throws.
Proof.
  apply (reconcile_poisoned lower_latin clock0 text_abc [JObj cand_nothing] []
           (State [<[k_id := JStr (lit "sg-1700000000000-0")]> cand_nothing]
                  [(1, 1)])
           cand_seven (JNum 7)).
  - reflexivity.
  - reflexivity.
  - reflexivity.
  - reflexivity.
  - done.
  - right. intros s [= <-]. split; [done|].
    intros i (H0 & Hle & Hs).
    change (len (numberToString 7)) with 1 in *. change (len text_abc) with 3 in *.
    assert (i = 0 ∨ i = 1 ∨ i = 2) as [->|[->| ->]] by lia;
      vm_compute in Hs; discriminate.
Defined.

(** ** When the loop does not end *)

Lemma numberToString_nonempty (n : Z) : numberToString n ≠ [].
Proof.
  unfold numberToString, NilZero.string_of_int, NilZero.string_of_uint.
  destruct (Z.to_int n) as [d|d]; destruct d; done.
Qed.

(** The truthy values that print as the empty string without having
    length 0: the non-empty arrays that join to nothing. *)
Lemma prints_empty (v : value) :
  truthy (Some v) = true → is_zero (get_length v) = false →
  ToString v = Some [] →
  ∃ l, v = JArr l ∧ l ≠ [].
Proof.
  intros Ht Hz Hs. destruct v as [|[]|n|s|l|o]; try done.
  - simpl in Hs. injection Hs as Hs. by destruct (numberToString_nonempty n).
  - simpl in Hs. injection Hs as ->. done.
  - exists l. split; [done|]. by intros ->.
  - simpl in Hs. by destruct (o !! k_toString).
Qed.

Section Unending.

Variable toLowerCase : jsstring → jsstring.
Variable now : nat → Z.
Variable text : jsstring.

Lemma findNearestIndex_unending (needle : option value) (a : option Z) :
  findNearestIndex text needle a = Hangs →
  ∃ l, needle = Some (JArr l) ∧ l ≠ [] ∧ ToString (JArr l) = Some [].
Proof.
  unfold findNearestIndex. destruct needle as [v|]; [|done].
  destruct (truthy (Some v)) eqn:Ht; cbn [negb orb]; [|done].
  destruct (is_zero (get_length v)) eqn:Hz; [done|].
  unfold String_. destruct (ToString v) as [s|] eqn:Hs; [|done]. unbind.
  intros ->%nearest_of_hangs.
  destruct (prints_empty v Ht Hz Hs) as (l & -> & Hl). by exists l.
Qed.

Lemma findNearestIndexCI_ends (needle : option value) (a : option Z) :
  findNearestIndexCI toLowerCase text needle a ≠ Hangs.
Proof.
  unfold findNearestIndexCI. unbind.
  assert (∀ n, match toLowerCase n with
               | [] => Ok (-1)
               | _ :: _ => nearest_of (toLowerCase text) (toLowerCase n) a
               end ≠ Hangs) as Hcore.
  { intros n. destruct (toLowerCase n) as [|c l] eqn:Hl; [done|].
    by intros ?%nearest_of_hangs. }
  destruct (truthy needle); [|apply Hcore].
  destruct needle as [[| | |n| |]|]; first [done|apply Hcore].
Qed.

Lemma String_or_empty_ends (v : option value) : String_or_empty v ≠ Hangs.
Proof.
  unfold String_or_empty, String_. destruct v as [w|]; [|done].
  destruct (truthy (Some w)); [|done]. by destruct (ToString w).
Qed.

Lemma resolve_unending (c : value) :
  resolve toLowerCase text c = Hangs →
  ∃ o l, c = JObj o ∧ o !! k_before = Some (JArr l) ∧ l ≠ []
         ∧ ToString (JArr l) = Some [].
Proof.
  unfold resolve. destruct (basicSuggestionShapeValid c); [|done]. cbn [negb].
  destruct c as [| | | | |o]; try done.
  destruct (includes categories _); [|done]. cbn [negb].
  destruct (truthy _ && _); [done|]. unbind.
  destruct (clamp text o) as [[start end_]| |] eqn:Hc; [|done|].
  - unfold locate.
    destruct (same_string _ _); [done|]. unbind.
    destruct (findNearestIndex text (o !! k_before) (Some start))
      as [idx| |] eqn:Hidx; [|done|].
    + destruct (negb (idx =? -1)).
      { pose proof (String_or_empty_ends (o !! k_before)).
        by destruct (String_or_empty (o !! k_before)). }
      pose proof (findNearestIndexCI_ends (o !! k_before) (Some start)).
      destruct (findNearestIndexCI _ _ _ _) as [idx'| |]; [|done..].
      destruct (negb (idx' =? -1)); [|done].
      pose proof (String_or_empty_ends (o !! k_before)).
      by destruct (String_or_empty (o !! k_before)).
    + intros _. apply findNearestIndex_unending in Hidx as (l & Hb & Hl & Hs).
      by exists o, l.
  - exfalso. revert Hc. unfold clamp. unbind.
    pose proof (String_or_empty_ends (o !! k_before)).
    destruct (o !! k_end) as [[]|]; try done;
      by destruct (String_or_empty (o !! k_before)).
Qed.

Lemma fix_suggestion_ends (i : nat) (o : gmap jsstring value) (s e : Z)
    (a : jsstring) :
  fix_suggestion now i o s e a ≠ Hangs.
Proof.
  unfold fix_suggestion, String_. unbind.
  destruct (o !! k_message) as [m|]; [destruct (ToString m); [|done]|];
    (destruct (o !! k_after) as [[]|];
     repeat match goal with
            | |- context [ToString ?v] => destruct (ToString v); [|done]
            end;
     by destruct (truthy _)).
Qed.

Lemma loop_unending (suggestions : list value) :
  ∀ i st,
    loop toLowerCase now text i suggestions st = Hangs →
    ∃ c, c ∈ suggestions ∧ resolve toLowerCase text c = Hangs.
Proof.
  induction suggestions as [|c rest IH]; intros i st; [done|].
  cbn [loop]. unbind.
  destruct (iteration toLowerCase now text i c st) as [[st1|st1]| |] eqn:Hit.
  - intros (c' & Hin & Hc')%IH. exists c'. split; [by right|done].
  - done.
  - done.
  - intros _. exists c. split; [by left|].
    unfold iteration in Hit. unbind.
    destruct (resolve toLowerCase text c) as [[[[[o s] e] a]|]| |]; try done.
    destruct (overlaps _ _ _); [done|].
    pose proof (fix_suggestion_ends i o s e a).
    destruct (fix_suggestion now i o s e a); try done.
    by destruct (20 <=? _).
Qed.

End Unending.

(** X7.  The loop can fail to end in one way only: some candidate
    object of the array carries under [before] a non-empty array that
    prints as the empty string (such as [[""]] or [[null]]), which
    passes the guard on empty needles and is then searched for as the
    empty string. *)
Theorem reconcile_unending (toLowerCase : jsstring → jsstring) (now : nat → Z)
    (text : jsstring) (suggestions : list value) :
  reconcile toLowerCase now text suggestions = Hangs →
  ∃ o l, JObj o ∈ suggestions ∧ o !! k_before = Some (JArr l) ∧ l ≠ []
         ∧ ToString (JArr l) = Some [].
Proof.
  unfold reconcile. unbind.
  destruct (loop toLowerCase now text 0 suggestions (State [] [])) as [st| |] eqn:Hl;
    [done|done|].
  intros _. apply loop_unending in Hl as (c & Hin & Hc).
  apply resolve_unending in Hc as (o & l & -> & Hb & Hne & Hs).
  by exists o, l.
Qed.

Lemma reconcile_unending_witness :
  ∃ o l, JObj o ∈ [JObj cand_array] ∧ o !! k_before = Some (JArr l) ∧ l ≠ []
         ∧ ToString (JArr l) = Some [].
Proof.
  apply (reconcile_unending lower_latin clock0 text_abc [JObj cand_array]).
  reflexivity.
Defined.

(** ** The identifiers given by the loop *)

Lemma lit_inj (s1 s2 : string) : lit s1 = lit s2 → s1 = s2.
Proof.
  unfold lit. intros H.
  rewrite <- (string_of_list_ascii_of_string s1),
    <- (string_of_list_ascii_of_string s2).
  f_equal. revert H. generalize (list_ascii_of_string s1) (list_ascii_of_string s2).
  induction l as [|a l IH]; intros [|b l']; simpl; try done.
  intros [= Hab Hl]. f_equal; [|by apply IH].
  by rewrite <- (ascii_N_embedding a), <- (ascii_N_embedding b), Hab.
Qed.

Lemma to_int_proper (z : Z) : Z.to_int z ≠ Pos Nil ∧ Z.to_int z ≠ Neg Nil.
Proof.
  destruct z as [|p|p]; simpl; split; try done;
    intros [= H]; by apply (DecimalPos.Unsigned.to_uint_nonnil p).
Qed.

(** Different numbers print differently. *)
Lemma numberToString_inj (a b : Z) : numberToString a = numberToString b → a = b.
Proof.
  unfold numberToString. intros H%lit_inj.
  destruct (to_int_proper a) as [Ha1 Ha2], (to_int_proper b) as [Hb1 Hb2].
  pose proof (NilZero.isi _ Ha1 Ha2) as Hia.
  pose proof (NilZero.isi _ Hb1 Hb2) as Hib.
  rewrite H, Hib in Hia. injection Hia as Hia.
  by rewrite <- (DecimalZ.of_to a), <- (DecimalZ.of_to b), Hia.
Qed.

Lemma uint_digits (d : uint) : 45%N ∉ lit (NilEmpty.string_of_uint d).
Proof.
  unfold lit.
  induction d; cbn [NilEmpty.string_of_uint list_ascii_of_string map];
    [apply not_elem_of_nil|..];
    (apply not_elem_of_cons; split;
     [intros H; vm_compute in H; discriminate|assumption]).
Qed.

(** The printed form of an index has no hyphen in it. *)
Lemma nat_digits (i : nat) : 45%N ∉ numberToString (Z.of_nat i).
Proof.
  unfold numberToString, NilZero.string_of_int.
  destruct (Z.of_nat i) as [|p|p] eqn:Hi; cbn [Z.to_int].
  - change (45%N ∉ [48%N]). apply not_elem_of_cons.
    split; [done|apply not_elem_of_nil].
  - unfold NilZero.string_of_uint.
    pose proof (uint_digits (Pos.to_uint p)) as Hd.
    pose proof (DecimalPos.Unsigned.to_uint_nonnil p) as Hn.
    by destruct (Pos.to_uint p).
  - lia.
Qed.

Lemma split_first (c : N) (l1 l2 r1 r2 : list N) :
  c ∉ l1 → c ∉ l2 → l1 ++ c :: r1 = l2 ++ c :: r2 → l1 = l2.
Proof.
  revert l2. induction l1 as [|x l1 IH]; intros [|y l2] H1 H2; simpl.
  - done.
  - intros [= <- _]. apply not_elem_of_cons in H2 as [? _]. done.
  - intros [= -> _]. apply not_elem_of_cons in H1 as [? _]. done.
  - intros [= -> Hl]. f_equal.
    apply not_elem_of_cons in H1 as [_ H1]. apply not_elem_of_cons in H2 as [_ H2].
    by apply IH.
Qed.

Lemma split_last (c : N) (a1 a2 d1 d2 : list N) :
  c ∉ d1 → c ∉ d2 → a1 ++ c :: d1 = a2 ++ c :: d2 → d1 = d2.
Proof.
  intros H1 H2 Heq. apply (f_equal reverse) in Heq.
  rewrite !reverse_app, !reverse_cons, <- !app_assoc in Heq. simpl in Heq.
  apply (inj reverse).
  apply (split_first c _ _ (reverse a1) (reverse a2)); [| |done];
    by rewrite elem_of_reverse.
Qed.

Lemma sg_id_inj (a b : jsstring) (i j : nat) :
  a ++ 45%N :: numberToString (Z.of_nat i)
  = b ++ 45%N :: numberToString (Z.of_nat j) →
  i = j.
Proof.
  intros H. apply split_last in H; [|apply nat_digits..].
  apply numberToString_inj in H. lia.
Qed.

Section Ids.

Variable toLowerCase : jsstring → jsstring.
Variable now : nat → Z.
Variable text : jsstring.

Lemma fix_suggestion_fresh_id (i : nat) (o fixed : gmap jsstring value)
    (s e : Z) (a : jsstring) :
  truthy (o !! k_id) = false →
  fix_suggestion now i o s e a = Ok fixed →
  fixed !! k_id
  = Some (JStr (sg_ ++ numberToString (now i) ++ dash
                  ++ numberToString (Z.of_nat i))).
Proof.
  intros Ht. unfold fix_suggestion. unbind.
  destruct (match o !! k_message with Some v => String_ v | None => _ end)
    as [msg| |]; [|done..].
  destruct (match o !! k_after with Some (JStr a) => _ | _ => _ end)
    as [af| |]; [|done..].
  destruct (spread_entries o (JNum s) (JNum e) (JStr a)
              (JStr (sanitizeString af 100)) (JStr (sanitizeString msg 200)))
    as (_ & _ & _ & _ & _ & Hid & _).
  rewrite Hid, Ht. intros [= <-]. by rewrite lookup_insert_eq.
Qed.

(** What the loop appends, from pass [i] on, when no candidate has an
    [id] of its own: suggestions whose identifiers are built from
    ascending indices. *)
Lemma loop_ids (suggestions : list value) :
  ∀ i st st',
    (∀ o, JObj o ∈ suggestions → truthy (o !! k_id) = false) →
    loop toLowerCase now text i suggestions st = Ok st' →
    ∃ news js,
      processedSuggestions st' = processedSuggestions st ++ news
      ∧ Forall2 (λ s j, s !! k_id
                        = Some (JStr (sg_ ++ numberToString (now j) ++ dash
                                        ++ numberToString (Z.of_nat j))))
          news js
      ∧ Forall (λ j, (i ≤ j < i + length suggestions)%nat) js
      ∧ StronglySorted lt js.
Proof.
  induction suggestions as [|c rest IH]; intros i st st' Hids.
  - intros [= <-]. exists [], []. rewrite app_nil_r.
    split_and!; [done|constructor|constructor|constructor].
  - cbn [loop]. unbind.
    destruct (iteration toLowerCase now text i c st) as [f| |] eqn:Hit; try done.
    assert (∀ o, JObj o ∈ rest → truthy (o !! k_id) = false) as Hrest.
    { intros o Ho. apply Hids. by right. }
    destruct (iteration_cases _ _ _ _ _ _ _ Hit)
      as [->|(o & s & e & a & fixed & Hres & _ & Hfix & Hst & Hf)].
    + intros Hloop. destruct (IH _ _ _ Hrest Hloop) as (news & js & Hp & Hall & Hb & Hs).
      exists news, js. split_and!; [done..| |done].
      eapply Forall_impl; [exact Hb|]. simpl. intros j Hj. lia.
    + apply resolve_Some in Hres as [-> _].
      assert (truthy (o !! k_id) = false) as Ht by (apply Hids; by left).
      pose proof (fix_suggestion_fresh_id i o fixed s e a Ht Hfix) as Hid.
      destruct f as [st1|st1]; simpl in Hst; subst st1.
      * intros Hloop.
        destruct (IH _ _ _ Hrest Hloop) as (news & js & Hp & Hall & Hb & Hs).
        exists (fixed :: news), (i :: js). simpl in Hp.
        split_and!.
        -- by rewrite Hp, <- app_assoc.
        -- by constructor.
        -- constructor; [simpl; lia|].
           eapply Forall_impl; [exact Hb|]. simpl. intros j Hj. lia.
        -- constructor; [done|].
           eapply Forall_impl; [exact Hb|]. simpl. intros j Hj. lia.
      * intros [= <-]. exists [fixed], [i]. simpl.
        split_and!; [done|by repeat constructor|repeat constructor; lia|
                     by repeat constructor].
Qed.

End Ids.

(** X5.  When no candidate object carries a truthy [id], the
    suggestions returned have pairwise different identifiers, whatever
    the clock reads: each is [sg-], the reading of the clock, a hyphen
    and the index of its candidate in the array. *)
Theorem reconcile_ids_distinct (toLowerCase : jsstring → jsstring)
    (now : nat → Z) (text : jsstring) (suggestions : list value)
    (out : list (gmap jsstring value)) :
  (∀ o, JObj o ∈ suggestions → truthy (o !! k_id) = false) →
  reconcile toLowerCase now text suggestions = Ok out →
  NoDup ((λ s, s !! k_id) <$> out)
  ∧ ∀ s, s ∈ out →
      ∃ i, (i < length suggestions)%nat
           ∧ s !! k_id
             = Some (JStr (sg_ ++ numberToString (now i) ++ dash
                             ++ numberToString (Z.of_nat i))).
Proof.
  intros Hids (st & Hloop & ->)%reconcile_Ok.
  destruct (loop_ids toLowerCase now text suggestions 0%nat (State [] []) st
              Hids Hloop) as (news & js & Hp & Hall & Hb & Hs).
  simpl in Hp. subst news. split.
  - assert ((λ s : gmap jsstring value, s !! k_id) <$> processedSuggestions st
            = (λ j, Some (JStr (sg_ ++ numberToString (now j) ++ dash
                                  ++ numberToString (Z.of_nat j)))) <$> js) as ->.
    { clear Hb Hs. induction Hall as [|s j l l' Hsj _ IH]; [done|].
      rewrite !fmap_cons. by rewrite Hsj, IH. }
    apply NoDup_fmap_2.
    + intros i j [= H]. by apply sg_id_inj in H.
    + clear Hall Hb. induction Hs as [|j l _ IH Hj]; [constructor|].
      constructor; [|done]. intros Hin.
      apply (proj1 (Forall_forall _ _) Hj) in Hin. lia.
  - intros s Hin.
    destruct (proj1 (list_elem_of_lookup _ _) Hin) as [k Hk].
    destruct (Forall2_lookup_l _ _ _ _ _ Hall Hk) as (j & Hj & Hid).
    exists j. split; [|done].
    apply (proj1 (Forall_forall _ _) Hb j).
    by eapply list_elem_of_lookup_2.
Qed.

Lemma reconcile_ids_distinct_witness :
  NoDup ((λ s : gmap jsstring value, s !! k_id) <$> take 20 fixeds_25)
  ∧ ∀ s, s ∈ take 20 fixeds_25 →
      ∃ i, (i < length cands_25)%nat
           ∧ s !! k_id
             = Some (JStr (sg_ ++ numberToString (clock0 i) ++ dash
                             ++ numberToString (Z.of_nat i))).
Proof.
  apply (reconcile_ids_distinct lower_latin clock0 text_25 cands_25).
  - intros o Ho. unfold cands_25 in Ho.
    apply list_elem_of_fmap in Ho as (k & [= ->] & _). reflexivity.
  - reflexivity.
Defined.

(** ** The search without an approximate index *)

Lemma nearest_of_first (h n : jsstring) :
  n ≠ [] → nearest_of h n None = Ok (indexOf h n 0).
Proof.
  intros Hn. unfold nearest_of.
  destruct (collect_enough (length h + 2) h n 0 [] Hn) as [occs Hc];
    [lia|unfold len; lia|].
  rewrite Hc. replace (length h + 2)%nat with (S (length h + 1)) in Hc by lia.
  cbn [collect] in Hc.
  destruct (Z.eqb_spec (indexOf h n 0) (-1)) as [Hmiss|Hhit].
  - injection Hc as <-. by rewrite Hmiss.
  - destruct (indexOf_hit h n 0 _ eq_refl Hhit) as (_ & [H0 _] & _).
    apply collect_spec in Hc as (new & -> & _); [|done|lia]. done.
Qed.

(** X11.  Called without an approximate index, both searches answer
    with the first occurrence: [findNearestIndex] with what
    [haystack.indexOf(needle)] gives, [findNearestIndexCI] with the same
    on the lower-cased strings; this is -1 when there is none. *)
Theorem findNearestIndex_first (toLowerCase : jsstring → jsstring)
    (haystack needle : jsstring) :
  needle ≠ [] →
  findNearestIndex haystack (Some (JStr needle)) None
  = Ok (indexOf haystack needle 0)
  ∧ (toLowerCase needle ≠ [] →
     findNearestIndexCI toLowerCase haystack (Some (JStr needle)) None
     = Ok (indexOf (toLowerCase haystack) (toLowerCase needle) 0)).
Proof.
  intros Hn. split.
  - rewrite findNearestIndex_string by done. by apply nearest_of_first.
  - intros Hl. unfold findNearestIndexCI.
    replace (truthy (Some (JStr needle))) with true by (by destruct needle).
    unbind. rewrite <- (nearest_of_first _ _ Hl).
    by destruct (toLowerCase needle).
Qed.

Lemma findNearestIndex_first_witness :
  findNearestIndex text_sya (Some (JStr (lit "a"))) None = Ok 2
  ∧ findNearestIndexCI lower_latin text_sya (Some (JStr (lit "S"))) None = Ok 0.
Proof.
  destruct (findNearestIndex_first lower_latin text_sya (lit "a")) as [H _];
    [done|].
  destruct (findNearestIndex_first lower_latin text_sya (lit "S")) as [_ H'];
    [done|].
  split; [exact H|]. apply H'. done.
Defined.

(** ** The limiter in terms of the calls it allowed *)

Section LimiterHistory.
Import Limiter.

Lemma times_of_snoc (c c0 : jsstring) (t0 : Z) (allowed : list (jsstring * Z)) :
  times_of c (allowed ++ [(c0, t0)])
  = times_of c allowed ++ (if bool_decide (c0 = c) then [t0] else []).
Proof. by rewrite times_of_app, (times_of_answer c c0 true t0). Qed.

(** Under a clock that does not go back, what is recorded for a client
    at the end of a run holds, within the window of any later call, the
    times of the calls that were allowed; and none of these lies in the
    future. *)
Lemma run_history (events : list event) :
  ∀ (store : gmap jsstring (list Z)) (allowed0 : list (jsstring * Z)) (T : Z),
    (∀ e, e ∈ events → T ≤ at_time e) →
    clock_monotone events →
    (∀ c now, T ≤ now →
       filter (λ time, now - time < 60000) (default [] (store !! c))
       = filter (λ time, now - time < 60000) (times_of c allowed0)) →
    (∀ c x, x ∈ times_of c allowed0 → x ≤ T) →
    ∀ c now,
      T ≤ now → (∀ e, e ∈ events → at_time e ≤ now) →
      filter (λ time, now - time < 60000)
        (default [] ((run store events).2 !! c))
      = filter (λ time, now - time < 60000)
          (times_of c (allowed0 ++ (run store events).1))
      ∧ ∀ x, x ∈ times_of c (allowed0 ++ (run store events).1) → x ≤ now.
Proof.
  induction events as [|[c0 t0|t0] rest IH];
    intros store allowed0 T Hlow Hmono Hrec Hpast c now HT Hnow.
  - cbn [run fst snd]. rewrite app_nil_r. split; [by apply Hrec|].
    intros x Hx. specialize (Hpast c x Hx). lia.
  - apply clock_monotone_cons in Hmono as [Hfirst Hmono].
    assert (T ≤ t0) as Ht by (apply (Hlow (Call c0 t0)); by left).
    assert (t0 ≤ now) as Ht0 by (apply (Hnow (Call c0 t0)); by left).
    rewrite run_call. cbn [fst snd]. rewrite app_assoc.
    rewrite check_unfold. rewrite (Hrec c0 t0 Ht).
    case_bool_decide as Hroom; cbn [fst snd].
    + apply (IH _ _ t0); [done|done|..|done|].
      * intros c' now' Hnow'. rewrite times_of_snoc.
        case_bool_decide as Hc.
        -- subst c'. rewrite lookup_insert_eq. simpl.
           rewrite !filter_app, filter_window_twice by done. done.
        -- rewrite lookup_insert_ne by done. rewrite app_nil_r.
           apply Hrec. lia.
      * intros c' x. rewrite times_of_snoc, elem_of_app.
        intros [Hx|Hx]; [specialize (Hpast c' x Hx); lia|].
        case_bool_decide; [|by apply elem_of_nil in Hx].
        apply list_elem_of_singleton in Hx. lia.
      * intros e He. apply Hnow. by right.
    + rewrite app_nil_r. apply (IH _ _ t0); try done.
      * intros c' now' Hnow'. apply Hrec. lia.
      * intros c' x Hx. specialize (Hpast c' x Hx). lia.
      * intros e He. apply Hnow. by right.
  - apply clock_monotone_cons in Hmono as [Hfirst Hmono].
    assert (T ≤ t0) as Ht by (apply (Hlow (Sweep t0)); by left).
    assert (t0 ≤ now) as Ht0 by (apply (Hnow (Sweep t0)); by left).
    cbn [run]. apply (IH _ _ t0); try done.
    + intros c' now' Hnow'. rewrite sweep_lookup.
      rewrite filter_window_twice by done. apply Hrec. lia.
    + intros c' x Hx. specialize (Hpast c' x Hx). lia.
    + intros e He. apply Hnow. by right.
Qed.

Lemma clock_monotone_snoc (events : list event) (e : event) :
  clock_monotone (events ++ [e]) →
  clock_monotone events ∧ ∀ a, a ∈ events → at_time a ≤ at_time e.
Proof.
  intros Hm. split.
  - intros i j a b Hij Ha Hb.
    apply (Hm i j a b); [done|by apply lookup_app_l_Some..].
  - intros a [i Hi]%list_elem_of_lookup.
    apply (Hm i (length events) a e).
    + apply lookup_lt_Some in Hi. lia.
    + by apply lookup_app_l_Some.
    + by rewrite lookup_app_r, Nat.sub_diag by lia.
Qed.

Lemma filter_in_window (t : Z) (l : list Z) :
  (∀ x, x ∈ l → x ≤ t) →
  filter (λ time, t - time < 60000) l = in_window t l.
Proof.
  intros Hle. unfold in_window. induction l as [|x l IH]; [done|].
  assert (x ≤ t) by (apply Hle; by left).
  assert (∀ y, y ∈ l → y ≤ t) as Hl by (intros y Hy; apply Hle; by right).
  destruct (decide (t - x < 60000)).
  - rewrite !filter_cons_True by lia. by rewrite IH.
  - rewrite !filter_cons_False by lia. by apply IH.
Qed.

End LimiterHistory.

(** X15.  The in-memory limiter is a sliding-window limiter over the
    calls it allowed.  While the clock does not go back, after any
    calls and sweeps from the empty store on, a call for a client at
    time [t] is allowed exactly when fewer than ten of the calls of that
    client allowed so far have their time in the 60000 ms ending at
    [t]; calls that were rejected do not count. *)
Theorem limiter_exact (events : list event) (clientId : jsstring) (t : Z) :
  clock_monotone (events ++ [Call clientId t]) →
  (Limiter.checkRateLimitInMemory (run ∅ events).2 clientId t).1 = true
  ↔ (length (in_window t (times_of clientId (run ∅ events).1)) < 10)%nat.
Proof.
  intros [Hmono Hbefore]%clock_monotone_snoc. simpl in Hbefore.
  assert (filter (λ time, t - time < 60000)
            (default [] ((run ∅ events).2 !! clientId))
          = in_window t (times_of clientId (run ∅ events).1)) as Hrec.
  { destruct events as [|e rest]; [done|].
    destruct (run_history (e :: rest) ∅ [] (at_time e)) with (c := clientId)
      (now := t) as [Hrec Hpast]; try done.
    - intros b [->|Hb]%elem_of_cons; [lia|].
      by apply (clock_monotone_cons e rest Hmono).
    - intros c x Hx. by apply elem_of_nil in Hx.
    - apply Hbefore. by left.
    - rewrite Hrec. simpl. by apply filter_in_window. }
  rewrite check_unfold, Hrec. by case_bool_decide.
Qed.

Lemma limiter_exact_witness :
  (Limiter.checkRateLimitInMemory
     (run ∅ [Call client 0; Call typo 10; Sweep 60000]).2 client 60001).1 = true
  ↔ (length (in_window 60001
               (times_of client
                  (run ∅ [Call client 0; Call typo 10; Sweep 60000]).1))
     < 10)%nat.
Proof.
  apply (limiter_exact [Call client 0; Call typo 10; Sweep 60000] client 60001).
  simpl.
  repeat (apply clock_monotone_step; [repeat constructor; simpl; lia|]).
  apply clock_monotone_nil.
Defined.
